(** * sysgen: the system-call description compiler of syzkaller

    A shallow embedding of [sysgen/sysgen.go].  The Go program prints Go
    source text; the embedding returns the tree of type descriptors that the
    printed text denotes (one constructor per printed composite literal) and
    keeps as strings the tokens the program copies verbatim into its output.

    Conventions.
    - [failf] prints a message and exits: the computation ends in [Fatal]
      carrying the message's kind and arguments.
    - A Go run-time panic (index or slice bound out of range) ends it in
      [Panic].
    - Recursion and the one unbounded loop take fuel; [OutOfFuel] stands for
      a run that has not finished within the given number of steps.
    - The description is a shared, mutable object in Go ([generateArg] shifts
      its parameter slice in place when it removes the [opt] marker), so the
      description lives in the state and parameter slices are addressed by
      the place they were cut from ([slot]); token lists at different places
      share no storage.
    - Go leaves the order in which a [range] visits a map open; the orders
      are inputs of the embedding ([schedule]).
    - What the program reads from the file system, the lines of the files of
      constants, is an input of the embedding; the errors of the file system
      and the writing of the output files are left out. *)

From Stdlib Require Import ZArith NArith String Ascii DecimalString DecimalPos
  DecimalN.
From stdpp Require Import gmap strings list sorting.

(** ** Strings and numbers as the Go library treats them *)

(** [strings.HasPrefix(s, p)] *)
Definition HasPrefix (s p : string) : bool := String.prefix p s.

(** [strings.HasSuffix(s, suf)] *)
Definition HasSuffix (s suf : string) : bool :=
  let n := String.length s in
  let k := String.length suf in
  if (k <=? n)%nat then String.eqb (String.substring (n - k) k s) suf else false.

(** [s[k:]] for [k <= len(s)] *)
Fixpoint string_drop (k : nat) (s : string) : string :=
  match k, s with
  | O, _ => s
  | S k', String _ s' => string_drop k' s'
  | S _, EmptyString => EmptyString
  end.

(** [s[:len(s)-k]] for [k <= len(s)] *)
Definition string_drop_end (k : nat) (s : string) : string :=
  String.substring 0 (String.length s - k) s.

(** [fmt.Sprint(v)] for an unsigned integer: decimal digits. *)
Definition Sprint (v : N) : string := NilZero.string_of_uint (N.to_uint v).

(** The double-quote character. *)
Definition quote : ascii := Ascii.ascii_of_nat 34.

(** The single byte [\x00]. *)
Definition NUL : string := String Ascii.zero EmptyString.

Definition digit_of (c : ascii) : option N :=
  let n := N_of_ascii c in
  if ((48 <=? n) && (n <=? 57))%N then Some (n - 48)%N else None.

Fixpoint parseDigits (s : string) (acc : N) : option N :=
  match s with
  | EmptyString => Some acc
  | String c s' =>
      match digit_of c with
      | Some d => parseDigits s' (10 * acc + d)%N
      | None => None
      end
  end.

(** [strconv.ParseUint(s, 10, 64)]: [None] when Go returns an error (empty
    input, a byte that is not a decimal digit, or a value above 2^64-1). *)
Definition ParseUint (s : string) : option N :=
  match s with
  | EmptyString => None
  | _ =>
      match parseDigits s 0 with
      | Some n => if (n <? 2 ^ 64)%N then Some n else None
      | None => None
      end
  end.

(** [strconv.ParseInt(s, 10, bitSize)]: an optional sign, then digits; the
    value must fit a signed integer of [bitSize] bits. *)
Definition ParseInt (s : string) (bitSize : N) : option Z :=
  match s with
  | EmptyString => None
  | String c s' =>
      let '(neg, body) :=
        if Ascii.eqb c "+" then (false, s')
        else if Ascii.eqb c "-" then (true, s')
        else (false, s) in
      match ParseUint body with
      | Some un =>
          let cutoff := (2 ^ (bitSize - 1))%N in
          if neg then
            if (un <=? cutoff)%N then Some (- Z.of_N un)%Z else None
          else
            if (un <? cutoff)%N then Some (Z.of_N un) else None
      | None => None
      end
  end.

(** Two's-complement wrap-around of a mathematical integer into [int64]. *)
Definition wrap64 (z : Z) : Z := ((z + 2 ^ 63) mod 2 ^ 64 - 2 ^ 63)%Z.

Definition int64_add (x y : Z) : Z := wrap64 (x + y).
Definition int64_mul (x y : Z) : Z := wrap64 (x * y).
(** [x << n] on [int64] with an unsigned count: bits shifted past bit 63 are
    lost, a count of 64 or more gives 0. *)
Definition int64_shl (x : Z) (n : N) : Z := wrap64 (x * 2 ^ Z.of_N n).

(** [int(nr)] for [nr : uint64] on a 64-bit target. *)
Definition int_of_uint64 (nr : N) : Z := wrap64 (Z.of_N nr).

(** [isIdentifier]: the loop runs over the runes of [s]; every rune outside
    ASCII fails all four tests, so testing byte by byte is the same. *)
Definition isIdentChar (first : bool) (c : ascii) : bool :=
  let n := N_of_ascii c in
  (Ascii.eqb c "_"
   || ((97 <=? n) && (n <=? 122))
   || ((65 <=? n) && (n <=? 90))
   || (negb first && ((48 <=? n) && (n <=? 57))))%N.

Fixpoint isIdentifier_from (first : bool) (s : string) : bool :=
  match s with
  | EmptyString => true
  | String c s' => if isIdentChar first c then isIdentifier_from false s' else false
  end.

Definition isIdentifier (s : string) : bool := isIdentifier_from true s.

(** [strings.Split(s, ":")] *)
Fixpoint split_colon_go (cur : string) (s : string) : list string :=
  match s with
  | EmptyString => [String.rev cur]
  | String c s' =>
      if Ascii.eqb c ":" then String.rev cur :: split_colon_go EmptyString s'
      else split_colon_go (String c cur) s'
  end.

Definition split_colon (s : string) : list string := split_colon_go EmptyString s.

(** ** The schema *)

(** Modelled from the spec: the types [Syscall], [Struct], [Resource] and
    [Description] are declared in package [sysparser], which is not part of
    the sources at hand; the fields are those the code reads and section 3
    of the specification lists.  A type specification is a token list:
    field or argument name, type name, then the parameters. *)
Record Syscall := mkSyscall {
  Syscall_Name : string;
  CallName : string;
  Args : list (list string);
  Ret : list string
}.

Record Struct := mkStruct {
  Struct_Name : string;
  Flds : list (list string);
  IsUnion : bool;
  Packed : bool;
  Varlen : bool;
  Align : N
}.

Record Resource := mkResource {
  Resource_Name : string;
  Base : string;
  Values : list string
}.

Record Description := mkDescription {
  Syscalls : list Syscall;
  Structs : gmap string Struct;
  Resources : gmap string Resource;
  Flags : gmap string (list string);
  StrFlags : gmap string (list string);
  Unnamed : gmap string (list string)
}.

(** ** The compiled descriptors *)

Inductive Dir := DirIn | DirOut | DirInOut.

Record TypeCommon := mkCommon {
  TypeName : string;
  ArgDir : Dir;
  IsOptional : bool
}.

(** [structKey] *)
Record structKey := mkKey {
  name : string;
  field : string;
  dir : string
}.

Global Instance structKey_eq_dec : EqDecision structKey.
Proof. solve_decision. Defined.

Global Instance structKey_countable : Countable structKey.
Proof.
  refine (inj_countable' (fun k => (name k, field k, dir k))
                         (fun t => mkKey t.1.1 t.1.2 t.2) _).
  intros []; reflexivity.
Defined.

(** The [%v] rendering of a [structKey], under which the printed source
    indexes the table [Structs]. *)
Definition fmtKey (k : structKey) : string :=
  "{" +:+ name k +:+ " " +:+ field k +:+ " " +:+ dir k +:+ "}".

Inductive IntKind :=
  | IntPlain
  | IntFileoff
  | IntSignalno
  | IntRange (RangeBegin RangeEnd : string).

Inductive BufferKind :=
  | BufferBlobRand
  | BufferBlobRange (RangeBegin RangeEnd : string)
  | BufferString (SubKind : string) (Values : list string)
  | BufferAlgType
  | BufferAlgName
  | BufferFilename.

Inductive ArrayKind :=
  | ArrayRandLen
  | ArrayRangeLen (RangeBegin RangeEnd : string).

(** One constructor per composite literal that [generateArg] prints.
    [StructRef k] is the printed expression [Structs["..."]] with the
    rendering [fmtKey k] of the key between the quotes, and
    [ResourceType c r] carries [Desc: Resources["r"]]. *)
Inductive Typ :=
  | IntType (c : TypeCommon) (TypeSize : N) (BigEndian : bool) (Kind : IntKind)
  | BufferType (c : TypeCommon) (Kind : BufferKind)
  | PtrType (c : TypeCommon) (Type_ : Typ)
  | ArrayType (c : TypeCommon) (Type_ : Typ) (Kind : ArrayKind)
  | LenType (c : TypeCommon) (Buf : string) (TypeSize : N) (BigEndian : bool)
            (ByteSize : N)
  | FlagsType (c : TypeCommon) (TypeSize : N) (BigEndian : bool)
              (Vals : list string)
  | ConstType (c : TypeCommon) (TypeSize : N) (BigEndian : bool) (Val : string)
  | ProcType (c : TypeCommon) (TypeSize : N) (BigEndian : bool)
             (ValuesStart ValuesPerProc : Z)
  | VmaType (c : TypeCommon) (RangeBegin RangeEnd : string)
  | StructRef (key : structKey)
  | ResourceType (c : TypeCommon) (Desc : string).

(** ** Outcomes *)

(** The calls of [failf], by message. *)
Inductive failure :=
  | WrongNumberOfArguments (typ name : string) (got : nat)
  | UnknownStringFlags (flags : string)
  | FailedToParseStringLength (name : string)
  | StringExceedsBuffer (s : string) (size : N) (name : string)
  | UnknownFlag (flags : string)
  | CouldntParseInt64 (s : string)
  | ValuesPerProcBelowOne (perProc : Z)
  | ValuesStartOverflow (start : Z) (size : N)
  | NotEnoughValues (start perProc : Z) (size : N)
  | UnknownUnnamedType (typ : string)
  | StructHasArgs (typ : string)
  | ResourceHasArgs (typ : string)
  | UnknownArgType (typ name : string)
  | CantBeSyscallArgument (name typ : string)
  | BadDirection (s : string)
  | UnknownType (typ : string)
  | BadRange (buffer : string)
  | UnknownParentResource (name parent : string).

Inductive outcome (A : Type) :=
  | Ok (a : A)
  | Fatal (f : failure)
  | Panic
  | OutOfFuel.
Arguments Ok {A} a.
Arguments Fatal {A} f.
Arguments Panic {A}.
Arguments OutOfFuel {A}.

(** ** State: the skip flag and the shared description *)

Record state := mkState {
  skipCurrentSyscall : string;
  description : Description
}.

(** A computation that reads and writes the state and may stop early. *)
Definition M (A : Type) : Type := state -> outcome (A * state).

Definition ret {A} (a : A) : M A := fun s => Ok (a, s).

Definition bind {A B} (m : M A) (k : A -> M B) : M B :=
  fun s =>
    match m s with
    | Ok (a, s') => k a s'
    | Fatal f => Fatal f
    | Panic => Panic
    | OutOfFuel => OutOfFuel
    end.

Definition failf {A} (f : failure) : M A := fun _ => Fatal f.
Definition panic {A} : M A := fun _ => Panic.
Definition outOfFuel {A} : M A := fun _ => OutOfFuel.
Definition liftO {A} (o : outcome A) : M A :=
  fun s =>
    match o with
    | Ok a => Ok (a, s)
    | Fatal f => Fatal f
    | Panic => Panic
    | OutOfFuel => OutOfFuel
    end.
Definition gets {A} (f : state -> A) : M A := fun s => Ok (f s, s).
Definition modify (f : state -> state) : M unit := fun s => Ok (tt, f s).

Declare Scope gen_scope.
Delimit Scope gen_scope with gen.
Notation "x <- m ;; k" := (bind m (fun x => k))
  (at level 100, m at next level, right associativity) : gen_scope.
Notation "m ;;; k" := (bind m (fun _ => k))
  (at level 100, right associativity) : gen_scope.

(** [if cond { failf(...) }] *)
Definition failIf (cond : bool) (f : failure) : M unit :=
  if cond then failf f else ret tt.

Local Open Scope gen_scope.

(** [mapM]: run [f] on the elements from left to right. *)
Fixpoint mapM {A B} (f : A -> M B) (l : list A) : M (list B) :=
  match l with
  | [] => ret []
  | x :: l' => y <- f x ;; ys <- mapM f l' ;; ret (y :: ys)
  end.

(** ** Parameter slices and the places they are cut from *)

(** Where the slice [a] handed to [generateArg] lives. *)
Inductive slot :=
  | NoSlot                               (* [nil] *)
  | RetSlot (call : nat)                 (* [desc.Syscalls[call].Ret[1:]] *)
  | ArgSlot (call arg : nat)             (* [desc.Syscalls[call].Args[arg][2:]] *)
  | FldSlot (str : string) (fld : nat)   (* [desc.Structs[str].Flds[fld][2:]] *)
  | UnnamedSlot (typ : string).          (* [desc.Unnamed[typ][1:]] *)

(** Overwrite the elements of [l] from index [k] on with [back]; [back] is as
    long as the part it replaces. *)
Definition overwrite_from (k : nat) (back : list string) (l : list string)
  : list string := take k l ++ back.

Definition store (sl : slot) (back : list string) (d : Description)
  : Description :=
  match sl with
  | NoSlot => d
  | RetSlot i =>
      mkDescription
        (alter (fun s => mkSyscall (Syscall_Name s) (CallName s) (Args s)
                           (overwrite_from 1 back (Ret s))) i (Syscalls d))
        (Structs d) (Resources d) (Flags d) (StrFlags d) (Unnamed d)
  | ArgSlot i j =>
      mkDescription
        (alter (fun s => mkSyscall (Syscall_Name s) (CallName s)
                           (alter (overwrite_from 2 back) j (Args s))
                           (Ret s)) i (Syscalls d))
        (Structs d) (Resources d) (Flags d) (StrFlags d) (Unnamed d)
  | FldSlot n j =>
      mkDescription (Syscalls d)
        (alter (fun s => mkStruct (Struct_Name s)
                           (alter (overwrite_from 2 back) j (Flds s))
                           (IsUnion s) (Packed s) (Varlen s) (Align s))
               n (Structs d))
        (Resources d) (Flags d) (StrFlags d) (Unnamed d)
  | UnnamedSlot u =>
      mkDescription (Syscalls d) (Structs d) (Resources d) (Flags d)
        (StrFlags d) (alter (overwrite_from 1 back) u (Unnamed d))
  end.

(** The scan for ["opt"] at the head of [generateArg]: returns the flag, the
    shortened slice, and the contents the backing array has afterwards
    ([copy(a[i:], a[i+1:])] shifts the tail left by one and leaves the last
    element in place). *)
Fixpoint removeOpt (a : list string) : option (list string) :=
  match a with
  | [] => None
  | v :: a' =>
      if String.eqb v "opt" then Some a'
      else match removeOpt a' with
           | Some r => Some (v :: r)
           | None => None
           end
  end.

Definition scanOpt (a : list string) : bool * list string * list string :=
  match removeOpt a with
  | Some a' => (true, a', a' ++ drop (length a') a)
  | None => (false, a, a)
  end.

(** The two results of the scan that the rest of [generateArg] uses: the
    variable [opt] and the parameters left in [a]. *)
Definition optOf (a : list string) : bool := (scanOpt a).1.1.
Definition paramsOf (a : list string) : list string := (scanOpt a).1.2.

(** ** Helpers of [generateArg] *)

Definition ptrSize : N := 8.

(** [skipSyscall] *)
Definition skipSyscall (why : string) : M unit :=
  modify (fun s =>
    if negb (String.eqb (skipCurrentSyscall s) EmptyString)
    then mkState why (description s)
    else s).

(** [fmtDir]: the [switch] over the three directions, and its [default]. *)
Definition dirOf (s : string) : option Dir :=
  if String.eqb s "in" then Some DirIn
  else if String.eqb s "out" then Some DirOut
  else if String.eqb s "inout" then Some DirInOut
  else None.

Definition fmtDir (s : string) : M Dir :=
  match dirOf s with
  | Some d => ret d
  | None => failf (BadDirection s)
  end.

(** The closure [common] of [generateArg], applied to the current values of
    the variables [name], [dir] and [opt] it captures.  [name] is printed
    between quotes, as the string literal whose value is the name. *)
Definition common (name dir : string) (opt : bool) : M TypeCommon :=
  d <- fmtDir dir ;; ret (mkCommon name d opt).

Definition string_in (s : string) (l : list string) : bool :=
  existsb (String.eqb s) l.

(** [decodeIntType].  After the [switch] has accepted [typ], [ParseInt]
    cannot fail on [typ[3:]]. *)
Definition decodeIntType (typ : string) : M (N * bool) :=
  let bigEndian := HasSuffix typ "be" in
  let typ := if bigEndian then string_drop_end 2 typ else typ in
  failIf (negb (string_in typ ["int8"; "int16"; "int32"; "int64"; "intptr"]))
         (UnknownType typ) ;;;
  let sz := if negb (String.eqb typ "intptr")
            then default 0%Z (ParseInt (string_drop 3 typ) 64)
            else Z.of_N (ptrSize * 8) in
  ret (Z.to_N (sz / 8), bigEndian).

(** [decodeByteSizeType] *)
Definition decodeByteSizeType (typ : string) : M N :=
  failIf (negb (string_in typ ["bytesize"; "bytesize2"; "bytesize4"; "bytesize8"]))
         (UnknownType typ) ;;;
  let sz := if negb (String.eqb typ "bytesize")
            then default 0%Z (ParseInt (string_drop 8 typ) 8)
            else 1%Z in
  ret (Z.to_N sz).

(** [parseRange] *)
Definition lookupConst (consts : gmap string N) (name : string) : string :=
  match consts !! name with
  | Some v => Sprint v
  | None => name
  end.

Definition parseRange (buffer : string) (consts : gmap string N)
  : M (string * string) :=
  match split_colon buffer with
  | [_] => let v := lookupConst consts buffer in ret (v, v)
  | [p0; p1] => ret (lookupConst consts p0, lookupConst consts p1)
  | _ => failf (BadRange buffer)
  end.

(** [a[i]], with Go's bounds check. *)
Definition index (a : list string) (i : nat) : M string :=
  match a !! i with
  | Some v => ret v
  | None => panic
  end.

(** [if want := n; len(a) != want { failf(...) }] *)
Definition wantArgs (typ name : string) (want : nat) (a : list string) : M unit :=
  failIf (negb (length a =? want)%nat) (WrongNumberOfArguments typ name (length a)).

(** The size and endianness prologue shared by the integer-like constructs:
    as a field the type token at position [pos] of [wantField] parameters is
    decoded, as an argument the size is that of a pointer. *)
Definition sizeOf (typ name : string) (isField : bool) (wantField wantArg pos : nat)
    (a : list string) : M (N * bool) :=
  if isField then
    wantArgs typ name wantField a ;;;
    t <- index a pos ;;
    decodeIntType t
  else
    wantArgs typ name wantArg a ;;;
    ret (ptrSize, false).

(** The second loop of the [string] case: check each value against the fixed
    size and pad it with zero bytes. *)
Fixpoint zeros (k : nat) : string :=
  match k with
  | O => EmptyString
  | S k' => String Ascii.zero (zeros k')
  end.

Definition padValue (size : N) (s : string) : string :=
  s +:+ zeros (N.to_nat size - String.length s).

Fixpoint padValues (size : N) (name : string) (vals : list string)
  : outcome (list string) :=
  match vals with
  | [] => Ok []
  | s :: vals' =>
      if (size <? N.of_nat (String.length s))%N
      then Fatal (StringExceedsBuffer s size name)
      else match padValues size name vals' with
           | Ok rest => Ok (padValue size s :: rest)
           | o => o
           end
  end.

(** The first parameter of [string]: a literal between quotes, or the name
    of a set of string flags.  Returns [vals] and [subkind]. *)
Definition stringEnum (d : Description) (a0 : string)
  : outcome (list string * string) :=
  match a0 with
  | EmptyString => Panic                                (* [a[0][0]] *)
  | String c _ =>
      if Ascii.eqb c quote then
        (* [a[0][1:len(a[0])-1]] *)
        if (String.length a0 <? 2)%nat then Panic
        else Ok ([String.substring 1 (String.length a0 - 2) a0], EmptyString)
      else
        match StrFlags d !! a0 with
        | Some vals1 => Ok (vals1, a0)
        | None => Fatal (UnknownStringFlags a0)
        end
  end.

(** The second parameter of [string]: a constant or a decimal number. *)
Definition stringSize (consts : gmap string N) (name a1 : string) : outcome N :=
  match consts !! a1 with
  | Some v => Ok v
  | None =>
      match ParseUint a1 with
      | Some v => Ok v
      | None => Fatal (FailedToParseStringLength name)
      end
  end.

(** The constructs the [switch] of [generateArg] tells apart. *)
Inductive construct :=
  | CFileoff | CBuffer | CString | CSalgType | CSalgName | CVma | CLen
  | CFlags | CConst | CProc | CInt | CSignalno | CFilename | CArray | CPtr
  | CDefault.

Definition classify (typ : string) : construct :=
  if String.eqb typ "fileoff" then CFileoff
  else if String.eqb typ "buffer" then CBuffer
  else if String.eqb typ "string" then CString
  else if String.eqb typ "salg_type" then CSalgType
  else if String.eqb typ "salg_name" then CSalgName
  else if String.eqb typ "vma" then CVma
  else if string_in typ ["len"; "bytesize"; "bytesize2"; "bytesize4"; "bytesize8"]
  then CLen
  else if String.eqb typ "flags" then CFlags
  else if String.eqb typ "const" then CConst
  else if String.eqb typ "proc" then CProc
  else if string_in typ ["int8"; "int16"; "int32"; "int64"; "intptr";
                         "int16be"; "int32be"; "int64be"; "intptrbe"]
  then CInt
  else if String.eqb typ "signalno" then CSignalno
  else if String.eqb typ "filename" then CFilename
  else if String.eqb typ "array" then CArray
  else if String.eqb typ "ptr" then CPtr
  else CDefault.

(** How a case of the [switch] is left: by falling out of it with the value
    of [canBeArg], or by [return]. *)
Inductive switchExit :=
  | FallThrough (canBeArg : bool)
  | Return.

Definition maxPids : Z := 32.

(** ** [generateArg] *)

Section GenerateArg.
Variable consts : gmap string N.

(** The [string] case up to the final print. *)
Definition stringValues (name : string) (a : list string)
  : M (string * list string) :=
  p <- (if (1 <=? length a)%nat then
          a0 <- index a 0 ;;
          d <- gets description ;;
          liftO (stringEnum d a0)
        else ret ([], EmptyString)) ;;
  let vals := map (fun s => s +:+ NUL) p.1 in
  let subkind := p.2 in
  vals <- (if (2 <=? length a)%nat then
             a1 <- index a 1 ;;
             size <- liftO (stringSize consts name a1) ;;
             liftO (padValues size name vals)
           else ret vals) ;;
  ret (subkind, vals).

(** The [proc] case up to the final print. *)
Definition procValues (typ name : string) (isField : bool) (a : list string)
  : M (N * bool * Z * Z) :=
  p <- (if isField then
          wantArgs typ name 3 a ;;;
          a0 <- index a 0 ;;
          sb <- decodeIntType a0 ;;
          a1 <- index a 1 ;;
          a2 <- index a 2 ;;
          ret (sb, a1, a2)
        else
          wantArgs typ name 2 a ;;;
          a0 <- index a 0 ;;
          a1 <- index a 1 ;;
          ret ((ptrSize, false), a0, a1)) ;;
  let size := p.1.1.1 in
  let bigEndian := p.1.1.2 in
  let valuesStart := p.1.2 in
  let valuesPerProc := p.2 in
  valuesStartInt <- match ParseInt valuesStart 64 with
                    | Some v => ret v
                    | None => failf (CouldntParseInt64 valuesStart)
                    end ;;
  valuesPerProcInt <- match ParseInt valuesPerProc 64 with
                      | Some v => ret v
                      | None => failf (CouldntParseInt64 valuesPerProc)
                      end ;;
  failIf (valuesPerProcInt <? 1)%Z (ValuesPerProcBelowOne valuesPerProcInt) ;;;
  failIf (int64_shl 1 (size * 8) <=? valuesStartInt)%Z
         (ValuesStartOverflow valuesStartInt size) ;;;
  failIf (int64_shl 1 (size * 8) <=?
            int64_add valuesStartInt (int64_mul maxPids valuesPerProcInt))%Z
         (NotEnoughValues valuesStartInt valuesPerProcInt size) ;;;
  ret (size, bigEndian, valuesStartInt, valuesPerProcInt).

Fixpoint generateArg (fuel : nat) (parent name typ dir : string)
    (a : list string) (sl : slot) (isArg isField : bool) {struct fuel} : M Typ :=
  match fuel with
  | O => outOfFuel
  | S fuel' =>
    let generateType (typ dir : string) : M Typ :=
      generateArg fuel' EmptyString EmptyString typ dir [] NoSlot false true in
    let origName := name in
    let '(opt, a, back) := scanOpt a in
    (if opt
     then modify (fun s => mkState (skipCurrentSyscall s)
                                   (store sl back (description s)))
     else ret tt) ;;;
    r <- match classify typ with
         | CFileoff =>
             sb <- sizeOf typ name isField 1 0 0 a ;;
             c <- common name dir opt ;;
             ret (IntType c sb.1 sb.2 IntFileoff, FallThrough true)
         | CBuffer =>
             wantArgs typ name 1 a ;;;
             ptrCommonHdr <- common name dir opt ;;
             dir <- index a 0 ;;
             c <- common name dir false ;;
             ret (PtrType ptrCommonHdr (BufferType c BufferBlobRand),
                  FallThrough true)
         | CString =>
             failIf (negb (length a =? 0)%nat && negb (length a =? 1)%nat
                     && negb (length a =? 2)%nat)
                    (WrongNumberOfArguments typ name (length a)) ;;;
             sv <- stringValues name a ;;
             c <- common name dir opt ;;
             ret (BufferType c (BufferString sv.1 sv.2), FallThrough false)
         | CSalgType =>
             wantArgs typ name 0 a ;;;
             c <- common name dir opt ;;
             ret (BufferType c BufferAlgType, FallThrough false)
         | CSalgName =>
             wantArgs typ name 0 a ;;;
             c <- common name dir opt ;;
             ret (BufferType c BufferAlgName, FallThrough false)
         | CVma =>
             be <- match a with
                   | [] => ret ("0", "0")
                   | [a0] => parseRange a0 consts
                   | _ => failf (WrongNumberOfArguments typ name (length a))
                   end ;;
             c <- common name dir opt ;;
             ret (VmaType c be.1 be.2, FallThrough true)
         | CLen =>
             sb <- sizeOf typ name isField 2 1 1 a ;;
             byteSize <- (if negb (String.eqb typ "len")
                          then decodeByteSizeType typ else ret 0%N) ;;
             c <- common name dir opt ;;
             a0 <- index a 0 ;;
             ret (LenType c a0 sb.1 sb.2 byteSize, FallThrough true)
         | CFlags =>
             sb <- sizeOf typ name isField 2 1 1 a ;;
             a0 <- index a 0 ;;
             d <- gets description ;;
             vals <- match Flags d !! a0 with
                     | Some vals => ret vals
                     | None => failf (UnknownFlag a0)
                     end ;;
             c <- common name dir opt ;;
             ret (if (length vals =? 0)%nat
                  then IntType c sb.1 sb.2 IntPlain
                  else FlagsType c sb.1 sb.2 vals, FallThrough true)
         | CConst =>
             sb <- sizeOf typ name isField 2 1 1 a ;;
             a0 <- index a 0 ;;
             val <- match consts !! a0 with
                    | Some v => ret (Sprint v)
                    | None =>
                        if isIdentifier a0 then
                          (* no value for this identifier on this arch *)
                          skipSyscall ("missing const " +:+ a0) ;;;
                          ret "0"
                        else ret a0
                    end ;;
             c <- common name dir opt ;;
             ret (ConstType c sb.1 sb.2 val, FallThrough true)
         | CProc =>
             pv <- procValues typ name isField a ;;
             c <- common name dir opt ;;
             ret (ProcType c pv.1.1.1 pv.1.1.2 pv.1.2 pv.2, FallThrough true)
         | CInt =>
             sb <- decodeIntType typ ;;
             match a with
             | [] =>
                 c <- common name dir opt ;;
                 ret (IntType c sb.1 sb.2 IntPlain, FallThrough true)
             | [a0] =>
                 be <- parseRange a0 consts ;;
                 c <- common name dir opt ;;
                 ret (IntType c sb.1 sb.2 (IntRange be.1 be.2), FallThrough true)
             | _ => failf (WrongNumberOfArguments typ name (length a))
             end
         | CSignalno =>
             wantArgs typ name 0 a ;;;
             c <- common name dir opt ;;
             ret (IntType c 4 false IntSignalno, FallThrough true)
         | CFilename =>
             wantArgs typ name 0 a ;;;
             ptrCommonHdr <- common name dir opt ;;
             c <- common name "in" false ;;
             ret (PtrType ptrCommonHdr (BufferType c BufferFilename),
                  FallThrough true)
         | CArray =>
             failIf (negb (length a =? 1)%nat && negb (length a =? 2)%nat)
                    (WrongNumberOfArguments typ name (length a)) ;;;
             a0 <- index a 0 ;;
             if (length a =? 1)%nat then
               if String.eqb a0 "int8" then
                 c <- common name dir opt ;;
                 ret (BufferType c BufferBlobRand, FallThrough false)
               else
                 c <- common name dir opt ;;
                 t <- generateType a0 dir ;;
                 ret (ArrayType c t ArrayRandLen, FallThrough false)
             else
               a1 <- index a 1 ;;
               be <- parseRange a1 consts ;;
               if String.eqb a0 "int8" then
                 c <- common name dir opt ;;
                 ret (BufferType c (BufferBlobRange be.1 be.2), FallThrough false)
               else
                 c <- common name dir opt ;;
                 t <- generateType a0 dir ;;
                 ret (ArrayType c t (ArrayRangeLen be.1 be.2), FallThrough false)
         | CPtr =>
             wantArgs typ name 2 a ;;;
             c <- common name "in" opt ;;
             a1 <- index a 1 ;;
             a0 <- index a 0 ;;
             t <- generateType a1 a0 ;;
             ret (PtrType c t, FallThrough true)
         | CDefault =>
             d <- gets description ;;
             if HasPrefix typ "unnamed" then
               match Unnamed d !! typ with
               | Some inner =>
                   i0 <- index inner 0 ;;
                   t <- generateArg fuel' EmptyString EmptyString i0 dir (drop 1 inner)
                          (UnnamedSlot typ) false isField ;;
                   ret (t, FallThrough false)
               | None => failf (UnknownUnnamedType typ)
               end
             else if decide (is_Some (Structs d !! typ)) then
               failIf (negb (length a =? 0)%nat) (StructHasArgs typ) ;;;
               ret (StructRef (mkKey typ origName dir), FallThrough false)
             else if decide (is_Some (Resources d !! typ)) then
               failIf (negb (length a =? 0)%nat) (ResourceHasArgs typ) ;;;
               c <- common name dir opt ;;
               ret (ResourceType c typ, Return)
             else failf (UnknownArgType typ name)
         end ;;
    match r.2 with
    | Return => ret r.1
    | FallThrough canBeArg =>
        failIf (isArg && negb canBeArg) (CantBeSyscallArgument name typ) ;;;
        ret r.1
    end
  end.

(** [generateType] *)
Definition generateType (fuel : nat) (typ dir : string) : M Typ :=
  generateArg fuel EmptyString EmptyString typ dir [] NoSlot false true.

End GenerateArg.

(** ** [generateResources] *)

Definition primitiveKinds : list string :=
  ["int8"; "int16"; "int32"; "int64"; "intptr"].

(** The printed [ResourceDesc] literal. *)
Record ResourceDesc := mkResourceDesc {
  Desc_Name : string;
  Desc_Type : Typ;
  Desc_Kind : list string;
  Desc_Values : list string
}.

Section Generate.
Variable consts : gmap string N.

(** The inner loop over [res.Values] ([values1]). *)
Fixpoint resolveValues (vs : list string) : list string :=
  match vs with
  | [] => []
  | v :: vs' =>
      match consts !! v with
      | Some v1 => Sprint v1 :: resolveValues vs'
      | None =>
          if negb (isIdentifier v) then v :: resolveValues vs'
          else resolveValues vs'
      end
  end.

(** The loop labelled [loop]: one unit of fuel per iteration.  Returns
    [underlying], [kind] and [values]. *)
Fixpoint resourceLoop (fuel : nat) (name : string) (res : Resource)
    (kind values : list string) : M (string * list string * list string) :=
  match fuel with
  | O => outOfFuel
  | S fuel' =>
      let values := resolveValues (Values res) ++ values in
      if string_in (Base res) primitiveKinds then
        ret (Base res, kind, values)
      else
        d <- gets description ;;
        match Resources d !! Base res with
        | None => failf (UnknownParentResource name (Base res))
        | Some res' => resourceLoop fuel' name res' (Base res :: kind) values
        end
  end.

(** The body of the loop over [resArray]. *)
Definition generateResource (fuel : nat) (res : Resource) : M ResourceDesc :=
  let name := Resource_Name res in
  r <- resourceLoop fuel name res [name] [] ;;
  let underlying := r.1.1 in
  let kind := r.1.2 in
  let values := r.2 in
  t <- generateArg consts fuel EmptyString "resource-type" underlying "inout"
         [] NoSlot true true ;;
  let values := if (length values =? 0)%nat then values ++ ["0"] else values in
  ret (mkResourceDesc name t kind values).

(** [generateResources]; [resArray] is the array of the values of
    [desc.Resources] after [sort.Sort], which orders it by name. *)
Definition generateResources (fuel : nat) (resArray : list Resource)
  : M (list ResourceDesc) :=
  mapM (generateResource fuel) resArray.

(** ** [generateStructs] *)

Definition directions : list string := ["in"; "out"; "inout"].

(** [for _, dir := range ... { structMap[structKey{n, f, dir}] = str }].
    Go stores a copy of the [Struct]; its field token arrays stay shared
    with the description, so the model stores the key [id] under which the
    description holds the definition and reads it through the state. *)
Definition registerDirs (n f id : string) (m : gmap structKey string)
  : gmap structKey string :=
  foldl (fun m dir => <[mkKey n f dir := id]> m) m directions.

Fixpoint registerFields (d : Description) (flds : list (list string))
    (m : gmap structKey string) : outcome (gmap structKey string) :=
  match flds with
  | [] => Ok m
  | a :: flds' =>
      match a !! 1 with
      | None => Panic                                        (* [a[1]] *)
      | Some a1 =>
          if decide (is_Some (Structs d !! a1)) then
            match a !! 0 with
            | None => Panic
            | Some a0 => registerFields d flds' (registerDirs a1 a0 a1 m)
            end
          else registerFields d flds' m
      end
  end.

(** The first loop of [generateStructs], over [desc.Structs] in the order
    [order] in which Go happens to visit the map. *)
Fixpoint buildStructMap (d : Description) (order : list (string * Struct))
    (m : gmap structKey string) : outcome (gmap structKey string) :=
  match order with
  | [] => Ok m
  | (id, str) :: order' =>
      match registerFields d (Flds str)
              (registerDirs (Struct_Name str) EmptyString id m) with
      | Ok m' => buildStructMap d order' m'
      | o => o
      end
  end.

(** The printed struct or union literal of [generateStructEntry]. *)
Record StructEntry := mkStructEntry {
  Entry_IsUnion : bool;
  Entry_Common : TypeCommon;
  Entry_packed : bool;
  Entry_align : N;
  Entry_varlen : bool
}.

(** The zero value that a Go map lookup yields for an absent key. *)
Definition zeroStruct : Struct := mkStruct EmptyString [] false false false 0.

Definition structOf (d : Description) (id : string) : Struct :=
  default zeroStruct (Structs d !! id).

(** [generateStructEntry] *)
Definition generateStructEntry (key : structKey) (id : string)
  : M (structKey * StructEntry) :=
  d <- gets description ;;
  let str := structOf d id in
  let name := if String.eqb (field key) EmptyString then name key else field key in
  dr <- fmtDir (dir key) ;;
  ret (key, mkStructEntry (IsUnion str) (mkCommon name dr false)
              (Packed str) (Align str) (Varlen str)).

(** [generateStructFields].  The definition is read from the description
    when the run for [key] starts, so that it shows what earlier runs have
    shifted; within the run the tokens of a field are touched only by the
    compilation of that field. *)
Definition generateStructField (fuel : nat) (key : structKey) (id : string)
    (parent : string) (ja : nat * list string) : M Typ :=
  let a := ja.2 in
  a0 <- index a 0 ;;
  a1 <- index a 1 ;;
  generateArg consts fuel parent a0 a1 (dir key) (drop 2 a)
    (FldSlot id ja.1) false true.

Definition generateStructFields (fuel : nat) (key : structKey) (id : string)
  : M (structKey * list Typ) :=
  d <- gets description ;;
  let str := structOf d id in
  fields <- mapM (generateStructField fuel key id (Struct_Name str))
              (imap pair (Flds str)) ;;
  ret (key, fields).

(** The iteration orders that Go leaves open: the sorted resource array
    and the visiting orders of the three [range] loops over maps. *)
Record schedule := mkSchedule {
  resArray : list Resource;
  structOrder : list (string * Struct);
  entryOrder : list (structKey * string);
  fieldOrder : list (structKey * string)
}.

Definition generateStructs (fuel : nat) (sched : schedule)
  : M (list (structKey * StructEntry) * list (structKey * list Typ)) :=
  d <- gets description ;;
  structMap <- liftO (buildStructMap d (structOrder sched) ∅) ;;
  entries <- mapM (fun ks => generateStructEntry ks.1 ks.2) (entryOrder sched) ;;
  fields <- mapM (fun ks => generateStructFields fuel ks.1 ks.2)
              (fieldOrder sched) ;;
  ret (entries, fields).

(** ** [generate] *)

(** The printed [Call] literal. *)
Record Call := mkCall {
  Call_Name : string;
  Call_CallName : string;
  Call_Ret : option Typ;
  Call_Args : list Typ;
  NR : Z
}.

Definition generateCallArg (fuel : nat) (i : nat) (ja : nat * list string)
  : M Typ :=
  let a := ja.2 in
  a0 <- index a 0 ;;
  a1 <- index a 1 ;;
  generateArg consts fuel EmptyString a0 a1 "in" (drop 2 a)
    (ArgSlot i ja.1) true false.

(** The return type and the arguments of call number [i], in the order in
    which the loop body compiles them. *)
Definition generateCallTypes (fuel : nat) (i : nat) (s : Syscall)
  : M (option Typ * list Typ) :=
  r <- (if negb (length (Ret s) =? 0)%nat then
          r0 <- index (Ret s) 0 ;;
          t <- generateArg consts fuel EmptyString "ret" r0 "out"
                 (drop 1 (Ret s)) (RetSlot i) true false ;;
          ret (Some t)
        else ret None) ;;
  args <- mapM (generateCallArg fuel i) (imap pair (Args s)) ;;
  ret (r, args).

(** The body of the loop over [desc.Syscalls]; [s] is call number [i]. *)
Definition generateCall (fuel : nat) (ics : nat * Syscall) : M Call :=
  let i := ics.1 in
  let s := ics.2 in
  modify (fun st => mkState EmptyString (description st)) ;;;
  let syscallNR := match consts !! ("__NR_" +:+ CallName s) with
                   | Some nr => int_of_uint64 nr
                   | None => (-1)%Z
                   end in
  ra <- generateCallTypes fuel i s ;;
  skip <- gets skipCurrentSyscall ;;
  let syscallNR := if negb (String.eqb skip EmptyString) then (-1)%Z
                   else syscallNR in
  ret (mkCall (Syscall_Name s) (CallName s) ra.1 ra.2 syscallNR).

Record Output := mkOutput {
  Out_Resources : list ResourceDesc;
  Out_StructEntries : list (structKey * StructEntry);
  Out_StructFields : list (structKey * list Typ);
  Out_Calls : list Call;
  Out_Consts : list (string * N)
}.

(** [generate].  The loop over [desc.Syscalls] ranges over the calls as
    they are when it starts: the tokens of a call are touched only by the
    compilation of its own return type and arguments, each of which is
    compiled once. *)
Definition generate (fuel : nat) (sched : schedule) : M Output :=
  resources <- generateResources fuel (resArray sched) ;;
  structs <- generateStructs fuel sched ;;
  d <- gets description ;;
  calls <- mapM (generateCall fuel) (imap pair (Syscalls d)) ;;
  let constArr := merge_sort (fun x y => String.le x.1 y.1) (map_to_list consts) in
  ret (mkOutput resources structs.1 structs.2 calls constArr).

(** A schedule is one that a run of [generate] on [d] can follow. *)
Definition structMap (d : Description) (sched : schedule)
  : outcome (gmap structKey string) :=
  buildStructMap d (structOrder sched) ∅.

Definition valid_schedule (d : Description) (sched : schedule) : Prop :=
  resArray sched ≡ₚ (map_to_list (Resources d)).*2 ∧
  Sorted (fun r1 r2 => String.le (Resource_Name r1) (Resource_Name r2))
         (resArray sched) ∧
  structOrder sched ≡ₚ map_to_list (Structs d) ∧
  exists m, structMap d sched = Ok m ∧
            entryOrder sched ≡ₚ map_to_list m ∧
            fieldOrder sched ≡ₚ map_to_list m.

End Generate.

(** ** [main]: the flag sets of one architecture *)

(** What the loop over [desc.Flags] keeps besides the values: the set
    [unsupported] and the symbols handed to
    [logf(0, "unsupported flag: %v", val)], in the order of the calls. *)
Record flagLog := mkFlagLog {
  unsupported : gset string;
  reported : list string
}.

(** The body of the loop over [vals]; the state is [archVals] and the log. *)
Definition resolveFlagVal (consts : gmap string N) (st : list string * flagLog)
    (val : string) : list string * flagLog :=
  let archVals := st.1 in
  let lg := st.2 in
  if isIdentifier val then
    match consts !! val with
    | Some v => (archVals ++ [Sprint v], lg)
    | None =>
        if decide (val ∈ unsupported lg) then (archVals, lg)
        else (archVals, mkFlagLog ({[val]} ∪ unsupported lg) (reported lg ++ [val]))
    end
  else (archVals ++ [val], lg).

(** The loop over the values of one flag set. *)
Definition resolveFlagVals (consts : gmap string N) (lg : flagLog)
    (vals : list string) : list string * flagLog :=
  foldl (resolveFlagVal consts) ([], lg) vals.

(** The loop over [desc.Flags], in the order [order] in which Go visits the
    map: [archFlags] and the log. *)
Definition resolveFlags (consts : gmap string N)
    (order : list (string * list string)) : gmap string (list string) * flagLog :=
  foldl (fun acc fv =>
           let r := resolveFlagVals consts acc.2 fv.2 in
           (<[fv.1 := r.1]> acc.1, r.2))
        (∅, mkFlagLog ∅ []) order.

(** [archDesc := *desc; archDesc.Flags = archFlags]: a copy that shares
    everything but the flag table with [desc]. *)
Definition withFlags (desc : Description) (flags : gmap string (list string))
  : Description :=
  mkDescription (Syscalls desc) (Structs desc) (Resources desc) flags
    (StrFlags desc) (Unnamed desc).

(** ** [main]: the loop over the architectures *)

(** What [main] is given for one architecture: the constant table that
    [readConsts] returns, and the orders in which the maps are visited. *)
Record archInput := mkArchInput {
  archConsts : gmap string N;
  flagOrder : list (string * list string);
  archSchedule : schedule
}.

(** The body of the loop over [archs], after [readConsts].  The description
    in the state is the object [desc]; [generate] runs on the copy
    [archDesc], which shares the calls, the structs and the unnamed types
    with it, so that afterwards [desc] has what the run has left of them,
    and its own flag table. *)
Definition generateArch (fuel : nat) (arch : archInput) : M (Output * flagLog) :=
  desc <- gets description ;;
  let fl := resolveFlags (archConsts arch) (flagOrder arch) in
  modify (fun st => mkState (skipCurrentSyscall st) (withFlags desc fl.1)) ;;;
  out <- generate (archConsts arch) fuel (archSchedule arch) ;;
  modify (fun st => mkState (skipCurrentSyscall st)
                      (withFlags (description st) (Flags desc))) ;;;
  ret (out, fl.2).

(** The loop over [archs]. *)
Definition generateArchs (fuel : nat) (archs : list archInput)
  : M (list (Output * flagLog)) :=
  mapM (generateArch fuel) archs.

(** ** [readConsts] *)

(** The calls of [failf] in [readConsts], by message. *)
Inductive constsFailure :=
  | NoEquals (fname line : string)
  | BadValue (fname line : string)
  | DifferentValues (name arch : string) (old val : N).

(** [line[:eq]] and [line[eq+1:]] for [eq := strings.IndexByte(line, '=')];
    [None] when [eq == -1]. *)
Fixpoint cutAtEquals (line : string) : option (string * string) :=
  match line with
  | EmptyString => None
  | String c rest =>
      if Ascii.eqb c "=" then Some (EmptyString, rest)
      else match cutAtEquals rest with
           | Some (l, r) => Some (String c l, r)
           | None => None
           end
  end.

(** What [readConsts] takes from the Go library: [strings.TrimSpace], and
    [strconv.ParseUint(s, 0, 64)] with [None] for an error. *)
Class GoStrings := mkGoStrings {
  TrimSpace : string -> string;
  ParseUint0 : string -> option N
}.

Section ReadConsts.
Context {go : GoStrings}.

(** The body of the loop over the lines of the file [fname]. *)
Definition readConstLine (arch fname : string) (consts : gmap string N)
    (line : string) : constsFailure + gmap string N :=
  match line with
  | EmptyString => inr consts
  | String c _ =>
      if Ascii.eqb c "#" then inr consts
      else
        match cutAtEquals line with
        | None => inl (NoEquals fname line)
        | Some (l, r) =>
            let name := TrimSpace l in
            match ParseUint0 (TrimSpace r) with
            | None => inl (BadValue fname line)
            | Some val =>
                match consts !! name with
                | Some old =>
                    if negb (old =? val)%N
                    then inl (DifferentValues name arch old val)
                    else inr (<[name := val]> consts)
                | None => inr (<[name := val]> consts)
                end
            end
        end
  end.

(** The loop over the lines that the scanner delivers. *)
Fixpoint readConstLines (arch fname : string) (consts : gmap string N)
    (lines : list string) : constsFailure + gmap string N :=
  match lines with
  | [] => inr consts
  | line :: lines' =>
      match readConstLine arch fname consts line with
      | inr consts' => readConstLines arch fname consts' lines'
      | inl e => inl e
      end
  end.

(** The loop over [constFiles]: each file with its name and its lines. *)
Fixpoint readConstFiles (arch : string) (consts : gmap string N)
    (files : list (string * list string)) : constsFailure + gmap string N :=
  match files with
  | [] => inr consts
  | (fname, lines) :: files' =>
      match readConstLines arch fname consts lines with
      | inr consts' => readConstFiles arch consts' files'
      | inl e => inl e
      end
  end.

(** The loop over [syzkalls], a table of the program that is declared in a
    file that is not at hand; [order] lists its entries in the order in
    which Go visits the map. *)
Definition addSyzkalls (order : list (string * N)) (consts : gmap string N)
  : gmap string N :=
  foldl (fun m kv => <["__NR_" +:+ kv.1 := kv.2]> m) consts order.

(** [readConsts], from the files that [filepath.Glob] has found on; errors
    of the file system are left out. *)
Definition readConsts (arch : string) (files : list (string * list string))
    (order : list (string * N)) : constsFailure + gmap string N :=
  match readConstFiles arch ∅ files with
  | inr consts => inr (addSyzkalls order consts)
  | inl e => inl e
  end.

End ReadConsts.

(** * Vocabulary of the properties *)

(** ** Runs *)

Definition initState (d : Description) : state := mkState EmptyString d.

(** The state in which the [switch] of [generateArg] runs: the description
    is rewritten at [sl] if the scan has found the [opt] marker. *)
Definition afterScan (sl : slot) (a : list string) (s : state) : state :=
  if optOf a
  then mkState (skipCurrentSyscall s) (store sl (scanOpt a).2 (description s))
  else s.

(** [keeps P m]: a successful run of [m] from a state in [P] ends in [P]. *)
Definition keeps {A} (P : state -> Prop) (m : M A) : Prop :=
  forall s a s', P s -> m s = Ok (a, s') -> P s'.

(** The flag is empty: the property that [skipSyscall] cannot leave. *)
Definition skipEmpty (s : state) : Prop := skipCurrentSyscall s = EmptyString.

(** The slots that lie in [desc.Syscalls]. *)
Definition syscallSlot (sl : slot) : bool :=
  match sl with
  | RetSlot _ | ArgSlot _ _ => true
  | _ => false
  end.

(** ** Pointers to buffers *)

(** The shape as the specification words it: the pointer forced to
    direction in and not optional, the buffer keeping the requested
    direction and optionality. *)
Definition spec_pointer_forced_in (requested : Dir) (opt : bool) (t : Typ)
  : Prop :=
  exists c1 c2 k,
    t = PtrType c1 (BufferType c2 k) /\
    ArgDir c1 = DirIn /\ IsOptional c1 = false /\
    ArgDir c2 = requested /\ IsOptional c2 = opt.

(** ** The resource hierarchy *)

Definition isPrimitive (b : string) : bool := string_in b primitiveKinds.

(** One step up the hierarchy: [res'] is the resource that [res.Base]
    names. *)
Definition hop (d : Description) (res res' : Resource) : Prop :=
  isPrimitive (Base res) = false /\ Resources d !! Base res = Some res'.

(** How a walk up the hierarchy ends. *)
Inductive chainEnd :=
  | EndPrimitive (underlying : string)
  | EndUnknown (parent : string).

(** [walks d res l e]: following [Base] from [res] leads through the
    resources of [l] (each with the name it was found under, nearest parent
    first) and ends in [e].  The length of [l] is the number of hops from
    resource to resource. *)
Inductive walks (d : Description) : Resource -> list (string * Resource) -> chainEnd -> Prop :=
  | walks_primitive res :
      isPrimitive (Base res) = true ->
      walks d res [] (EndPrimitive (Base res))
  | walks_unknown res :
      isPrimitive (Base res) = false ->
      Resources d !! Base res = None ->
      walks d res [] (EndUnknown (Base res))
  | walks_hop res res' l e :
      hop d res res' ->
      walks d res' l e ->
      walks d res ((Base res, res') :: l) e.

(** The values that a resource contributes itself. *)
Definition ownValues (consts : gmap string N) (res : Resource) : list string :=
  resolveValues consts (Values res).

(** The kind chain and the values along a walk: furthest ancestor first. *)
Definition chainKind (res : Resource) (l : list (string * Resource)) : list string :=
  reverse l.*1 ++ [Resource_Name res].

Definition chainValues (consts : gmap string N) (res : Resource)
    (l : list (string * Resource)) : list string :=
  concat (map (ownValues consts) (reverse l.*2)) ++ ownValues consts res.

(** The size in bytes of a primitive kind. *)
Definition primitiveSize (u : string) : N :=
  if String.eqb u "int8" then 1
  else if String.eqb u "int16" then 2
  else if String.eqb u "int32" then 4
  else 8.

(** ** Struct instances *)

(** Every definition sits in [desc.Structs] under its own name. *)
Definition wellNamed (d : Description) : Prop :=
  forall id str, Structs d !! id = Some str -> Struct_Name str = id.

(** A token without a space, as the parser delivers them. *)
Fixpoint spaceFree (s : string) : bool :=
  match s with
  | EmptyString => true
  | String c s' => negb (Ascii.eqb c " ") && spaceFree s'
  end.

(** The struct [S] is the type of a field named [f] of some definition. *)
Definition usedAsField (d : Description) (S f : string) : Prop :=
  exists T strT a,
    Structs d !! T = Some strT /\ a ∈ Flds strT /\
    a !! 0 = Some f /\ a !! 1 = Some S /\ is_Some (Structs d !! S).

(** ** Tokens *)

(** Every character but the colon. *)
Fixpoint colonFree (s : string) : bool :=
  match s with
  | EmptyString => true
  | String c s' => negb (Ascii.eqb c ":") && colonFree s'
  end.

(** The number of colons. *)
Fixpoint colons (s : string) : nat :=
  match s with
  | EmptyString => 0
  | String c s' => (if Ascii.eqb c ":" then 1 else 0) + colons s'
  end.

(** The number that a sequence of decimal digits denotes, after the digits
    in [acc]. *)
Fixpoint uintValue (d : Decimal.uint) (acc : N) : N :=
  match d with
  | Decimal.Nil => acc
  | Decimal.D0 l => uintValue l (10 * acc + 0)
  | Decimal.D1 l => uintValue l (10 * acc + 1)
  | Decimal.D2 l => uintValue l (10 * acc + 2)
  | Decimal.D3 l => uintValue l (10 * acc + 3)
  | Decimal.D4 l => uintValue l (10 * acc + 4)
  | Decimal.D5 l => uintValue l (10 * acc + 5)
  | Decimal.D6 l => uintValue l (10 * acc + 6)
  | Decimal.D7 l => uintValue l (10 * acc + 7)
  | Decimal.D8 l => uintValue l (10 * acc + 8)
  | Decimal.D9 l => uintValue l (10 * acc + 9)
  end%N.

(** ** The marker [opt] and the slots *)

(** The marker [opt], where it occurs, is the last parameter. *)
Definition optLast (a : list string) : Prop :=
  forall i, a !! i = Some "opt" -> S i = length a.

(** The parameters that the description holds at a slot. *)
Definition slotTokens (d : Description) (sl : slot) : option (list string) :=
  match sl with
  | NoSlot => None
  | RetSlot i => s ← Syscalls d !! i; Some (drop 1 (Ret s))
  | ArgSlot i j => s ← Syscalls d !! i; a ← Args s !! j; Some (drop 2 a)
  | FldSlot n j => s ← Structs d !! n; a ← Flds s !! j; Some (drop 2 a)
  | UnnamedSlot u => a ← Unnamed d !! u; Some (drop 1 a)
  end.

(** The slice [a] is the one that the description holds at [sl]. *)
Definition slotHolds (d : Description) (sl : slot) (a : list string) : Prop :=
  sl = NoSlot \/ slotTokens d sl = Some a.

(** Every parameter list of the unnamed types has the marker last. *)
Definition unnamedOptLast (d : Description) : Prop :=
  forall u inner, Unnamed d !! u = Some inner -> optLast (drop 1 inner).

(** In every parameter list of the description the marker is last. *)
Definition descOptLast (d : Description) : Prop :=
  (forall s, s ∈ Syscalls d ->
     optLast (drop 1 (Ret s)) /\ forall a, a ∈ Args s -> optLast (drop 2 a)) /\
  (forall n str a, Structs d !! n = Some str -> a ∈ Flds str -> optLast (drop 2 a)) /\
  unnamedOptLast d.

(** Two descriptions have the same structs, with the same names and types
    of the fields; the parameters of the fields may differ. *)
Definition sameHeads (d d' : Description) : Prop :=
  forall id,
    option_Forall2
      (fun str str' => Forall2 (fun a a' => take 2 a = take 2 a' /\
                                            length a = length a')
                         (Flds str) (Flds str'))
      (Structs d !! id) (Structs d' !! id).

(** A slot in a struct is the tail of a field with its two leading tokens. *)
Definition slotFits (d : Description) (sl : slot) (a : list string) : Prop :=
  match sl with
  | FldSlot id j =>
      forall str fld, Structs d !! id = Some str -> Flds str !! j = Some fld ->
                      2 + length a = length fld
  | _ => True
  end.

(** ** Flag sets *)

(** What becomes of one token of a flag set: a symbol is replaced by its
    value or dropped, anything else is kept. *)
Definition flagToken (consts : gmap string N) (val : string) : option string :=
  if isIdentifier val then Sprint <$> consts !! val else Some val.

(** A symbol that some flag set uses and the table does not define. *)
Definition unsupportedFlag (consts : gmap string N)
    (order : list (string * list string)) (v : string) : Prop :=
  exists f vals, (f, vals) ∈ order /\ v ∈ vals /\
                 isIdentifier v = true /\ consts !! v = None.

(** The set [unsupported] holds just the symbols reported so far, and none
    is reported twice. *)
Definition logInv (lg : flagLog) : Prop :=
  NoDup (reported lg) /\ forall v, v ∈ unsupported lg <-> v ∈ reported lg.

(** ** Files of constants *)

Section ConstFiles.
Context {go : GoStrings}.

(** An empty line or a comment. *)
Definition skipped (line : string) : bool :=
  match line with
  | EmptyString => true
  | String c _ => Ascii.eqb c "#"
  end.

(** The line gives the name [n] the value [v]. *)
Definition defines (line n : string) (v : N) : Prop :=
  skipped line = false /\
  exists l r, cutAtEquals line = Some (l, r) /\
              TrimSpace l = n /\ ParseUint0 (TrimSpace r) = Some v.

(** Some line of some file gives [n] the value [v]. *)
Definition defined (files : list (string * list string)) (n : string) (v : N)
  : Prop :=
  exists fname lines line,
    (fname, lines) ∈ files /\ line ∈ lines /\ defines line n v.

(** Every line is empty, a comment or a definition. *)
Definition wellFormed (files : list (string * list string)) : Prop :=
  forall fname lines line,
    (fname, lines) ∈ files -> line ∈ lines ->
    skipped line = true \/ exists n v, defines line n v.

(** No name is given two values. *)
Definition consistent (files : list (string * list string)) : Prop :=
  forall n v v', defined files n v -> defined files n v' -> v = v'.

End ConstFiles.

(** The invariant of the loops: the table holds what the lines read so far
    define, and nothing else. *)
Definition tableOf (P : string -> N -> Prop) (consts : gmap string N) : Prop :=
  forall n v, consts !! n = Some v <-> P n v.

(** ** Compiled nodes *)

(** The numbers of parameters that the constructs take, the marker [opt]
    not counted; a type that reaches the [default] case is not in the
    table. *)
Definition arityOk (c : construct) (isField : bool) (n : nat) : bool :=
  match c with
  | CFileoff => n =? (if isField then 1 else 0)
  | CBuffer => n =? 1
  | CString => n <=? 2
  | CSalgType | CSalgName | CSignalno | CFilename => n =? 0
  | CVma | CInt => n <=? 1
  | CLen | CFlags | CConst => n =? (if isField then 2 else 1)
  | CProc => n =? (if isField then 3 else 2)
  | CArray => (n =? 1) || (n =? 2)
  | CPtr => n =? 2
  | CDefault => true
  end%nat.

(** The [TypeCommon] header of a node; a struct reference has none of its
    own. *)
Definition headerOf (t : Typ) : option TypeCommon :=
  match t with
  | IntType c _ _ _ | BufferType c _ | PtrType c _ | ArrayType c _ _
  | LenType c _ _ _ _ | FlagsType c _ _ _ | ConstType c _ _ _
  | ProcType c _ _ _ _ | VmaType c _ _ | ResourceType c _ => Some c
  | StructRef _ => None
  end.

(** Size and endianness of an integer-like node. *)
Definition layoutOf (t : Typ) : option (N * bool) :=
  match t with
  | IntType _ sz be _ | LenType _ _ sz be _ | FlagsType _ sz be _
  | ConstType _ sz be _ | ProcType _ sz be _ _ => Some (sz, be)
  | _ => None
  end.

(** The keys of the struct references in a node. *)
Fixpoint structRefs (t : Typ) : list structKey :=
  match t with
  | PtrType _ t' | ArrayType _ t' _ => structRefs t'
  | StructRef k => [k]
  | _ => []
  end.

(** The struct references of the output: in the types of the resources, in
    the field lists of the structs and in the types of the calls. *)
Definition refIn (k : structKey) (out : Output) : Prop :=
  (exists rd, rd ∈ Out_Resources out /\ k ∈ structRefs (Desc_Type rd)) \/
  (exists kf t, kf ∈ Out_StructFields out /\ t ∈ kf.2 /\ k ∈ structRefs t) \/
  (exists c t, c ∈ Out_Calls out /\
               (Call_Ret c = Some t \/ t ∈ Call_Args c) /\ k ∈ structRefs t).

(** The order of [NameValueArray]: by name, strictly. *)
Definition nameBefore (x y : string * N) : Prop :=
  String.le x.1 y.1 /\ x.1 <> y.1.

(** ** The keys of the struct map *)

(** How a key has come into the struct map: with the empty field name for a
    definition, or for a field whose type is a struct. *)
Definition registered (d : Description) (order : list (string * Struct))
    (k : structKey) (id : string) : Prop :=
  dir k ∈ directions /\
  ((exists str, (id, str) ∈ order /\ name k = Struct_Name str /\
                field k = EmptyString) \/
   (exists id' str a, (id', str) ∈ order /\ a ∈ Flds str /\
                      a !! 0 = Some (field k) /\ a !! 1 = Some (name k) /\
                      is_Some (Structs d !! name k) /\ id = name k)).

(** Every field has a name and a type. *)
Definition fieldsComplete (order : list (string * Struct)) : Prop :=
  forall id str a, (id, str) ∈ order -> a ∈ Flds str -> 2 <= length a.

(** * Inputs for the examples *)

Definition emptyDescription : Description :=
  mkDescription [] ∅ ∅ ∅ ∅ ∅.

(** A description with one struct, and one unnamed type holding
    [array[int8]] as the parser creates it for [ptr[in, array[int8]]]. *)
Definition arrayDescription : Description :=
  mkDescription []
    (<["S" := mkStruct "S" [["f"; "int32"]] false false false 0]> ∅)
    ∅ ∅ ∅
    (<["unnamed0" := ["array"; "int8"]]> ∅).

(** A set of string flags with the values [a] and [bcd]. *)
Definition stringDescription : Description :=
  mkDescription [] ∅ ∅ ∅ (<["names" := ["a"; "bcd"]]> ∅) ∅.

(** A call with a [const] argument whose identifier has no constant, on an
    architecture where the call has the number 16. *)
Definition ioctlCall : Syscall :=
  mkSyscall "ioctl$FOO" "ioctl" [["cmd"; "const"; "FOO"]] [].

Definition ioctlDescription : Description :=
  mkDescription [ioctlCall] ∅ ∅ ∅ ∅ ∅.

Definition ioctlConsts : gmap string N := <["__NR_ioctl" := 16%N]> ∅.

Definition ioctlCompiled : Call :=
  mkCall "ioctl$FOO" "ioctl" None
    [ConstType (mkCommon "cmd" DirIn false) 8 false "0"] 16.

(** The call [read$variant] on an architecture whose table has no number
    for [read]. *)
Definition readCall : Syscall :=
  mkSyscall "read$variant" "read"
    [["fd"; "fd"]; ["buf"; "buffer"; "out"]; ["count"; "len"; "buf"]]
    ["intptr"].

Definition readDescription : Description :=
  mkDescription [readCall] ∅ (<["fd" := mkResource "fd" "int32" []]> ∅) ∅ ∅ ∅.

Definition readCompiled : Call :=
  mkCall "read$variant" "read"
    (Some (IntType (mkCommon "ret" DirOut false) 8 false IntPlain))
    [ResourceType (mkCommon "fd" DirIn false) "fd";
     PtrType (mkCommon "buf" DirIn false)
       (BufferType (mkCommon "buf" DirOut false) BufferBlobRand);
     LenType (mkCommon "count" DirIn false) "buf" 8 false 0]
    (-1).

(** The resource [fd] and, below it, [sock]; [AF_INET] has a constant,
    [AF_NONE] has none. *)
Definition fdResource : Resource := mkResource "fd" "int32" [].

Definition sockResource : Resource :=
  mkResource "sock" "fd" ["AF_INET"; "AF_NONE"; "7"].

Definition sockDescription : Description :=
  mkDescription [] ∅ (<["fd" := fdResource]> (<["sock" := sockResource]> ∅))
    ∅ ∅ ∅.

Definition sockConsts : gmap string N := <["AF_INET" := 2%N]> ∅.

(** A resource that is its own parent. *)
Definition selfResource : Resource := mkResource "A" "A" [].

Definition selfDescription : Description :=
  mkDescription [] ∅ (<["A" := selfResource]> ∅) ∅ ∅ ∅.

(** Two resources that are each other's parent. *)
Definition pingResource : Resource := mkResource "A" "B" [].

Definition pongResource : Resource := mkResource "B" "A" [].

Definition pingPongDescription : Description :=
  mkDescription [] ∅ (<["A" := pingResource]> (<["B" := pongResource]> ∅)) ∅ ∅ ∅.

(** A resource whose parent is not declared. *)
Definition orphanResource : Resource := mkResource "sock" "nosuch" [].

(** A struct with two fields of the same struct type, the struct map that
    pass 1 builds for it, a schedule that visits the maps in the order of
    their listing, and the two tables that [generateStructs] prints. *)
Definition pointStruct : Struct :=
  mkStruct "point" [["x"; "int32"]] false false false 0.

Definition pairStruct : Struct :=
  mkStruct "pair" [["first"; "point"]; ["second"; "point"]] false false false 0.

Definition pairDescription : Description :=
  mkDescription [] (<["pair" := pairStruct]> (<["point" := pointStruct]> ∅))
    ∅ ∅ ∅ ∅.

Definition pairStructMap : gmap structKey string :=
  match buildStructMap pairDescription (map_to_list (Structs pairDescription)) ∅ with
  | Ok m => m
  | _ => ∅
  end.

Definition pairSchedule : schedule :=
  mkSchedule [] (map_to_list (Structs pairDescription))
    (map_to_list pairStructMap) (map_to_list pairStructMap).

Definition pairTables
  : list (structKey * StructEntry) * list (structKey * list Typ) :=
  match generateStructs ∅ 2 pairSchedule (initState pairDescription) with
  | Ok (t, _) => t
  | _ => ([], [])
  end.

(** A struct whose field carries [opt] ahead of another parameter. *)
Definition optFirstStruct : Struct :=
  mkStruct "T" [["x"; "int32"; "opt"; "1:2"]] false false false 0.

Definition optFirstDescription : Description :=
  mkDescription [] (<["T" := optFirstStruct]> ∅) ∅ ∅ ∅ ∅.

Definition optFirstSchedule : schedule :=
  let m := match buildStructMap optFirstDescription
                   (map_to_list (Structs optFirstDescription)) ∅ with
           | Ok m => m
           | _ => ∅
           end in
  mkSchedule [] (map_to_list (Structs optFirstDescription))
    (map_to_list m) (map_to_list m).

(** Lines without blanks around the names and the values, and values in
    decimal digits. *)
Definition decimalLines : GoStrings := mkGoStrings (fun s => s) ParseUint.

(** A schedule for a description without resources and structs. *)
Definition emptySchedule : schedule := mkSchedule [] [] [] [].

(** A call and a struct whose parameters end in the marker [opt]. *)
Definition optLastStruct : Struct :=
  mkStruct "T" [["x"; "int32"; "opt"]] false false false 0.

Definition optLastCall : Syscall :=
  mkSyscall "f" "f" [["p"; "ptr"; "in"; "T"; "opt"]] [].

Definition optLastDescription : Description :=
  mkDescription [optLastCall] (<["T" := optLastStruct]> ∅) ∅ ∅ ∅ ∅.

Definition optLastSchedule : schedule :=
  let m := match buildStructMap optLastDescription
                   (map_to_list (Structs optLastDescription)) ∅ with
           | Ok m => m
           | _ => ∅
           end in
  mkSchedule [] (map_to_list (Structs optLastDescription))
    (map_to_list m) (map_to_list m).

(** A call whose argument has the marker ahead of another parameter. *)
Definition optFirstCall : Syscall :=
  mkSyscall "g" "g" [["n"; "int32"; "opt"; "1:2"]] [].

Definition optFirstCallDescription : Description :=
  mkDescription [optFirstCall] ∅ ∅ ∅ ∅ ∅.

(** A flag set with a symbol that has a constant, one that has none, and a
    number. *)
Definition familyFlags : gmap string (list string) :=
  <["family" := ["AF_INET"; "AF_NONE"; "7"]]> ∅.

Definition familyDescription : Description :=
  mkDescription [] ∅ ∅ familyFlags ∅ ∅.

(** Two files of constants that agree on the name they both define, and
    the table of the calls that have no number of their own. *)
Definition constFiles : list (string * list string) :=
  [("sys/a_amd64.const", ["# generated"; "AF_INET=2"; EmptyString; "__NR_syz_test=5"]);
   ("sys/b_amd64.const", ["AF_INET=2"; "AF_UNIX=1"])].

Definition testSyzkalls : gmap string N := <["syz_test" := 1000001%N]> ∅.

(** The output for the struct [pair] and its fields. *)
Definition pairOutput : Output :=
  match generate ∅ 2 pairSchedule (initState pairDescription) with
  | Ok (out, _) => out
  | _ => mkOutput [] [] [] [] []
  end.

(** * Properties *)

(** ** Reasoning about computations in [M] *)

Lemma bind_Ok_inv {A B} (m : M A) (k : A -> M B) s r :
  bind m k s = Ok r -> exists a s', m s = Ok (a, s') /\ k a s' = Ok r.
Proof.
  unfold bind. destruct (m s) as [[a s']| | |]; try discriminate. eauto.
Qed.

Lemma bind_Ok {A B} (m : M A) (k : A -> M B) s a s' :
  m s = Ok (a, s') -> bind m k s = k a s'.
Proof. unfold bind. intros ->. reflexivity. Qed.

Lemma ret_Ok_inv {A} (a : A) s x s' : ret a s = Ok (x, s') -> x = a /\ s' = s.
Proof. unfold ret. intros [= -> ->]. auto. Qed.

Lemma gets_Ok_inv {A} (f : state -> A) s x s' :
  gets f s = Ok (x, s') -> x = f s /\ s' = s.
Proof. unfold gets. intros [= <- <-]. auto. Qed.

Lemma modify_Ok_inv f s x s' : modify f s = Ok (x, s') -> s' = f s.
Proof. unfold modify. intros [= <-]. auto. Qed.

Lemma failIf_Ok_inv c f s x s' :
  failIf c f s = Ok (x, s') -> c = false /\ s' = s.
Proof. destruct c; cbn; [discriminate|]. intros [= <-]. auto. Qed.

Lemma index_Ok_inv a i s v s' :
  index a i s = Ok (v, s') -> a !! i = Some v /\ s' = s.
Proof.
  unfold index. destruct (a !! i); cbn; [|discriminate].
  intros [= <- <-]. auto.
Qed.

Lemma wantArgs_Ok_inv typ name want a s x s' :
  wantArgs typ name want a s = Ok (x, s') -> length a = want /\ s' = s.
Proof.
  unfold wantArgs. intros H. apply failIf_Ok_inv in H as [H ->].
  split; [|reflexivity].
  apply negb_false_iff, Nat.eqb_eq in H. exact H.
Qed.

Lemma fmtDir_Ok_inv dr s d s' :
  fmtDir dr s = Ok (d, s') -> dirOf dr = Some d /\ s' = s.
Proof.
  unfold fmtDir. destruct (dirOf dr); cbn; [|discriminate].
  intros [= <- <-]. auto.
Qed.

Lemma common_Ok_inv name dr opt s c s' :
  common name dr opt s = Ok (c, s') ->
  (exists d, dirOf dr = Some d /\ c = mkCommon name d opt) /\ s' = s.
Proof.
  unfold common. intros H. apply bind_Ok_inv in H as (d & s1 & H1 & H2).
  apply fmtDir_Ok_inv in H1 as [H1 ->].
  apply ret_Ok_inv in H2 as [-> ->]. eauto.
Qed.

Lemma common_Some name dr opt d s :
  dirOf dr = Some d -> common name dr opt s = Ok (mkCommon name d opt, s).
Proof. unfold common, fmtDir, bind. intros ->. reflexivity. Qed.

(** Inversion of a successful run, down to the facts that made it succeed. *)
Ltac minv :=
  repeat match goal with
    | H : bind _ _ _ = Ok _ |- _ =>
        let a := fresh "v" in
        let s := fresh "st" in
        let H1 := fresh "Hm" in
        apply bind_Ok_inv in H as (a & s & H1 & H)
    | H : ret _ _ = Ok (_, _) |- _ =>
        apply ret_Ok_inv in H as [? ?]; subst
    | H : gets _ _ = Ok (_, _) |- _ =>
        apply gets_Ok_inv in H as [? ?]; subst
    | H : modify _ _ = Ok (_, _) |- _ =>
        apply modify_Ok_inv in H; subst
    | H : failIf _ _ _ = Ok (_, _) |- _ =>
        apply failIf_Ok_inv in H as [H ?]; subst
    | H : wantArgs _ _ _ _ _ = Ok (_, _) |- _ =>
        apply wantArgs_Ok_inv in H as [H ?]; subst
    | H : index _ _ _ = Ok (_, _) |- _ =>
        apply index_Ok_inv in H as [H ?]; subst
    | H : fmtDir _ _ = Ok (_, _) |- _ =>
        apply fmtDir_Ok_inv in H as [H ?]; subst
    | H : common _ _ _ _ = Ok (_, _) |- _ =>
        let d := fresh "d" in
        let Hd := fresh "Hd" in
        apply common_Ok_inv in H as [(d & Hd & ?) ?]; subst
    | H : failf _ _ = Ok _ |- _ => discriminate H
    | H : panic _ = Ok _ |- _ => discriminate H
    | H : outOfFuel _ = Ok _ |- _ => discriminate H
    end.

(** The first step of every call of [generateArg]: the parameters lose the
    [opt] marker, and the description is rewritten only if one was found. *)
Lemma scanOpt_eta a : scanOpt a = (optOf a, paramsOf a, (scanOpt a).2).
Proof. unfold optOf, paramsOf. destruct (scanOpt a) as [[? ?] ?]. reflexivity. Qed.

Lemma removeOpt_None a : removeOpt a = None <-> "opt" ∉ a.
Proof.
  induction a as [|v a IH]; cbn.
  - split; [intros _ H; inversion H | reflexivity].
  - destruct (String.eqb_spec v "opt") as [->|Hne].
    + split; [discriminate|]. intros H. exfalso. apply H. left.
    + destruct (removeOpt a).
      * split; [discriminate|]. intros H. exfalso.
        assert (Hin : "opt" ∈ a).
        { destruct (decide ("opt" ∈ a)) as [|Hn]; [assumption|].
          apply IH in Hn. discriminate. }
        apply H. right. exact Hin.
      * split; [|reflexivity]. intros _ H.
        apply elem_of_cons in H as [H|H]; [congruence|].
        apply (proj1 IH); [reflexivity|exact H].
Qed.

(** [opt] is set exactly when the marker occurs among the parameters, and
    parameters without the marker are left as they are. *)
Lemma optOf_spec a : optOf a = true <-> "opt" ∈ a.
Proof.
  unfold optOf, scanOpt.
  destruct (removeOpt a) eqn:E; cbn.
  - split; [|reflexivity]. intros _.
    destruct (decide ("opt" ∈ a)) as [|Hn]; [assumption|].
    apply removeOpt_None in Hn. congruence.
  - split; [discriminate|]. intros H. apply removeOpt_None in E. contradiction.
Qed.

Lemma paramsOf_no_opt a : "opt" ∉ a -> paramsOf a = a.
Proof.
  intros H. apply removeOpt_None in H. unfold paramsOf, scanOpt.
  rewrite H. reflexivity.
Qed.

(** Unfold one call of [generateArg] in [H] for a type token whose
    construct [c] is known. *)
Ltac unfold_generateArg H a :=
  cbn [generateArg] in H; rewrite (scanOpt_eta a) in H.

(** ** [buffer] and [filename]: which layer gets which header *)

(** C2, as stated, fails: for the struct field [buf buffer[in, opt]] compiled
    in direction out, the pointer is the layer that keeps direction out and
    the optional flag, and the buffer is the one forced to in and to not
    optional. *)
Lemma buffer_headers_counterexample :
  exists t s',
    generateArg ∅ 1 "S" "buf" "buffer" "out" ["in"; "opt"] NoSlot false true
      (initState emptyDescription) = Ok (t, s') /\
    ~ spec_pointer_forced_in DirOut true t.
Proof.
  eexists _, _. split; [reflexivity|].
  intros (c1 & c2 & k & Heq & Hd & _). injection Heq as <- _.
  discriminate Hd.
Qed.

(** C2, amended: whenever a [buffer] or [filename] construct compiles, the
    node is a pointer to a buffer; the outer pointer carries the requested
    direction and optionality, the inner buffer is never optional and its
    direction is the parameter of [buffer], respectively in for [filename]. *)
Theorem buffer_filename_headers consts fuel parent name typ dir a sl isArg isField
    s t s' :
  typ = "buffer" \/ typ = "filename" ->
  generateArg consts fuel parent name typ dir a sl isArg isField s = Ok (t, s') ->
  exists d inner,
    dirOf dir = Some d /\
    t = PtrType (mkCommon name d (optOf a))
          (BufferType (mkCommon name inner false)
             (if String.eqb typ "buffer" then BufferBlobRand else BufferFilename)) /\
    (typ = "buffer" -> exists bd, paramsOf a = [bd] /\ dirOf bd = Some inner) /\
    (typ = "filename" -> paramsOf a = [] /\ inner = DirIn).
Proof.
  intros Htyp H. destruct fuel as [|fuel]; [discriminate|].
  unfold_generateArg H a.
  destruct Htyp as [-> | ->].
  - change (classify "buffer") with CBuffer in H. cbv iota in H.
    minv. cbn in H. minv.
    eexists _, _. split; [eassumption|]. split; [reflexivity|].
    split; [|discriminate]. intros _.
    destruct (paramsOf a) as [|bd [|? ?]]; try discriminate.
    exists bd. split; [reflexivity|].
    match goal with Hi : [bd] !! 0%nat = Some _ |- _ => injection Hi as <- end.
    assumption.
  - change (classify "filename") with CFilename in H. cbv iota in H.
    minv. cbn in H. minv.
    eexists _, _. split; [eassumption|]. split; [reflexivity|].
    split; [discriminate|]. intros _.
    split; [destruct (paramsOf a); [reflexivity|discriminate]|].
    match goal with Hi : dirOf "in" = Some _ |- _ => injection Hi as <- end.
    reflexivity.
Qed.

Lemma buffer_filename_headers_witness :
  exists d inner,
    dirOf "out" = Some d /\
    PtrType (mkCommon "buf" DirOut true)
      (BufferType (mkCommon "buf" DirIn false) BufferBlobRand) =
    PtrType (mkCommon "buf" d (optOf ["in"; "opt"]))
      (BufferType (mkCommon "buf" inner false)
         (if String.eqb "buffer" "buffer" then BufferBlobRand else BufferFilename)) /\
    ("buffer" = "buffer" ->
     exists bd, paramsOf ["in"; "opt"] = [bd] /\ dirOf bd = Some inner) /\
    ("buffer" = "filename" -> paramsOf ["in"; "opt"] = [] /\ inner = DirIn).
Proof.
  apply (buffer_filename_headers ∅ 1 "S" "buf" "buffer" "out" ["in"; "opt"]
           NoSlot false true (initState emptyDescription) _
           (initState emptyDescription)).
  - left; reflexivity.
  - reflexivity.
Defined.

(** ** What [store] leaves alone *)

Lemma store_Resources sl back d : Resources (store sl back d) = Resources d.
Proof. destruct sl; reflexivity. Qed.

Lemma store_StrFlags sl back d : StrFlags (store sl back d) = StrFlags d.
Proof. destruct sl; reflexivity. Qed.

Lemma store_Structs_is_Some sl back d k :
  is_Some (Structs (store sl back d) !! k) <-> is_Some (Structs d !! k).
Proof.
  destruct sl; cbn; try reflexivity.
  rewrite lookup_alter_is_Some. reflexivity.
Qed.

Lemma afterScan_no_opt sl a s : optOf a = false -> afterScan sl a s = s.
Proof. unfold afterScan. intros ->. reflexivity. Qed.

Lemma afterScan_Resources sl a s :
  Resources (description (afterScan sl a s)) = Resources (description s).
Proof.
  unfold afterScan. destruct (optOf a); [apply store_Resources|reflexivity].
Qed.

Lemma afterScan_Structs_is_Some sl a s k :
  is_Some (Structs (description (afterScan sl a s)) !! k) <->
  is_Some (Structs (description s) !! k).
Proof.
  unfold afterScan. destruct (optOf a); [apply store_Structs_is_Some|reflexivity].
Qed.

Lemma scan_step sl a s :
  (if optOf a
   then modify (fun s => mkState (skipCurrentSyscall s)
                           (store sl (scanOpt a).2 (description s)))
   else ret tt) s = Ok (tt, afterScan sl a s).
Proof. unfold afterScan. destruct (optOf a); reflexivity. Qed.

(** ** Resources at top level *)

(** C10: a type token that reaches the resource branch of the [switch] (it
    is no built-in construct, has no [unnamed] prefix and names no struct)
    and names a known resource compiles, with no parameters, to a resource
    reference also as a top-level argument or return value: the branch
    returns before the check of [canBeArg], which it never set. *)
Theorem resource_at_top_level consts fuel parent name typ dir a sl isField s d res :
  classify typ = CDefault ->
  HasPrefix typ "unnamed" = false ->
  Structs (description s) !! typ = None ->
  Resources (description s) !! typ = Some res ->
  paramsOf a = [] ->
  dirOf dir = Some d ->
  generateArg consts (S fuel) parent name typ dir a sl true isField s =
    Ok (ResourceType (mkCommon name d (optOf a)) typ, afterScan sl a s).
Proof.
  intros Hc Hp Hs Hr Ha Hd.
  cbn [generateArg]. rewrite (scanOpt_eta a), Hc, Hp, Ha.
  rewrite (bind_Ok _ _ _ _ _ (scan_step sl a s)).
  unfold bind at 1. unfold bind at 1. cbn [gets].
  destruct (decide (is_Some (Structs (description (afterScan sl a s)) !! typ)))
    as [Hsome|_].
  { apply afterScan_Structs_is_Some in Hsome. rewrite Hs in Hsome.
    destruct Hsome; discriminate. }
  destruct (decide (is_Some (Resources (description (afterScan sl a s)) !! typ)))
    as [_|Hnone].
  2:{ exfalso. apply Hnone. rewrite afterScan_Resources, Hr. eauto. }
  cbn. unfold bind. rewrite (common_Some _ _ _ _ _ Hd). reflexivity.
Qed.

Lemma resource_at_top_level_witness :
  generateArg ∅ 1 EmptyString "ret" "fd" "out" [] (RetSlot 0) true false
    (initState readDescription) =
  Ok (ResourceType (mkCommon "ret" DirOut (optOf [])) "fd",
      afterScan (RetSlot 0) [] (initState readDescription)).
Proof.
  apply (resource_at_top_level ∅ 0 EmptyString "ret" "fd" "out" [] (RetSlot 0)
           false (initState readDescription) DirOut
           (mkResource "fd" "int32" []));
    reflexivity.
Defined.

(** The struct table is asked first: a name that is both a struct and a
    resource is compiled as the struct, and refused at top level. *)
Example struct_shadows_resource :
  generateArg ∅ 1 EmptyString "arg" "S" "in" [] (ArgSlot 0 0) true false
    (initState (mkDescription []
                  (<["S" := mkStruct "S" [] false false false 0]> ∅)
                  (<["S" := mkResource "S" "int32" []]> ∅) ∅ ∅ ∅))
  = Fatal (CantBeSyscallArgument "arg" "S").
Proof. reflexivity. Qed.

(** ** Top-level eligibility *)

(** [isArg] is read only by the final check: a run that succeeds as a nested
    type either succeeds unchanged at top level or stops at the check. *)
Lemma generateArg_isArg consts fuel parent name typ dir a sl isField s t s' :
  generateArg consts fuel parent name typ dir a sl false isField s = Ok (t, s') ->
  generateArg consts fuel parent name typ dir a sl true isField s = Ok (t, s') \/
  generateArg consts fuel parent name typ dir a sl true isField s =
    Fatal (CantBeSyscallArgument name typ).
Proof.
  destruct fuel as [|fuel]; [discriminate|].
  cbn [generateArg]. rewrite (scanOpt_eta a).
  rewrite !(bind_Ok _ _ _ _ _ (scan_step sl a s)).
  intros H. apply bind_Ok_inv in H as (r & s1 & HR & H).
  rewrite (bind_Ok _ _ _ _ _ HR).
  destruct r as [t0 [[|]|]]; cbn in *; injection H as <- <-; auto.
Qed.

(** Case analysis on the conditionals met while inverting a run. *)
Ltac mcases :=
  repeat (minv;
          match goal with
          | H : (if ?b then _ else _) _ = Ok _ |- _ => destruct b eqn:?
          | H : (match ?x with _ => _ end) _ = Ok _ |- _ => destruct x eqn:?
          end);
  minv.

Lemma array_never_top_level consts fuel parent name dir a sl isField s r :
  generateArg consts fuel parent name "array" dir a sl true isField s = Ok r ->
  False.
Proof.
  destruct fuel as [|fuel]; [discriminate|].
  destruct r as [t s']. intros H.
  unfold_generateArg H a.
  change (classify "array") with CArray in H. cbv iota in H.
  rewrite (bind_Ok _ _ _ _ _ (scan_step sl a s)) in H.
  apply bind_Ok_inv in H as (r & s1 & HR & H).
  assert (Hr : r.2 = FallThrough false).
  { clear H. mcases; reflexivity. }
  rewrite Hr in H. cbn in H. discriminate H.
Qed.

Lemma classify_unnamed u : HasPrefix u "unnamed" = true -> classify u = CDefault.
Proof.
  unfold HasPrefix. intros H.
  destruct u as [|c u]; [discriminate|].
  change (String.prefix "unnamed" (String c u))
    with (if Ascii.ascii_dec "u" c then String.prefix "nnamed" u else false) in H.
  destruct (Ascii.ascii_dec "u" c) as [<-|]; [|discriminate].
  reflexivity.
Qed.

Lemma struct_top_level consts fuel parent name typ dir a sl isField s :
  classify typ = CDefault ->
  HasPrefix typ "unnamed" = false ->
  is_Some (Structs (description s) !! typ) ->
  paramsOf a = [] ->
  generateArg consts (S fuel) parent name typ dir a sl true isField s =
    Fatal (CantBeSyscallArgument name typ).
Proof.
  intros Hc Hp Hs Ha.
  cbn [generateArg]. rewrite (scanOpt_eta a), Hc, Hp, Ha.
  rewrite (bind_Ok _ _ _ _ _ (scan_step sl a s)).
  unfold bind at 1. unfold bind at 1. cbn [gets].
  destruct (decide (is_Some (Structs (description (afterScan sl a s)) !! typ)))
    as [_|Hnone]; [reflexivity|].
  exfalso. apply Hnone, afterScan_Structs_is_Some, Hs.
Qed.

(** A struct or union reference as a nested type. *)
Lemma struct_nested consts fuel parent name typ dir a sl isField s :
  classify typ = CDefault ->
  HasPrefix typ "unnamed" = false ->
  is_Some (Structs (description s) !! typ) ->
  paramsOf a = [] ->
  generateArg consts (S fuel) parent name typ dir a sl false isField s =
    Ok (StructRef (mkKey typ name dir), afterScan sl a s).
Proof.
  intros Hc Hp Hs Ha.
  cbn [generateArg]. rewrite (scanOpt_eta a), Hc, Hp, Ha.
  rewrite (bind_Ok _ _ _ _ _ (scan_step sl a s)).
  unfold bind at 1. unfold bind at 1. cbn [gets].
  destruct (decide (is_Some (Structs (description (afterScan sl a s)) !! typ)))
    as [_|Hnone]; [reflexivity|].
  exfalso. apply Hnone, afterScan_Structs_is_Some, Hs.
Qed.

(** [ptr] adds a pointer around whatever its pointee compiles to. *)
Lemma ptr_wraps consts fuel parent name dir a sl isArg isField s pd ty t s' :
  paramsOf a = [pd; ty] ->
  generateType consts fuel ty pd (afterScan sl a s) = Ok (t, s') ->
  generateArg consts (S fuel) parent name "ptr" dir a sl isArg isField s =
    Ok (PtrType (mkCommon name DirIn (optOf a)) t, s').
Proof.
  intros Ha Hin. unfold generateType in Hin.
  cbn [generateArg]. rewrite (scanOpt_eta a), Ha.
  change (classify "ptr") with CPtr. cbv iota.
  rewrite (bind_Ok _ _ _ _ _ (scan_step sl a s)).
  unfold bind, wantArgs. cbn. rewrite Hin. cbn.
  rewrite andb_false_r. reflexivity.
Qed.

(** A type token with the [unnamed] prefix stands for its entry in
    [desc.Unnamed]. *)
Lemma unnamed_expands consts fuel parent name u dir a sl isField s i0 params t s' :
  HasPrefix u "unnamed" = true ->
  Unnamed (description (afterScan sl a s)) !! u = Some (i0 :: params) ->
  generateArg consts fuel EmptyString EmptyString i0 dir params (UnnamedSlot u)
    false isField (afterScan sl a s) = Ok (t, s') ->
  generateArg consts (S fuel) parent name u dir a sl false isField s = Ok (t, s').
Proof.
  intros Hp Hu Hin.
  cbn [generateArg]. rewrite (scanOpt_eta a), (classify_unnamed _ Hp), Hp.
  rewrite (bind_Ok _ _ _ _ _ (scan_step sl a s)).
  unfold bind. cbn. rewrite Hu. cbn. rewrite drop_0, Hin. reflexivity.
Qed.

Lemma ptr_to_struct consts fuel parent name typ dir a sl isArg isField s pd :
  paramsOf a = [pd; typ] ->
  classify typ = CDefault ->
  HasPrefix typ "unnamed" = false ->
  is_Some (Structs (description s) !! typ) ->
  generateArg consts (S (S fuel)) parent name "ptr" dir a sl isArg isField s =
    Ok (PtrType (mkCommon name DirIn (optOf a))
          (StructRef (mkKey typ EmptyString pd)), afterScan sl a s).
Proof.
  intros Ha Hc Hp Hs.
  apply (ptr_wraps _ _ _ _ _ _ _ _ _ _ pd typ); [exact Ha|].
  unfold generateType. rewrite struct_nested; try assumption.
  - reflexivity.
  - apply afterScan_Structs_is_Some, Hs.
  - reflexivity.
Qed.

Lemma ptr_to_unnamed consts fuel parent name dir a sl isArg isField s pd u
    i0 params t s' :
  paramsOf a = [pd; u] ->
  HasPrefix u "unnamed" = true ->
  Unnamed (description (afterScan sl a s)) !! u = Some (i0 :: params) ->
  generateArg consts fuel EmptyString EmptyString i0 pd params (UnnamedSlot u)
    false true (afterScan sl a s) = Ok (t, s') ->
  generateArg consts (S (S fuel)) parent name "ptr" dir a sl isArg isField s =
    Ok (PtrType (mkCommon name DirIn (optOf a)) t, s').
Proof.
  intros Ha Hp Hu Hin.
  apply (ptr_wraps _ _ _ _ _ _ _ _ _ _ pd u); [exact Ha|].
  unfold generateType.
  apply (unnamed_expands _ _ _ _ _ _ _ _ _ _ i0 params); assumption.
Qed.

(** C5: at top level a bare [array] never compiles, and one that is
    well-formed (it compiles as a nested type) stops at the check with the
    error that it cannot be a syscall argument; so does a bare struct or
    union reference.  A [ptr] whose pointee is that struct, or the unnamed
    type that holds that array, compiles at top level. *)
Theorem bare_array_or_struct_at_top_level consts fuel :
  (forall parent name dir a sl isField s,
     (forall r, generateArg consts fuel parent name "array" dir a sl true isField s
                  <> Ok r) /\
     (forall t s',
        generateArg consts fuel parent name "array" dir a sl false isField s
          = Ok (t, s') ->
        generateArg consts fuel parent name "array" dir a sl true isField s
          = Fatal (CantBeSyscallArgument name "array"))) /\
  (forall parent name typ dir a sl isField s,
     classify typ = CDefault ->
     HasPrefix typ "unnamed" = false ->
     is_Some (Structs (description s) !! typ) ->
     paramsOf a = [] ->
     generateArg consts (S fuel) parent name typ dir a sl true isField s
       = Fatal (CantBeSyscallArgument name typ)) /\
  (forall parent name dir a sl isField s pd u params t s',
     paramsOf a = [pd; u] ->
     HasPrefix u "unnamed" = true ->
     Unnamed (description (afterScan sl a s)) !! u = Some ("array" :: params) ->
     generateArg consts fuel EmptyString EmptyString "array" pd params
       (UnnamedSlot u) false true (afterScan sl a s) = Ok (t, s') ->
     generateArg consts (S (S fuel)) parent name "ptr" dir a sl true isField s
       = Ok (PtrType (mkCommon name DirIn (optOf a)) t, s')) /\
  (forall parent name typ dir a sl isField s pd,
     paramsOf a = [pd; typ] ->
     classify typ = CDefault ->
     HasPrefix typ "unnamed" = false ->
     is_Some (Structs (description s) !! typ) ->
     generateArg consts (S (S fuel)) parent name "ptr" dir a sl true isField s
       = Ok (PtrType (mkCommon name DirIn (optOf a))
               (StructRef (mkKey typ EmptyString pd)), afterScan sl a s)).
Proof.
  repeat split.
  - intros r H. exact (array_never_top_level _ _ _ _ _ _ _ _ _ _ H).
  - intros t s' H.
    destruct (generateArg_isArg _ _ _ _ _ _ _ _ _ _ _ _ H) as [Hok|Hf];
      [|exact Hf].
    exfalso. exact (array_never_top_level _ _ _ _ _ _ _ _ _ _ Hok).
  - intros. apply struct_top_level; assumption.
  - intros. eapply ptr_to_unnamed; eassumption.
  - intros. apply ptr_to_struct; assumption.
Qed.

Lemma bare_array_or_struct_at_top_level_witness :
  generateArg ∅ 1 EmptyString "a" "array" "in" ["int8"] (ArgSlot 0 0) true false
    (initState arrayDescription)
    = Fatal (CantBeSyscallArgument "a" "array") /\
  generateArg ∅ 2 EmptyString "s" "S" "in" [] (ArgSlot 0 0) true false
    (initState arrayDescription)
    = Fatal (CantBeSyscallArgument "s" "S") /\
  generateArg ∅ 3 EmptyString "p" "ptr" "in" ["in"; "unnamed0"] (ArgSlot 0 0)
    true false (initState arrayDescription)
    = Ok (PtrType (mkCommon "p" DirIn (optOf ["in"; "unnamed0"]))
            (BufferType (mkCommon EmptyString DirIn false) BufferBlobRand),
          initState arrayDescription) /\
  generateArg ∅ 3 EmptyString "p" "ptr" "in" ["out"; "S"] (ArgSlot 0 0)
    true false (initState arrayDescription)
    = Ok (PtrType (mkCommon "p" DirIn (optOf ["out"; "S"]))
            (StructRef (mkKey "S" EmptyString "out")),
          afterScan (ArgSlot 0 0) ["out"; "S"] (initState arrayDescription)).
Proof.
  destruct (bare_array_or_struct_at_top_level ∅ 1) as (HA & HB & HC & HD).
  split; [|split; [|split]].
  - destruct (HA EmptyString "a" "in" ["int8"] (ArgSlot 0 0) false
                (initState arrayDescription)) as [_ HA2].
    apply (HA2 (BufferType (mkCommon "a" DirIn false) BufferBlobRand)
               (initState arrayDescription)).
    reflexivity.
  - apply HB; [reflexivity|reflexivity| |reflexivity].
    exists (mkStruct "S" [["f"; "int32"]] false false false 0). reflexivity.
  - apply (HC EmptyString "p" "in" ["in"; "unnamed0"] (ArgSlot 0 0) false
              (initState arrayDescription) "in" "unnamed0" ["int8"]);
      reflexivity.
  - apply HD; [reflexivity|reflexivity|reflexivity|].
    exists (mkStruct "S" [["f"; "int32"]] false false false 0). reflexivity.
Defined.

(** ** [string] with a fixed length *)

Lemma string_length_app (s1 s2 : string) :
  String.length (s1 +:+ s2) = String.length s1 + String.length s2.
Proof. induction s1 as [|c s1 IH]; simpl; [reflexivity|]. f_equal. exact IH. Qed.

Lemma length_zeros k : String.length (zeros k) = k.
Proof. induction k as [|k IH]; simpl; [reflexivity|]. f_equal. exact IH. Qed.

(** A value that fits is extended by zero bytes to exactly [size] bytes. *)
Lemma padValue_length size s :
  (N.of_nat (String.length s) <= size)%N ->
  N.of_nat (String.length (padValue size s)) = size.
Proof.
  intros H. unfold padValue. rewrite string_length_app, length_zeros. lia.
Qed.

Lemma padValues_fit size name vals :
  Forall (fun v => (N.of_nat (String.length v) <= size)%N) vals ->
  padValues size name vals = Ok (map (padValue size) vals).
Proof.
  induction 1 as [|v vals Hv _ IH]; cbn; [reflexivity|].
  destruct (N.ltb_spec size (N.of_nat (String.length v))) as [Hlt|_]; [lia|].
  rewrite IH. reflexivity.
Qed.

Lemma padValues_exceed size name vals :
  Exists (fun v => (size < N.of_nat (String.length v))%N) vals ->
  exists v, v ∈ vals /\ (size < N.of_nat (String.length v))%N /\
            padValues size name vals = Fatal (StringExceedsBuffer v size name).
Proof.
  induction vals as [|v vals IH]; intros H; [inversion H|].
  cbn. destruct (N.ltb_spec size (N.of_nat (String.length v))) as [Hlt|Hge].
  - exists v. split; [left|]. split; [exact Hlt|reflexivity].
  - inversion H as [? ? Hv|? ? Hex]; subst; [lia|].
    destruct (IH Hex) as (w & Hin & Hw & ->).
    exists w. split; [right; exact Hin|]. split; [exact Hw|reflexivity].
Qed.

Lemma stringEnum_afterScan sl a s tok :
  stringEnum (description (afterScan sl a s)) tok = stringEnum (description s) tok.
Proof.
  unfold afterScan. destruct (optOf a); [|reflexivity].
  unfold stringEnum. cbn [description]. rewrite store_StrFlags. reflexivity.
Qed.

(** The [string] case with two parameters, as a function of what the two
    parameters resolve to. *)
Lemma string_two_params consts fuel parent name dir a sl isField s tok len
    vals subkind size :
  paramsOf a = [tok; len] ->
  stringEnum (description s) tok = Ok (vals, subkind) ->
  stringSize consts name len = Ok size ->
  generateArg consts (S fuel) parent name "string" dir a sl false isField s =
    match padValues size name (map (fun v => v +:+ NUL) vals) with
    | Ok padded =>
        match dirOf dir with
        | Some d =>
            Ok (BufferType (mkCommon name d (optOf a))
                  (BufferString subkind padded), afterScan sl a s)
        | None => Fatal (BadDirection dir)
        end
    | Fatal f => Fatal f
    | Panic => Panic
    | OutOfFuel => OutOfFuel
    end.
Proof.
  intros Ha He Hs.
  cbn [generateArg]. rewrite (scanOpt_eta a), Ha.
  change (classify "string") with CString. cbv iota.
  rewrite (bind_Ok _ _ _ _ _ (scan_step sl a s)).
  unfold stringValues, bind. cbn.
  rewrite stringEnum_afterScan, He, Hs. cbn.
  destruct (padValues size name _); cbn; try reflexivity.
  unfold common, fmtDir, bind. destruct (dirOf dir); reflexivity.
Qed.

(** C3: a [string] construct with a fixed length, compiled as a nested type
    (no [string] is eligible at top level).  If one of the enumerated
    values, with its terminating zero byte, is longer than the fixed length,
    compilation fails with the error for that value.  If all of them fit, in
    particular if the fixed length is the length of the longest terminated
    value, compilation succeeds and every value is extended by zero bytes to
    exactly the fixed length. *)
Theorem string_fixed_length consts fuel parent name dir a sl isField s tok len
    vals subkind size d :
  paramsOf a = [tok; len] ->
  stringEnum (description s) tok = Ok (vals, subkind) ->
  stringSize consts name len = Ok size ->
  dirOf dir = Some d ->
  let terminated := map (fun v => v +:+ NUL) vals in
  let run := generateArg consts (S fuel) parent name "string" dir a sl false
               isField s in
  let fits := run = Ok (BufferType (mkCommon name d (optOf a))
                          (BufferString subkind (map (padValue size) terminated)),
                        afterScan sl a s) /\
              forall v, v ∈ terminated ->
                N.of_nat (String.length (padValue size v)) = size /\
                padValue size v =
                  v +:+ zeros (N.to_nat size - String.length v) in
  ((exists v, v ∈ terminated /\ (size < N.of_nat (String.length v))%N) ->
   exists v, v ∈ terminated /\ (size < N.of_nat (String.length v))%N /\
             run = Fatal (StringExceedsBuffer v size name)) /\
  ((forall v, v ∈ terminated -> (N.of_nat (String.length v) <= size)%N) -> fits) /\
  (size = N.of_nat (max_list_with String.length terminated) -> fits).
Proof.
  intros Ha He Hs Hd terminated run fits.
  assert (Hrun := string_two_params consts fuel parent name dir a sl isField s
                    tok len vals subkind size Ha He Hs).
  fold terminated in Hrun. fold run in Hrun. rewrite Hd in Hrun.
  assert (Hfits : (forall v, v ∈ terminated ->
                     (N.of_nat (String.length v) <= size)%N) -> fits).
  { intros Hall. split.
    - rewrite Hrun, padValues_fit; [reflexivity|].
      apply Forall_forall. exact Hall.
    - intros v Hv. split; [|reflexivity].
      apply padValue_length, Hall, Hv. }
  split; [|split].
  - intros (v & Hv & Hlt).
    destruct (padValues_exceed size name terminated) as (w & Hw & Hlw & Hpad).
    { apply Exists_exists. exists v. split; assumption. }
    exists w. split; [exact Hw|]. split; [exact Hlw|].
    rewrite Hrun, Hpad. reflexivity.
  - exact Hfits.
  - intros ->. apply Hfits. intros v Hv.
    enough (String.length v <= max_list_with String.length terminated) by lia.
    clear -Hv. induction terminated as [|w l IH]; [inversion Hv|].
    cbn. apply elem_of_cons in Hv as [->|Hv]; [lia|].
    specialize (IH Hv). lia.
Qed.

Lemma string_fixed_length_witness :
  generateArg ∅ 1 "S" "f" "string" "in" ["names"; "4"] NoSlot false true
    (initState stringDescription)
  = Ok (BufferType (mkCommon "f" DirIn (optOf ["names"; "4"]))
          (BufferString "names"
             (map (padValue 4) (map (fun v => v +:+ NUL) ["a"; "bcd"]))),
        afterScan NoSlot ["names"; "4"] (initState stringDescription)) /\
  exists v, v ∈ map (fun v => v +:+ NUL) ["a"; "bcd"] /\
            (3 < N.of_nat (String.length v))%N /\
            generateArg ∅ 1 "S" "f" "string" "in" ["names"; "3"] NoSlot false true
              (initState stringDescription)
            = Fatal (StringExceedsBuffer v 3 "f").
Proof.
  split.
  - assert (H := string_fixed_length ∅ 0 "S" "f" "in" ["names"; "4"] NoSlot true
                   (initState stringDescription) "names" "4" ["a"; "bcd"]
                   "names" 4%N DirIn).
    destruct H as (_ & _ & H); [reflexivity..|].
    apply H. reflexivity.
  - assert (H := string_fixed_length ∅ 0 "S" "f" "in" ["names"; "3"] NoSlot true
                   (initState stringDescription) "names" "3" ["a"; "bcd"]
                   "names" 3%N DirIn).
    destruct H as (H & _ & _); [reflexivity..|].
    apply H. exists ("bcd" +:+ NUL). split.
    + right. left.
    + reflexivity.
Defined.

(** The fixed length counts the terminating zero byte: a length equal to
    that of the literal as written between the quotes is one byte short. *)
Example string_literal_needs_room_for_terminator :
  generateArg ∅ 1 "S" "f" "string" "in"
    [String quote ("abc" +:+ String quote EmptyString); "3"] NoSlot false true
    (initState emptyDescription)
  = Fatal (StringExceedsBuffer ("abc" +:+ NUL) 3 "f").
Proof. reflexivity. Qed.

Example string_literal_padded :
  generateArg ∅ 1 "S" "f" "string" "in"
    [String quote ("ab" +:+ String quote EmptyString); "5"] NoSlot false true
    (initState emptyDescription)
  = Ok (BufferType (mkCommon "f" DirIn false)
          (BufferString EmptyString [("ab" +:+ NUL) +:+ zeros 2]),
        initState emptyDescription).
Proof. reflexivity. Qed.

(** ** [proc]: the range checks are done on [int64] *)

(** What a successful [proc] has passed: the three comparisons, as the
    machine evaluates them. *)
Lemma procValues_checks typ name isField a s size bigEndian start perProc s' :
  procValues typ name isField a s = Ok (size, bigEndian, start, perProc, s') ->
  (1 <= perProc)%Z /\
  (start < int64_shl 1 (size * 8))%Z /\
  (int64_add start (int64_mul maxPids perProc) < int64_shl 1 (size * 8))%Z.
Proof.
  unfold procValues. intros H.
  apply bind_Ok_inv in H as (p & s1 & _ & H).
  destruct (ParseInt p.1.2 64) as [vs|]; [|discriminate].
  destruct (ParseInt p.2 64) as [vp|]; [|discriminate].
  minv.
  match goal with He : (_, _, _, _) = _ |- _ => injection He as -> -> -> -> end.
  repeat match goal with
         | Hc : (_ <? _)%Z = false |- _ => apply Z.ltb_ge in Hc
         | Hc : (_ <=? _)%Z = false |- _ => apply Z.leb_gt in Hc
         end.
  auto.
Qed.

Lemma ParseInt64_range s v :
  ParseInt s 64 = Some v -> (- 2 ^ 63 <= v < 2 ^ 63)%Z.
Proof.
  unfold ParseInt. destruct s as [|c s]; [discriminate|].
  change (2 ^ (64 - 1))%N with 9223372036854775808%N.
  destruct (if Ascii.eqb c "+" then (false, s)
            else if Ascii.eqb c "-" then (true, s) else (false, String c s))
    as [neg body].
  destruct (ParseUint body) as [un|]; [|discriminate].
  destruct neg.
  - destruct (N.leb_spec un 9223372036854775808); [|discriminate].
    intros [= <-]. lia.
  - destruct (N.ltb_spec un 9223372036854775808); [|discriminate].
    intros [= <-]. lia.
Qed.

Lemma wrap64_small z : (- 2 ^ 63 <= z < 2 ^ 63)%Z -> wrap64 z = z.
Proof. intros H. unfold wrap64. rewrite Z.mod_small; lia. Qed.

Lemma procValues_parsed typ name isField a s size bigEndian start perProc s' :
  procValues typ name isField a s = Ok (size, bigEndian, start, perProc, s') ->
  (- 2 ^ 63 <= start < 2 ^ 63)%Z /\ (- 2 ^ 63 <= perProc < 2 ^ 63)%Z.
Proof.
  unfold procValues. intros H.
  apply bind_Ok_inv in H as (p & s1 & _ & H).
  destruct (ParseInt p.1.2 64) as [vs|] eqn:Es; [|discriminate].
  destruct (ParseInt p.2 64) as [vp|] eqn:Ep; [|discriminate].
  minv.
  match goal with He : (_, _, _, _) = _ |- _ => injection He as -> -> -> -> end.
  split; [exact (ParseInt64_range _ _ Es)|exact (ParseInt64_range _ _ Ep)].
Qed.

(** Where the [int64] arithmetic is exact, for sizes below 8 bytes and
    strides up to 2^57, the three checks are those of C9. *)
Lemma proc_checks_exact_without_overflow typ name isField a s size bigEndian
    start perProc s' :
  procValues typ name isField a s = Ok (size, bigEndian, start, perProc, s') ->
  (size < 8)%N ->
  (perProc <= 2 ^ 57)%Z ->
  (1 <= perProc)%Z /\
  (start < 2 ^ (8 * Z.of_N size))%Z /\
  (start + 32 * perProc < 2 ^ (8 * Z.of_N size))%Z.
Proof.
  intros H Hsize Hp.
  destruct (procValues_parsed _ _ _ _ _ _ _ _ _ _ H) as [Hs _].
  apply procValues_checks in H as (H1 & H2 & H3).
  assert (Hpow : (0 < 2 ^ (8 * Z.of_N size) <= 2 ^ 56)%Z).
  { split; [apply Z.pow_pos_nonneg; lia|].
    apply Z.pow_le_mono_r; lia. }
  assert (Hshl : int64_shl 1 (size * 8) = (2 ^ (8 * Z.of_N size))%Z).
  { unfold int64_shl. rewrite Z.mul_1_l, N2Z.inj_mul, Z.mul_comm.
    change (Z.of_N 8) with 8%Z. apply wrap64_small. lia. }
  rewrite Hshl in H2, H3.
  unfold int64_add, int64_mul, maxPids in H3.
  rewrite (wrap64_small (32 * perProc)) in H3 by lia.
  rewrite wrap64_small in H3 by lia.
  auto.
Qed.

(** C9 does not hold of the code: the product [32 * perProc] and the bound
    [1 << (size*8)] are computed in [int64].  For the struct field
    [proc[int8, 0, 576460752303423488]] the product wraps to 0 and the field
    is accepted, although the last of the 32 instances starts at 2^64, far
    above the 2^8 values of one byte. *)
Theorem proc_accepts_overflowing_stride :
  generateArg ∅ 1 "S" "port" "proc" "in" ["int8"; "0"; "576460752303423488"]
    NoSlot false true (initState emptyDescription)
  = Ok (ProcType (mkCommon "port" DirIn false) 1 false 0 576460752303423488,
        initState emptyDescription) /\
  (2 ^ (8 * 1) <= 0 + 32 * 576460752303423488)%Z.
Proof. split; [reflexivity|]. vm_compute. discriminate. Qed.

(** With a size of 8 bytes, the default of a top-level argument, the bound
    [1 << 64] is 0 in [int64]: every start that is not negative is refused. *)
Example proc_refuses_eight_bytes :
  generateArg ∅ 1 EmptyString "pid" "proc" "in" ["0"; "1"] NoSlot true false
    (initState emptyDescription)
  = Fatal (ValuesStartOverflow 0 8).
Proof. reflexivity. Qed.

(** ** State invariants of a run *)

Section Keeps.
Context (P : state -> Prop).

Lemma keeps_ret {A} (a : A) : keeps P (ret a).
Proof. intros s x s' HP H. apply ret_Ok_inv in H as [_ ->]. exact HP. Qed.

Lemma keeps_failf {A} f : keeps P (@failf A f).
Proof. intros s x s' _ H. discriminate H. Qed.

Lemma keeps_panic {A} : keeps P (@panic A).
Proof. intros s x s' _ H. discriminate H. Qed.

Lemma keeps_outOfFuel {A} : keeps P (@outOfFuel A).
Proof. intros s x s' _ H. discriminate H. Qed.

Lemma keeps_gets {A} (f : state -> A) : keeps P (gets f).
Proof. intros s x s' HP H. apply gets_Ok_inv in H as [_ ->]. exact HP. Qed.

Lemma keeps_liftO {A} (o : outcome A) : keeps P (liftO o).
Proof.
  intros s x s' HP H. unfold liftO in H.
  destruct o; try discriminate. injection H as _ <-. exact HP.
Qed.

Lemma keeps_modify f : (forall s, P s -> P (f s)) -> keeps P (modify f).
Proof. intros Hf s x s' HP H. apply modify_Ok_inv in H as ->. auto. Qed.

Lemma keeps_bind {A B} (m : M A) (k : A -> M B) :
  keeps P m -> (forall a, keeps P (k a)) -> keeps P (bind m k).
Proof.
  intros Hm Hk s b s' HP H.
  apply bind_Ok_inv in H as (a & s1 & H1 & H2).
  exact (Hk a s1 b s' (Hm s a s1 HP H1) H2).
Qed.

Lemma keeps_failIf c f : keeps P (failIf c f).
Proof. destruct c; [apply keeps_failf|apply keeps_ret]. Qed.

Lemma keeps_index a i : keeps P (index a i).
Proof. unfold index. destruct (a !! i); [apply keeps_ret|apply keeps_panic]. Qed.

Lemma keeps_wantArgs typ name want a : keeps P (wantArgs typ name want a).
Proof. apply keeps_failIf. Qed.

Lemma keeps_fmtDir d : keeps P (fmtDir d).
Proof. unfold fmtDir. destruct (dirOf d); [apply keeps_ret|apply keeps_failf]. Qed.

Lemma keeps_common name d opt : keeps P (common name d opt).
Proof. apply keeps_bind; [apply keeps_fmtDir|intros; apply keeps_ret]. Qed.

Lemma keeps_mapM {A B} (f : A -> M B) l :
  (forall x, keeps P (f x)) -> keeps P (mapM f l).
Proof.
  intros Hf. induction l as [|x l IH]; cbn [mapM]; [apply keeps_ret|].
  apply keeps_bind; [apply Hf|]. intros y.
  apply keeps_bind; [apply IH|]. intros ys. apply keeps_ret.
Qed.

End Keeps.

(** Break a computation down to its primitive steps. *)
Ltac keeps_step :=
  first
    [ apply keeps_ret | apply keeps_failf | apply keeps_panic
    | apply keeps_outOfFuel | apply keeps_gets | apply keeps_liftO
    | apply keeps_failIf | apply keeps_index | apply keeps_wantArgs
    | apply keeps_fmtDir | apply keeps_common
    | assumption
    | apply keeps_bind; [|intros ?]
    | match goal with
      | |- keeps _ (if ?b then _ else _) => destruct b
      | |- keeps _ (match ?x with _ => _ end) => destruct x
      | |- keeps _ (let '(_, _) := ?x in _) => destruct x
      end ].

Ltac keeps_auto := repeat keeps_step.

Lemma keeps_decodeIntType P typ : keeps P (decodeIntType typ).
Proof. unfold decodeIntType. keeps_auto. Qed.

Lemma keeps_decodeByteSizeType P typ : keeps P (decodeByteSizeType typ).
Proof. unfold decodeByteSizeType. keeps_auto. Qed.

Lemma keeps_parseRange P buffer consts : keeps P (parseRange buffer consts).
Proof. unfold parseRange. keeps_auto. Qed.

Lemma keeps_sizeOf P typ name isField wf wa pos a :
  keeps P (sizeOf typ name isField wf wa pos a).
Proof. unfold sizeOf. keeps_auto; apply keeps_decodeIntType. Qed.

Lemma keeps_stringValues P consts name a : keeps P (stringValues consts name a).
Proof. unfold stringValues. keeps_auto. Qed.

Lemma keeps_procValues P typ name isField a :
  keeps P (procValues typ name isField a).
Proof. unfold procValues. keeps_auto; apply keeps_decodeIntType. Qed.

Lemma keeps_skipSyscall why : keeps skipEmpty (skipSyscall why).
Proof.
  unfold skipSyscall. apply keeps_modify. intros s Hs.
  unfold skipEmpty in *. rewrite Hs. cbn. exact Hs.
Qed.

Lemma generateArg_keeps_skipEmpty consts fuel parent name typ dir a sl isArg isField :
  keeps skipEmpty
    (generateArg consts fuel parent name typ dir a sl isArg isField).
Proof.
  revert parent name typ dir a sl isArg isField.
  induction fuel as [|fuel IH]; intros; [apply keeps_outOfFuel|].
  cbn [generateArg]. destruct (scanOpt a) as [[opt a'] back].
  apply keeps_bind.
  { destruct opt; [|apply keeps_ret].
    apply keeps_modify. intros s Hs. exact Hs. }
  intros _. apply keeps_bind.
  2:{ intros r. keeps_auto. }
  destruct (classify typ);
    keeps_auto;
    first [ apply IH | apply keeps_sizeOf | apply keeps_decodeIntType
          | apply keeps_decodeByteSizeType | apply keeps_parseRange
          | apply keeps_stringValues | apply keeps_procValues
          | apply keeps_skipSyscall ].
Qed.

(** ** Runs of [mapM] *)

Lemma mapM_Ok_inv {A B} (P : state -> Prop) (f : A -> M B) l s ys s' :
  (forall x, keeps P (f x)) ->
  P s ->
  mapM f l s = Ok (ys, s') ->
  Forall2 (fun x y => exists s1 s2, P s1 /\ f x s1 = Ok (y, s2)) l ys.
Proof.
  intros Hf. revert s ys.
  induction l as [|x l IH]; intros s ys HP H; cbn [mapM] in H.
  - apply ret_Ok_inv in H as [-> _]. constructor.
  - apply bind_Ok_inv in H as (y & s1 & Hy & H).
    apply bind_Ok_inv in H as (ys' & s2 & Hys & H).
    apply ret_Ok_inv in H as [-> ->].
    constructor; [eauto|].
    apply (IH s1); [|exact Hys]. exact (Hf x s y s1 HP Hy).
Qed.

Lemma mapM_Ok {A B} (f : A -> M B) l s ys s' :
  mapM f l s = Ok (ys, s') ->
  Forall2 (fun x y => exists s1 s2, f x s1 = Ok (y, s2)) l ys.
Proof.
  intros H.
  eapply Forall2_impl.
  - apply (mapM_Ok_inv (fun _ => True) f l s ys s'); [|exact I|exact H].
    intros x s0 a s1 _ _. exact I.
  - intros x y (s1 & s2 & _ & Hxy). eauto.
Qed.

(** ** The skip flag of a call *)

(** With the flag empty, [skipSyscall] changes nothing. *)
Lemma skipSyscall_empty why s :
  skipCurrentSyscall s = EmptyString -> skipSyscall why s = Ok (tt, s).
Proof. unfold skipSyscall, modify. intros ->. reflexivity. Qed.

(** A [const] argument whose value is an identifier without a constant. *)
Lemma const_unresolved consts fuel parent name dir a sl isArg s t s' v :
  generateArg consts fuel parent name "const" dir a sl isArg false s = Ok (t, s') ->
  paramsOf a = [v] ->
  consts !! v = None ->
  isIdentifier v = true ->
  exists d, dirOf dir = Some d /\
            t = ConstType (mkCommon name d (optOf a)) ptrSize false "0".
Proof.
  intros H Ha Hv Hid.
  destruct fuel as [|fuel]; [discriminate|].
  unfold_generateArg H a. rewrite Ha in H.
  change (classify "const") with CConst in H. cbv iota in H.
  apply bind_Ok_inv in H as (u & s1 & _ & H).
  apply bind_Ok_inv in H as (r & s2 & H & Hcheck).
  unfold sizeOf in H. minv.
  match goal with Hi : [v] !! 0%nat = Some _ |- _ => injection Hi as <- end.
  rewrite Hv, Hid in *. minv.
  destruct isArg; cbn in Hcheck; minv; eauto.
Qed.

Lemma generateCallTypes_keeps_skipEmpty consts fuel i s :
  keeps skipEmpty (generateCallTypes consts fuel i s).
Proof.
  unfold generateCallTypes.
  apply keeps_bind.
  { destruct (negb _); keeps_auto. apply generateArg_keeps_skipEmpty. }
  intros r. apply keeps_bind; [|intros; apply keeps_ret].
  apply keeps_mapM. intros [j a]. unfold generateCallArg. keeps_auto.
  apply generateArg_keeps_skipEmpty.
Qed.

(** What a successful [generateCall] has done. *)
Lemma generateCall_Ok_inv consts fuel i s st cd st' :
  generateCall consts fuel (i, s) st = Ok (cd, st') ->
  exists r args,
    generateCallTypes consts fuel i s (mkState EmptyString (description st))
      = Ok (r, args, st') /\
    skipCurrentSyscall st' = EmptyString /\
    cd = mkCall (Syscall_Name s) (CallName s) r args
           match consts !! ("__NR_" +:+ CallName s) with
           | Some nr => int_of_uint64 nr
           | None => (-1)%Z
           end.
Proof.
  unfold generateCall. cbn [fst snd]. intros H.
  apply bind_Ok_inv in H as (u & s1 & H1 & H).
  apply modify_Ok_inv in H1 as ->.
  apply bind_Ok_inv in H as ([r args] & s2 & Hra & H).
  apply bind_Ok_inv in H as (skip & s3 & Hg & H).
  apply gets_Ok_inv in Hg as [-> ->].
  apply ret_Ok_inv in H as [-> ->].
  assert (Hskip : skipCurrentSyscall s2 = EmptyString).
  { apply (generateCallTypes_keeps_skipEmpty consts fuel i s _ _ _
             (eq_refl : skipEmpty (mkState EmptyString (description st))) Hra). }
  exists r, args. split; [exact Hra|]. split; [exact Hskip|].
  rewrite Hskip. reflexivity.
Qed.

Lemma generateCallArg_cons consts fuel i j name typ rest :
  generateCallArg consts fuel i (j, name :: typ :: rest) =
  generateArg consts fuel EmptyString name typ "in" rest (ArgSlot i j) true false.
Proof. reflexivity. Qed.

(** The arguments of a compiled call, position by position. *)
Lemma generateCallTypes_args consts fuel i s st r args st' :
  generateCallTypes consts fuel i s st = Ok (r, args, st') ->
  length args = length (Args s) /\
  forall j a, Args s !! j = Some a ->
    exists t s1 s2, args !! j = Some t /\
                    generateCallArg consts fuel i (j, a) s1 = Ok (t, s2).
Proof.
  unfold generateCallTypes. intros H.
  apply bind_Ok_inv in H as (r0 & s1 & _ & H).
  apply bind_Ok_inv in H as (args0 & s2 & Hargs & H).
  apply ret_Ok_inv in H as [[= -> ->] ->].
  apply mapM_Ok in Hargs.
  split.
  - apply Forall2_length in Hargs. rewrite length_imap in Hargs. auto.
  - intros j a Hj.
    destruct (Forall2_lookup_l _ _ _ j (j, a) Hargs) as (t & Ht & s3 & s4 & Hrun).
    { rewrite list_lookup_imap, Hj. reflexivity. }
    eauto.
Qed.

Lemma generateCallTypes_ret consts fuel i s st r args st' :
  generateCallTypes consts fuel i s st = Ok (r, args, st') ->
  match Ret s with
  | [] => r = None
  | r0 :: rest =>
      exists t s2, r = Some t /\
        generateArg consts fuel EmptyString "ret" r0 "out" rest (RetSlot i)
          true false st = Ok (t, s2)
  end.
Proof.
  unfold generateCallTypes. intros H.
  apply bind_Ok_inv in H as (r0 & s1 & Hr & H).
  apply bind_Ok_inv in H as (args0 & s2 & _ & H).
  apply ret_Ok_inv in H as [[= -> ->] ->].
  destruct (Ret s) as [|tok rest]; cbn in Hr.
  - apply ret_Ok_inv in Hr as [-> _]. reflexivity.
  - minv. eauto.
Qed.

(** C1: in a compiled call the number is the one found for [CallName] (or
    the sentinel -1 when there is none), whatever its arguments are: the flag
    is reset before the call, [skipSyscall] leaves an empty flag empty, and
    the flag is still empty when the number is printed.  A [const] argument
    whose value is an identifier without a constant is compiled with the
    value 0. *)
Theorem unresolved_const_does_not_skip consts fuel i s st cd st' :
  generateCall consts fuel (i, s) st = Ok (cd, st') ->
  (forall why s0, skipCurrentSyscall s0 = EmptyString ->
                  skipSyscall why s0 = Ok (tt, s0)) /\
  skipCurrentSyscall st' = EmptyString /\
  NR cd = match consts !! ("__NR_" +:+ CallName s) with
          | Some nr => int_of_uint64 nr
          | None => (-1)%Z
          end /\
  forall j name rest v,
    Args s !! j = Some (name :: "const" :: rest) ->
    paramsOf rest = [v] ->
    consts !! v = None ->
    isIdentifier v = true ->
    Call_Args cd !! j =
      Some (ConstType (mkCommon name DirIn (optOf rest)) ptrSize false "0").
Proof.
  intros H.
  apply generateCall_Ok_inv in H as (r & args & Hra & Hskip & ->).
  split; [exact skipSyscall_empty|]. split; [exact Hskip|].
  split; [reflexivity|].
  intros j name rest v Hj Hp Hv Hid. cbn [Call_Args].
  apply generateCallTypes_args in Hra as [_ Hargs].
  destruct (Hargs j _ Hj) as (t & s1 & s2 & -> & Hrun).
  rewrite generateCallArg_cons in Hrun.
  destruct (const_unresolved _ _ _ _ _ _ _ _ _ _ _ v Hrun Hp Hv Hid)
    as (d & [= <-] & ->).
  reflexivity.
Qed.

Lemma unresolved_const_does_not_skip_witness :
  (forall why s0, skipCurrentSyscall s0 = EmptyString ->
                  skipSyscall why s0 = Ok (tt, s0)) /\
  skipCurrentSyscall (initState ioctlDescription) = EmptyString /\
  NR ioctlCompiled = match ioctlConsts !! ("__NR_" +:+ CallName ioctlCall) with
                     | Some nr => int_of_uint64 nr
                     | None => (-1)%Z
                     end /\
  forall j name rest v,
    Args ioctlCall !! j = Some (name :: "const" :: rest) ->
    paramsOf rest = [v] ->
    ioctlConsts !! v = None ->
    isIdentifier v = true ->
    Call_Args ioctlCompiled !! j =
      Some (ConstType (mkCommon name DirIn (optOf rest)) ptrSize false "0").
Proof.
  apply (unresolved_const_does_not_skip ioctlConsts 1 0 ioctlCall
           (initState ioctlDescription) ioctlCompiled
           (initState ioctlDescription)).
  reflexivity.
Defined.

(** ** Unavailable calls *)

Lemma store_Syscalls sl back d :
  syscallSlot sl = false -> Syscalls (store sl back d) = Syscalls d.
Proof. destruct sl; cbn; intros H; try discriminate; reflexivity. Qed.

(** Compiling anything but the types of a call leaves [desc.Syscalls] as it
    is. *)
Lemma generateArg_keeps_Syscalls consts L fuel parent name typ dir a sl isArg isField :
  syscallSlot sl = false ->
  keeps (fun st => Syscalls (description st) = L)
    (generateArg consts fuel parent name typ dir a sl isArg isField).
Proof.
  revert parent name typ dir a sl isArg isField.
  induction fuel as [|fuel IH]; intros; [apply keeps_outOfFuel|].
  cbn [generateArg]. destruct (scanOpt a) as [[opt a'] back].
  apply keeps_bind.
  { destruct opt; [|apply keeps_ret].
    apply keeps_modify. intros s Hs. cbn. rewrite store_Syscalls; assumption. }
  intros _. apply keeps_bind.
  2:{ intros r. keeps_auto. }
  destruct (classify typ);
    keeps_auto;
    first [ apply IH; reflexivity | apply keeps_sizeOf | apply keeps_decodeIntType
          | apply keeps_decodeByteSizeType | apply keeps_parseRange
          | apply keeps_stringValues | apply keeps_procValues
          | apply keeps_modify; intros s Hs;
            destruct (negb _); [exact Hs|exact Hs] ].
Qed.

Lemma keeps_resourceLoop P consts fuel name res kind values :
  keeps P (resourceLoop consts fuel name res kind values).
Proof.
  revert res kind values.
  induction fuel as [|fuel IH]; intros; cbn [resourceLoop]; keeps_auto.
  apply IH.
Qed.

Lemma generateResources_keeps_Syscalls consts L fuel resArray :
  keeps (fun st => Syscalls (description st) = L)
    (generateResources consts fuel resArray).
Proof.
  apply keeps_mapM. intros res. unfold generateResource. keeps_auto.
  - apply keeps_resourceLoop.
  - apply generateArg_keeps_Syscalls. reflexivity.
Qed.

Lemma generateStructs_keeps_Syscalls consts L fuel sched :
  keeps (fun st => Syscalls (description st) = L)
    (generateStructs consts fuel sched).
Proof.
  unfold generateStructs. keeps_auto.
  - apply keeps_mapM. intros [key id]. unfold generateStructEntry. keeps_auto.
  - apply keeps_mapM. intros [key id]. unfold generateStructFields. keeps_auto.
    apply keeps_mapM. intros [j toks]. unfold generateStructField. keeps_auto.
    apply generateArg_keeps_Syscalls. reflexivity.
Qed.

(** C8: a call whose [CallName] has no number in the constant table.  Its
    descriptor is built whenever its return type and arguments compile, with
    the number -1; it carries the compiled return type, if one is declared,
    and one compiled type per argument, in the order of declaration.  The
    output of [generate] has one descriptor per call of the description, in
    order, those without a number included. *)
Theorem unavailable_call_is_compiled consts fuel :
  (forall i s st r args st',
     consts !! ("__NR_" +:+ CallName s) = None ->
     generateCallTypes consts fuel i s (mkState EmptyString (description st))
       = Ok (r, args, st') ->
     generateCall consts fuel (i, s) st
       = Ok (mkCall (Syscall_Name s) (CallName s) r args (-1), st')) /\
  (forall i s st cd st',
     consts !! ("__NR_" +:+ CallName s) = None ->
     generateCall consts fuel (i, s) st = Ok (cd, st') ->
     NR cd = (-1)%Z /\
     Call_Name cd = Syscall_Name s /\
     Call_CallName cd = CallName s /\
     match Ret s with
     | [] => Call_Ret cd = None
     | r0 :: rest =>
         exists t s2, Call_Ret cd = Some t /\
           generateArg consts fuel EmptyString "ret" r0 "out" rest (RetSlot i)
             true false (mkState EmptyString (description st)) = Ok (t, s2)
     end /\
     length (Call_Args cd) = length (Args s) /\
     forall j a, Args s !! j = Some a ->
       exists t s1 s2, Call_Args cd !! j = Some t /\
                       generateCallArg consts fuel i (j, a) s1 = Ok (t, s2)) /\
  (forall sched st out st',
     generate consts fuel sched st = Ok (out, st') ->
     length (Out_Calls out) = length (Syscalls (description st)) /\
     forall i s, Syscalls (description st) !! i = Some s ->
       exists cd, Out_Calls out !! i = Some cd /\
                  Call_Name cd = Syscall_Name s /\
                  Call_CallName cd = CallName s /\
                  (consts !! ("__NR_" +:+ CallName s) = None -> NR cd = (-1)%Z)).
Proof.
  split; [|split].
  - intros i s st r args st' Hnr Hra.
    unfold generateCall. cbn [fst snd]. rewrite Hnr.
    unfold bind at 1. cbn [modify]. rewrite (bind_Ok _ _ _ _ _ Hra).
    unfold bind. cbn [gets ret fst snd].
    assert (Hskip : skipCurrentSyscall st' = EmptyString).
    { apply (generateCallTypes_keeps_skipEmpty consts fuel i s _ _ _
               (eq_refl : skipEmpty (mkState EmptyString (description st))) Hra). }
    rewrite Hskip. reflexivity.
  - intros i s st cd st' Hnr H.
    apply generateCall_Ok_inv in H as (r & args & Hra & Hskip & ->).
    rewrite Hnr. cbn [NR Call_Name Call_CallName Call_Ret Call_Args].
    split; [reflexivity|]. split; [reflexivity|]. split; [reflexivity|].
    split; [exact (generateCallTypes_ret _ _ _ _ _ _ _ _ Hra)|].
    exact (generateCallTypes_args _ _ _ _ _ _ _ _ Hra).
  - intros sched st out st' H. unfold generate in H.
    apply bind_Ok_inv in H as (res & s1 & Hres & H).
    apply bind_Ok_inv in H as (strs & s2 & Hstr & H).
    apply bind_Ok_inv in H as (d & s3 & Hd & H).
    apply gets_Ok_inv in Hd as [-> ->].
    apply bind_Ok_inv in H as (calls & s4 & Hcalls & H).
    apply ret_Ok_inv in H as [-> ->]. cbn [Out_Calls].
    assert (HS : Syscalls (description s2) = Syscalls (description st)).
    { apply (generateStructs_keeps_Syscalls consts _ fuel sched _ _ _
               (generateResources_keeps_Syscalls consts _ fuel _ _ _ _
                  eq_refl Hres) Hstr). }
    rewrite HS in Hcalls. apply mapM_Ok in Hcalls.
    split.
    + apply Forall2_length in Hcalls. rewrite length_imap in Hcalls. auto.
    + intros i s Hi.
      destruct (Forall2_lookup_l _ _ _ i (i, s) Hcalls)
        as (cd & Hcd & sa & sb & Hrun).
      { rewrite list_lookup_imap, Hi. reflexivity. }
      exists cd. split; [exact Hcd|].
      apply generateCall_Ok_inv in Hrun as (r & args & _ & _ & ->).
      cbn [NR Call_Name Call_CallName].
      split; [reflexivity|]. split; [reflexivity|].
      intros ->. reflexivity.
Qed.

Lemma unavailable_call_is_compiled_witness :
  generateCall ∅ 1 (0, readCall) (initState readDescription)
    = Ok (readCompiled, initState readDescription) /\
  NR readCompiled = (-1)%Z /\
  length (Call_Args readCompiled) = length (Args readCall).
Proof.
  destruct (unavailable_call_is_compiled ∅ 1) as (H1 & H2 & _).
  split.
  - apply (H1 0 readCall (initState readDescription)); reflexivity.
  - destruct (H2 0 readCall (initState readDescription) readCompiled
                (initState readDescription)) as (Hnr & _ & _ & _ & Hlen & _);
      [reflexivity|reflexivity|].
    split; [exact Hnr|exact Hlen].
Defined.

(** ** The resource hierarchy *)

Lemma resourceLoop_walk consts s res l e :
  walks (description s) res l e ->
  forall fuel name kind values,
    length l < fuel ->
    resourceLoop consts fuel name res kind values s =
    match e with
    | EndPrimitive u =>
        Ok (u, reverse l.*1 ++ kind,
            concat (map (ownValues consts) (reverse l.*2))
              ++ ownValues consts res ++ values, s)
    | EndUnknown b => Fatal (UnknownParentResource name b)
    end.
Proof.
  induction 1 as [res Hp|res Hp Hn|res res' l e [Hp Hr] Hw IH];
    intros fuel name kind values Hfuel;
    (destruct fuel as [|fuel]; [cbn in Hfuel; lia|]);
    cbn [resourceLoop]; unfold isPrimitive in Hp; rewrite Hp.
  - reflexivity.
  - unfold bind. cbn [gets]. rewrite Hn. reflexivity.
  - unfold bind. cbn [gets]. rewrite Hr.
    rewrite IH by (cbn in Hfuel; lia).
    destruct e as [u|b]; [|reflexivity].
    cbn [fmap list_fmap fst snd]. rewrite !reverse_cons, map_app, concat_app.
    cbn [map concat]. rewrite app_nil_r, <- !app_assoc. reflexivity.
Qed.

Lemma resourceLoop_halts consts s fuel :
  forall name res kind values,
    resourceLoop consts fuel name res kind values s <> OutOfFuel ->
    exists l e, walks (description s) res l e /\ length l < fuel.
Proof.
  induction fuel as [|fuel IH]; intros name res kind values H;
    [exfalso; apply H; reflexivity|].
  cbn [resourceLoop] in H.
  destruct (string_in (Base res) primitiveKinds) eqn:Hp.
  - exists [], (EndPrimitive (Base res)). split; [|cbn; lia].
    apply walks_primitive. exact Hp.
  - unfold bind in H. cbn [gets] in H.
    destruct (Resources (description s) !! Base res) as [res'|] eqn:Hr.
    + destruct (IH _ _ _ _ H) as (l & e & Hw & Hlen).
      exists ((Base res, res') :: l), e. split; [|cbn; lia].
      apply walks_hop; [split; assumption|exact Hw].
    + exists [], (EndUnknown (Base res)). split; [|cbn; lia].
      apply walks_unknown; assumption.
Qed.

(** A walk goes the way the hops go. *)
Lemma walks_hop_inv d res res' l e :
  hop d res res' -> walks d res l e ->
  exists l', l = (Base res, res') :: l' /\ walks d res' l' e.
Proof.
  intros [Hp Hr] Hw. inversion Hw as [? Hp'|? ? Hn|? res'' l' ? [_ Hr'] Hw']; subst.
  - unfold isPrimitive in *. congruence.
  - congruence.
  - rewrite Hr in Hr'. injection Hr' as <-. eauto.
Qed.

Lemma walks_tc d res res' l e :
  tc (hop d) res res' -> walks d res l e ->
  exists l', walks d res' l' e /\ length l' < length l.
Proof.
  intros Htc. revert l.
  induction Htc as [r r' Hh|r r' r'' Hh _ IH]; intros l Hw;
    destruct (walks_hop_inv _ _ _ _ _ Hh Hw) as (l' & -> & Hw').
  - exists l'. split; [exact Hw'|cbn; lia].
  - destruct (IH _ Hw') as (l'' & Hw'' & Hlen).
    exists l''. split; [exact Hw''|cbn; lia].
Qed.

Lemma walks_rtc d res res' l e :
  rtc (hop d) res res' -> walks d res l e -> exists l', walks d res' l' e.
Proof.
  intros Hrtc. revert l.
  induction Hrtc as [r|r r' r'' Hh _ IH]; intros l Hw; [eauto|].
  destruct (walks_hop_inv _ _ _ _ _ Hh Hw) as (l' & -> & Hw'). eauto.
Qed.

(** From a resource on a cycle no walk ends. *)
Lemma cycle_no_walk d res l e : tc (hop d) res res -> walks d res l e -> False.
Proof.
  intros Hc.
  assert (Hn : forall n l e, length l < n -> walks d res l e -> False).
  { induction n as [|n IH]; intros l0 e0 Hlen Hw; [lia|].
    destruct (walks_tc _ _ _ _ _ Hc Hw) as (l' & Hw' & Hlen').
    apply (IH l' e0); [lia|exact Hw']. }
  apply (Hn (S (length l))). lia.
Qed.

(** The loop never ends for a resource from which a cycle is reached. *)
Lemma resourceLoop_cycle consts s res res' fuel name kind values :
  rtc (hop (description s)) res res' ->
  tc (hop (description s)) res' res' ->
  resourceLoop consts fuel name res kind values s = OutOfFuel.
Proof.
  intros Hr Hc.
  destruct (resourceLoop consts fuel name res kind values s) eqn:E;
    try reflexivity; exfalso.
  all: destruct (resourceLoop_halts consts s fuel name res kind values)
         as (l & e & Hw & _); [rewrite E; discriminate|].
  all: destruct (walks_rtc _ _ _ _ _ Hr Hw) as (l' & Hw').
  all: exact (cycle_no_walk _ _ _ _ Hc Hw').
Qed.

(** The type of a resource: the integer of its underlying primitive kind. *)
Lemma primitive_type consts fuel name u s :
  isPrimitive u = true ->
  generateArg consts (S fuel) EmptyString name u "inout" [] NoSlot true true s =
    Ok (IntType (mkCommon name DirInOut false) (primitiveSize u) false IntPlain, s).
Proof.
  unfold isPrimitive, string_in, primitiveKinds. cbn [existsb]. intros H.
  repeat (apply orb_true_iff in H as [H|H];
          [apply String.eqb_eq in H as ->; reflexivity|]).
  discriminate H.
Qed.

(** [generateResource] along a walk that ends in a primitive kind. *)
Lemma generateResource_walk consts s res l u fuel :
  walks (description s) res l (EndPrimitive u) ->
  length l < fuel ->
  generateResource consts fuel res s =
    Ok (mkResourceDesc (Resource_Name res)
          (IntType (mkCommon "resource-type" DirInOut false) (primitiveSize u)
             false IntPlain)
          (chainKind res l)
          (if (length (chainValues consts res l) =? 0)%nat
           then ["0"] else chainValues consts res l), s).
Proof.
  intros Hw Hfuel. unfold generateResource.
  rewrite (bind_Ok _ _ _ _ _ (resourceLoop_walk consts s res l _ Hw fuel _ _ _ Hfuel)).
  cbn [fst snd].
  assert (Hu : isPrimitive u = true).
  { clear -Hw. remember (EndPrimitive u) as e eqn:He.
    induction Hw as [res Hp| |]; [injection He as <-; exact Hp|discriminate|auto]. }
  destruct fuel as [|fuel]; [lia|].
  rewrite (bind_Ok _ _ _ _ _ (primitive_type consts fuel _ u s Hu)).
  unfold ret, chainKind, chainValues. rewrite !app_nil_r.
  destruct (concat _ ++ _) as [|v vs] eqn:Ev; reflexivity.
Qed.

(** C7: for a resource whose [Base] chain reaches a primitive kind after
    [length l] hops through the resources [l], the resolved kind chain has
    one entry more than there are hops, the furthest ancestor first and the
    resource itself last; the values are those of the chain members, each
    list in its own order, ancestors before descendants; an empty result is
    replaced by the single value 0. *)
Theorem resource_kind_and_values consts s res l u fuel :
  walks (description s) res l (EndPrimitive u) ->
  length l < fuel ->
  exists rd,
    generateResource consts fuel res s = Ok (rd, s) /\
    Desc_Name rd = Resource_Name res /\
    Desc_Type rd = IntType (mkCommon "resource-type" DirInOut false)
                     (primitiveSize u) false IntPlain /\
    Desc_Kind rd = reverse l.*1 ++ [Resource_Name res] /\
    length (Desc_Kind rd) = length l + 1 /\
    last (Desc_Kind rd) = Some (Resource_Name res) /\
    Desc_Values rd =
      match concat (map (ownValues consts) (reverse l.*2)) ++ ownValues consts res with
      | [] => ["0"]
      | vs => vs
      end.
Proof.
  intros Hw Hfuel.
  eexists. split; [exact (generateResource_walk consts s res l u fuel Hw Hfuel)|].
  cbn [Desc_Name Desc_Type Desc_Kind Desc_Values]. unfold chainKind, chainValues.
  split; [reflexivity|]. split; [reflexivity|]. split; [reflexivity|].
  split; [rewrite length_app, length_reverse, length_fmap; reflexivity|].
  split; [apply last_snoc|].
  destruct (concat _ ++ _); reflexivity.
Qed.

Lemma resource_kind_and_values_witness :
  exists rd,
    generateResource sockConsts 2 sockResource (initState sockDescription)
      = Ok (rd, initState sockDescription) /\
    Desc_Name rd = "sock" /\
    Desc_Type rd = IntType (mkCommon "resource-type" DirInOut false)
                     (primitiveSize "int32") false IntPlain /\
    Desc_Kind rd = ["fd"; "sock"] /\
    length (Desc_Kind rd) = 1 + 1 /\
    last (Desc_Kind rd) = Some "sock" /\
    Desc_Values rd = ["2"; "7"].
Proof.
  apply (resource_kind_and_values sockConsts (initState sockDescription)
           sockResource [("fd", fdResource)] "int32" 2).
  - apply (walks_hop _ sockResource fdResource [] _).
    + split; reflexivity.
    + apply (walks_primitive _ fdResource). reflexivity.
  - cbn. lia.
Defined.

(** ** Cycles in the resource hierarchy *)

(** C4, as stated, fails: there is no check for cycles.  For a resource
    whose [Base] is itself, and for two resources that name each other, the
    loop neither returns nor fails, however many iterations it is given. *)
Lemma resource_cycle_counterexample :
  ~ (exists fuel,
       generateResource ∅ fuel selfResource (initState selfDescription)
         <> OutOfFuel) /\
  ~ (exists fuel,
       generateResource ∅ fuel pingResource (initState pingPongDescription)
         <> OutOfFuel).
Proof.
  split; intros [fuel H]; apply H; unfold generateResource, bind.
  - rewrite (resourceLoop_cycle ∅ (initState selfDescription) selfResource
               selfResource); [reflexivity|apply rtc_refl|].
    apply tc_once. split; reflexivity.
  - rewrite (resourceLoop_cycle ∅ (initState pingPongDescription) pingResource
               pingResource); [reflexivity|apply rtc_refl|].
    apply (tc_l _ _ pongResource); [split; reflexivity|].
    apply tc_once. split; reflexivity.
Qed.

(** C4, amended: the resolution of a resource ends exactly when its [Base]
    chain reaches a primitive kind, and then it succeeds, or a name that is
    neither a primitive kind nor a known resource, and then it fails with
    the error for the unknown parent.  A cycle in the chain is not detected:
    from a resource that reaches one the loop runs forever. *)
Theorem resource_resolution_ends_iff consts s res :
  (forall l u fuel,
     walks (description s) res l (EndPrimitive u) -> length l < fuel ->
     exists rd, generateResource consts fuel res s = Ok (rd, s)) /\
  (forall l b fuel,
     walks (description s) res l (EndUnknown b) -> length l < fuel ->
     generateResource consts fuel res s
       = Fatal (UnknownParentResource (Resource_Name res) b)) /\
  (forall fuel,
     generateResource consts fuel res s <> OutOfFuel ->
     exists l e, walks (description s) res l e /\ length l < fuel) /\
  (forall res' fuel,
     rtc (hop (description s)) res res' ->
     tc (hop (description s)) res' res' ->
     generateResource consts fuel res s = OutOfFuel).
Proof.
  split; [|split; [|split]].
  - intros l u fuel Hw Hfuel. eexists.
    exact (generateResource_walk consts s res l u fuel Hw Hfuel).
  - intros l b fuel Hw Hfuel. unfold generateResource, bind.
    rewrite (resourceLoop_walk consts s res l _ Hw fuel _ _ _ Hfuel).
    reflexivity.
  - intros fuel H.
    apply (resourceLoop_halts consts s fuel (Resource_Name res) res
             [Resource_Name res] []).
    intros Hloop. apply H. unfold generateResource, bind.
    rewrite Hloop. reflexivity.
  - intros res' fuel Hr Hc. unfold generateResource, bind.
    rewrite (resourceLoop_cycle consts s res res' fuel _ _ _ Hr Hc).
    reflexivity.
Qed.

Lemma resource_resolution_ends_iff_witness :
  generateResource ∅ 1 orphanResource (initState emptyDescription)
    = Fatal (UnknownParentResource "sock" "nosuch") /\
  generateResource ∅ 5 selfResource (initState selfDescription) = OutOfFuel.
Proof.
  split.
  - destruct (resource_resolution_ends_iff ∅ (initState emptyDescription)
                orphanResource) as (_ & H & _).
    apply (H [] "nosuch" 1); [|cbn; lia].
    apply (walks_unknown _ orphanResource); reflexivity.
  - destruct (resource_resolution_ends_iff ∅ (initState selfDescription)
                selfResource) as (_ & _ & _ & H).
    apply (H selfResource 5); [apply rtc_refl|].
    apply tc_once. split; reflexivity.
Defined.

(** ** Struct instances *)

(** Tokens without spaces can be read back from the printed key: two keys
    are printed alike only if they are the same key. *)
Lemma first_space_splits a a' r r' :
  spaceFree a = true -> spaceFree a' = true ->
  a +:+ String " " r = a' +:+ String " " r' -> a = a' /\ r = r'.
Proof.
  revert a'. induction a as [|c a IH]; intros [|c' a'] Ha Ha' H; cbn in *.
  - injection H as <-. auto.
  - injection H as <- _. apply andb_true_iff in Ha' as [Hc _]. discriminate Hc.
  - injection H as -> _. apply andb_true_iff in Ha as [Hc _]. discriminate Hc.
  - injection H as <- H.
    apply andb_true_iff in Ha as [_ Ha]. apply andb_true_iff in Ha' as [_ Ha'].
    destruct (IH a' Ha Ha' H) as [-> ->]. auto.
Qed.

Lemma append_inj_l (a a' r : string) : a +:+ r = a' +:+ r -> a = a'.
Proof.
  intros H.
  assert (Hlen : String.length a = String.length a').
  { apply (f_equal String.length) in H.
    rewrite !string_length_app in H. lia. }
  revert a' H Hlen. induction a as [|c a IH]; intros [|c' a'] H Hlen;
    try discriminate Hlen; [reflexivity|].
  cbn in H. injection H as -> H. injection Hlen as Hlen.
  rewrite (IH a' H Hlen). reflexivity.
Qed.

Lemma fmtKey_inj k1 k2 :
  spaceFree (name k1) = true -> spaceFree (field k1) = true ->
  spaceFree (name k2) = true -> spaceFree (field k2) = true ->
  fmtKey k1 = fmtKey k2 -> k1 = k2.
Proof.
  destruct k1 as [n1 f1 d1], k2 as [n2 f2 d2]. unfold fmtKey. cbn [name field dir].
  intros Hn1 Hf1 Hn2 Hf2 H.
  cbn [String.append] in H. injection H as H.
  destruct (first_space_splits _ _ _ _ Hn1 Hn2 H) as [-> H1].
  destruct (first_space_splits _ _ _ _ Hf1 Hf2 H1) as [-> H2].
  apply append_inj_l in H2 as ->. reflexivity.
Qed.

Lemma registerDirs_in n f id m dr :
  dr ∈ directions -> registerDirs n f id m !! mkKey n f dr = Some id.
Proof.
  unfold registerDirs, directions. cbn [foldl]. intros H.
  repeat (apply elem_of_cons in H as [->|H]).
  - rewrite lookup_insert_ne by discriminate.
    rewrite lookup_insert_ne by discriminate. apply lookup_insert_eq.
  - rewrite lookup_insert_ne by discriminate. apply lookup_insert_eq.
  - apply lookup_insert_eq.
  - inversion H.
Qed.

Lemma registerDirs_lookup n f id m k v :
  registerDirs n f id m !! k = Some v ->
  (v = id /\ name k = n) \/ m !! k = Some v.
Proof.
  unfold registerDirs, directions. cbn [foldl]. intros Hv.
  rewrite !lookup_insert in Hv.
  repeat case_decide; subst; cbn in *;
    first [right; exact Hv | left; injection Hv as <-; auto].
Qed.

Lemma registerDirs_mono n f id m k :
  is_Some (m !! k) -> is_Some (registerDirs n f id m !! k).
Proof.
  unfold registerDirs, directions. cbn [foldl]. intros H.
  rewrite !lookup_insert_is_Some'. auto.
Qed.

Lemma registerFields_mono d flds m m' k :
  registerFields d flds m = Ok m' -> is_Some (m !! k) -> is_Some (m' !! k).
Proof.
  revert m. induction flds as [|a flds IH]; intros m H Hk; cbn [registerFields buildStructMap] in H.
  - injection H as <-. exact Hk.
  - destruct (a !! 1) as [a1|]; [|discriminate].
    destruct (decide (is_Some (Structs d !! a1))); [|eauto].
    destruct (a !! 0) as [a0|]; [|discriminate].
    apply (IH _ H). apply registerDirs_mono, Hk.
Qed.

Lemma registerFields_adds d flds m m' a f S dr :
  registerFields d flds m = Ok m' ->
  a ∈ flds -> a !! 0 = Some f -> a !! 1 = Some S ->
  is_Some (Structs d !! S) -> dr ∈ directions ->
  is_Some (m' !! mkKey S f dr).
Proof.
  intros H Ha Hf HS Hs Hd. revert m H.
  induction flds as [|b flds IH]; intros m H; [inversion Ha|].
  cbn [registerFields buildStructMap] in H.
  destruct (b !! 1) as [b1|] eqn:Hb1; [|discriminate].
  apply elem_of_cons in Ha as [->|Ha].
  - rewrite HS in Hb1. injection Hb1 as <-.
    destruct (decide (is_Some (Structs d !! S))); [|contradiction].
    rewrite Hf in H.
    apply (registerFields_mono _ _ _ _ _ H).
    rewrite registerDirs_in by exact Hd. eauto.
  - destruct (decide (is_Some (Structs d !! b1))); [|eauto].
    destruct (b !! 0) as [b0|]; [|discriminate]. eauto.
Qed.

Lemma registerFields_values d flds m m' :
  registerFields d flds m = Ok m' ->
  (forall k v, m !! k = Some v -> v = name k) ->
  forall k v, m' !! k = Some v -> v = name k.
Proof.
  revert m. induction flds as [|a flds IH]; intros m H Hm; cbn [registerFields buildStructMap] in H.
  - injection H as <-. exact Hm.
  - destruct (a !! 1) as [a1|]; [|discriminate].
    destruct (decide (is_Some (Structs d !! a1))); [|eauto].
    destruct (a !! 0) as [a0|]; [|discriminate].
    apply (IH _ H). intros k v Hk.
    apply registerDirs_lookup in Hk as [[-> ->]|Hk]; [reflexivity|eauto].
Qed.

Lemma buildStructMap_mono d order m m' k :
  buildStructMap d order m = Ok m' -> is_Some (m !! k) -> is_Some (m' !! k).
Proof.
  revert m. induction order as [|[id str] order IH]; intros m H Hk; cbn [registerFields buildStructMap] in H.
  - injection H as <-. exact Hk.
  - destruct (registerFields d (Flds str) _) as [m1| | |] eqn:E; try discriminate.
    apply (IH _ H). apply (registerFields_mono _ _ _ _ _ E).
    apply registerDirs_mono, Hk.
Qed.

(** Pass 1 registers every definition under the empty field name, and every
    struct-typed field under its field name, in all three directions. *)
Lemma buildStructMap_adds d order m m' id str :
  buildStructMap d order m = Ok m' ->
  (id, str) ∈ order ->
  forall dr, dr ∈ directions ->
    is_Some (m' !! mkKey (Struct_Name str) EmptyString dr) /\
    forall a f S,
      a ∈ Flds str -> a !! 0 = Some f -> a !! 1 = Some S ->
      is_Some (Structs d !! S) ->
      is_Some (m' !! mkKey S f dr).
Proof.
  intros H Hin dr Hd. revert m H.
  induction order as [|[id' str'] order IH]; intros m H; [inversion Hin|].
  cbn [registerFields buildStructMap] in H.
  destruct (registerFields d (Flds str') _) as [m1| | |] eqn:E; try discriminate.
  apply elem_of_cons in Hin as [[= <- <-]|Hin]; [|eauto].
  split.
  - apply (buildStructMap_mono _ _ _ _ _ H).
    apply (registerFields_mono _ _ _ _ _ E).
    rewrite registerDirs_in by exact Hd. eauto.
  - intros a f S Ha Hf HS Hs.
    apply (buildStructMap_mono _ _ _ _ _ H).
    exact (registerFields_adds _ _ _ _ _ _ _ _ E Ha Hf HS Hs Hd).
Qed.

Lemma buildStructMap_values d order m m' :
  wellNamed d ->
  (forall id str, (id, str) ∈ order -> Structs d !! id = Some str) ->
  buildStructMap d order m = Ok m' ->
  (forall k v, m !! k = Some v -> v = name k) ->
  forall k v, m' !! k = Some v -> v = name k.
Proof.
  intros Hwf. revert m.
  induction order as [|[id str] order IH]; intros m Hord H Hm; cbn [registerFields buildStructMap] in H.
  - injection H as <-. exact Hm.
  - destruct (registerFields d (Flds str) _) as [m1| | |] eqn:E; try discriminate.
    apply (IH m1); [intros; apply Hord; right; assumption|exact H|].
    apply (registerFields_values _ _ _ _ E).
    intros k v Hk.
    apply registerDirs_lookup in Hk as [[-> ->]|Hk]; [|eauto].
    symmetry. apply Hwf, Hord. left.
Qed.

Lemma generateStructFields_key consts fuel key id s kf s' :
  generateStructFields consts fuel key id s = Ok (kf, s') -> kf.1 = key.
Proof.
  unfold generateStructFields. intros H.
  apply bind_Ok_inv in H as (d & s1 & _ & H).
  apply bind_Ok_inv in H as (flds & s2 & _ & H).
  apply ret_Ok_inv in H as [-> _]. reflexivity.
Qed.

Lemma generateStructEntry_key key id s ke s' :
  generateStructEntry key id s = Ok (ke, s') -> ke.1 = key.
Proof.
  unfold generateStructEntry. intros H.
  apply bind_Ok_inv in H as (d & s1 & _ & H).
  apply bind_Ok_inv in H as (dr & s2 & _ & H).
  apply ret_Ok_inv in H as [-> _]. reflexivity.
Qed.

(** Pass 2 of [generateStructs]: the two printed tables have one line for
    each element of the schedule, in its order, and each field list comes
    from the run of [generateStructFields] for its line. *)
Lemma generateStructs_Ok_inv consts fuel sched s entries fields s' :
  generateStructs consts fuel sched s = Ok (entries, fields, s') ->
  entries.*1 = (entryOrder sched).*1 /\
  fields.*1 = (fieldOrder sched).*1 /\
  Forall2 (fun ks kf => exists s1 s2,
             generateStructFields consts fuel ks.1 ks.2 s1 = Ok (kf, s2))
    (fieldOrder sched) fields.
Proof.
  unfold generateStructs. intros H.
  apply bind_Ok_inv in H as (d & s1 & _ & H).
  apply bind_Ok_inv in H as (m & s2 & _ & H).
  apply bind_Ok_inv in H as (es & s3 & He & H).
  apply bind_Ok_inv in H as (fs & s4 & Hf & H).
  apply ret_Ok_inv in H as [[= -> ->] ->].
  apply mapM_Ok in He. apply mapM_Ok in Hf.
  split; [|split; [|exact Hf]].
  - clear Hf. induction He as [|ks ke l k (sa & sb & Hrun) _ IH]; [reflexivity|].
    cbn. rewrite IH, (generateStructEntry_key _ _ _ _ _ Hrun). reflexivity.
  - clear He. induction Hf as [|ks kf l k (sa & sb & Hrun) _ IH]; [reflexivity|].
    cbn. rewrite IH, (generateStructFields_key _ _ _ _ _ _ _ Hrun). reflexivity.
Qed.

(** A key of the struct map has its line in the table of field lists. *)
Lemma instance_of_key consts fuel sched s entries fields s' m k id :
  generateStructs consts fuel sched s = Ok (entries, fields, s') ->
  fieldOrder sched ≡ₚ map_to_list m ->
  m !! k = Some id ->
  exists i flds s1 s2,
    fields !! i = Some (k, flds) /\
    generateStructFields consts fuel k id s1 = Ok (k, flds, s2).
Proof.
  intros H Hperm Hk.
  apply generateStructs_Ok_inv in H as (_ & _ & Hf).
  assert (Hin : (k, id) ∈ fieldOrder sched).
  { rewrite Hperm. apply elem_of_map_to_list. exact Hk. }
  apply list_elem_of_lookup in Hin as [i Hi].
  destruct (Forall2_lookup_l _ _ _ i _ Hf Hi) as ([k' flds] & Hfi & s1 & s2 & Hrun).
  cbn [fst snd] in Hrun.
  assert (k' = k) as -> by exact (generateStructFields_key _ _ _ _ _ _ _ Hrun).
  eauto 6.
Qed.

(** C6: a struct or union usage compiles to the reference with the key
    (struct name, calling field name, direction), so two usages with the
    same key denote the same instance, of which the table holds exactly one.
    The same struct under two different field names (or in two directions)
    has two keys and two lines in the table, at different places, each with
    a field list compiled by a run of its own from the one definition.  Keys
    made of tokens without spaces are printed differently when they differ. *)
Theorem struct_instances consts fuel sched s entries fields s' :
  wellNamed (description s) ->
  valid_schedule (description s) sched ->
  generateStructs consts fuel sched s = Ok (entries, fields, s') ->
  (forall fuel' parent name typ dir a sl isField st,
     classify typ = CDefault ->
     HasPrefix typ "unnamed" = false ->
     is_Some (Structs (description st) !! typ) ->
     paramsOf a = [] ->
     generateArg consts (S fuel') parent name typ dir a sl false isField st
       = Ok (StructRef (mkKey typ name dir), afterScan sl a st)) /\
  NoDup fields.*1 /\
  entries.*1 ≡ₚ fields.*1 /\
  (forall id str dr,
     Structs (description s) !! id = Some str -> dr ∈ directions ->
     exists i flds s1 s2,
       fields !! i = Some (mkKey id EmptyString dr, flds) /\
       generateStructFields consts fuel (mkKey id EmptyString dr) id s1
         = Ok (mkKey id EmptyString dr, flds, s2)) /\
  (forall S f dr,
     usedAsField (description s) S f -> dr ∈ directions ->
     exists i flds s1 s2,
       fields !! i = Some (mkKey S f dr, flds) /\
       generateStructFields consts fuel (mkKey S f dr) S s1
         = Ok (mkKey S f dr, flds, s2)) /\
  (forall S f1 f2 d1 d2,
     usedAsField (description s) S f1 -> usedAsField (description s) S f2 ->
     d1 ∈ directions -> d2 ∈ directions ->
     f1 <> f2 \/ d1 <> d2 ->
     exists i1 i2 l1 l2 s1 s1' s2 s2',
       i1 <> i2 /\
       fields !! i1 = Some (mkKey S f1 d1, l1) /\
       fields !! i2 = Some (mkKey S f2 d2, l2) /\
       generateStructFields consts fuel (mkKey S f1 d1) S s1
         = Ok (mkKey S f1 d1, l1, s1') /\
       generateStructFields consts fuel (mkKey S f2 d2) S s2
         = Ok (mkKey S f2 d2, l2, s2')) /\
  (forall k1 k2,
     spaceFree (name k1) = true -> spaceFree (field k1) = true ->
     spaceFree (name k2) = true -> spaceFree (field k2) = true ->
     fmtKey k1 = fmtKey k2 -> k1 = k2).
Proof.
  intros Hwf (_ & _ & Hord & m & Hm & Hpe & Hpf) H.
  unfold structMap in Hm.
  assert (Hvals : forall k v, m !! k = Some v -> v = name k).
  { apply (buildStructMap_values (description s) (structOrder sched) ∅ m Hwf).
    - intros id str Hin. rewrite Hord in Hin.
      apply elem_of_map_to_list in Hin. exact Hin.
    - exact Hm.
    - intros k v Hk. rewrite lookup_empty in Hk. discriminate. }
  assert (Htop : forall id str dr,
            Structs (description s) !! id = Some str -> dr ∈ directions ->
            m !! mkKey id EmptyString dr = Some id).
  { intros id str dr Hid Hd.
    destruct (buildStructMap_adds _ _ _ _ id str Hm) with (dr := dr)
      as [[v Hv] _]; [|exact Hd|].
    { rewrite Hord. apply elem_of_map_to_list. exact Hid. }
    rewrite (Hwf _ _ Hid) in Hv. rewrite Hv. f_equal.
    exact (Hvals _ _ Hv). }
  assert (Hfld : forall S f dr,
            usedAsField (description s) S f -> dr ∈ directions ->
            m !! mkKey S f dr = Some S).
  { intros S f dr (T & strT & a & HT & Ha & Hf & HS & Hs) Hd.
    destruct (buildStructMap_adds _ _ _ _ T strT Hm) with (dr := dr)
      as [_ Hadd]; [|exact Hd|].
    { rewrite Hord. apply elem_of_map_to_list. exact HT. }
    destruct (Hadd a f S Ha Hf HS Hs) as [v Hv].
    rewrite Hv. f_equal. exact (Hvals _ _ Hv). }
  assert (Hinv := generateStructs_Ok_inv _ _ _ _ _ _ _ H).
  destruct Hinv as (He & Hf & _).
  assert (Hnd : NoDup fields.*1).
  { rewrite Hf, Hpf. apply NoDup_fst_map_to_list. }
  split; [intros; apply struct_nested; assumption|].
  split; [exact Hnd|].
  split; [rewrite He, Hf, Hpe, Hpf; reflexivity|].
  split; [|split; [|split; [|exact fmtKey_inj]]].
  - intros id str dr Hid Hd.
    exact (instance_of_key _ _ _ _ _ _ _ _ _ _ H Hpf (Htop _ _ _ Hid Hd)).
  - intros S f dr Hu Hd.
    exact (instance_of_key _ _ _ _ _ _ _ _ _ _ H Hpf (Hfld _ _ _ Hu Hd)).
  - intros S f1 f2 d1 d2 Hu1 Hu2 Hd1 Hd2 Hne.
    destruct (instance_of_key _ _ _ _ _ _ _ _ _ _ H Hpf (Hfld _ _ _ Hu1 Hd1))
      as (i1 & l1 & s1 & s1' & Hi1 & Hr1).
    destruct (instance_of_key _ _ _ _ _ _ _ _ _ _ H Hpf (Hfld _ _ _ Hu2 Hd2))
      as (i2 & l2 & s2 & s2' & Hi2 & Hr2).
    exists i1, i2, l1, l2, s1, s1', s2, s2'.
    split; [|auto].
    intros ->. rewrite Hi1 in Hi2. injection Hi2 as -> -> _.
    destruct Hne as [Hne|Hne]; apply Hne; reflexivity.
Qed.

Lemma pairDescription_wellNamed : wellNamed pairDescription.
Proof.
  intros id str H. cbn [Structs pairDescription] in H.
  apply lookup_insert_Some in H as [[<- <-]|[_ H]]; [reflexivity|].
  apply lookup_insert_Some in H as [[<- <-]|[_ H]]; [reflexivity|].
  rewrite lookup_empty in H. discriminate.
Qed.

Lemma pairSchedule_valid : valid_schedule pairDescription pairSchedule.
Proof.
  split; [reflexivity|]. split; [constructor|]. split; [reflexivity|].
  exists pairStructMap. split.
  - unfold structMap, pairStructMap. cbn [structOrder pairSchedule].
    assert (Hok : match buildStructMap pairDescription
                          (map_to_list (Structs pairDescription)) ∅ with
                  | Ok _ => true
                  | _ => false
                  end = true) by (vm_compute; reflexivity).
    destruct (buildStructMap pairDescription _ ∅); try discriminate Hok.
    reflexivity.
  - split; reflexivity.
Qed.

Lemma point_used_as_field f :
  f = "first" \/ f = "second" -> usedAsField pairDescription "point" f.
Proof.
  intros Hf. exists "pair", pairStruct.
  destruct Hf as [-> | ->].
  - exists ["first"; "point"]. repeat split; [left| ].
    exists pointStruct. reflexivity.
  - exists ["second"; "point"]. repeat split; [right; left| ].
    exists pointStruct. reflexivity.
Qed.

Lemma struct_instances_witness :
  exists i1 i2 l1 l2 s1 s1' s2 s2',
    i1 <> i2 /\
    pairTables.2 !! i1 = Some (mkKey "point" "first" "in", l1) /\
    pairTables.2 !! i2 = Some (mkKey "point" "second" "in", l2) /\
    generateStructFields ∅ 2 (mkKey "point" "first" "in") "point" s1
      = Ok (mkKey "point" "first" "in", l1, s1') /\
    generateStructFields ∅ 2 (mkKey "point" "second" "in") "point" s2
      = Ok (mkKey "point" "second" "in", l2, s2').
Proof.
  assert (Hok : match generateStructs ∅ 2 pairSchedule (initState pairDescription) with
                | Ok _ => true
                | _ => false
                end = true) by (vm_compute; reflexivity).
  unfold pairTables.
  destruct (generateStructs ∅ 2 pairSchedule (initState pairDescription))
    as [[[entries fields] st]| | |] eqn:E; try discriminate Hok.
  destruct (struct_instances ∅ 2 pairSchedule (initState pairDescription)
              entries fields st pairDescription_wellNamed pairSchedule_valid E)
    as (_ & _ & _ & _ & _ & H & _).
  apply (H "point" "first" "second" "in" "in").
  - apply point_used_as_field. left. reflexivity.
  - apply point_used_as_field. right. reflexivity.
  - left.
  - left.
  - left. discriminate.
Defined.

(** ** The description is rewritten in place *)

(** The scan for [opt] shifts the parameters in the array they share with
    the description.  When [opt] is not the last parameter the next
    compilation of the same field sees other parameters than the first: for
    the field [x int32[opt, 1:2]] the first instance is an optional range,
    the array is left as [1:2, 1:2], and the second instance is refused, so
    that [generateStructs] fails for a struct with such a field. *)
Example opt_is_shifted_in_place :
  exists s',
    generateArg ∅ 1 "T" "x" "int32" "in" ["opt"; "1:2"] (FldSlot "T" 0)
      false true (initState optFirstDescription)
    = Ok (IntType (mkCommon "x" DirIn true) 4 false (IntRange "1" "2"), s') /\
    Flds (structOf (description s') "T") = [["x"; "int32"; "1:2"; "1:2"]] /\
    generateArg ∅ 1 "T" "x" "int32" "out" ["1:2"; "1:2"] (FldSlot "T" 0)
      false true s'
    = Fatal (WrongNumberOfArguments "int32" "x" 2) /\
    generateStructs ∅ 1 optFirstSchedule (initState optFirstDescription)
    = Fatal (WrongNumberOfArguments "int32" "x" 2).
Proof.
  eexists. split; [reflexivity|].
  split; [vm_compute; reflexivity|].
  split; vm_compute; reflexivity.
Qed.

(** * Further properties *)

(** ** [decodeIntType] *)

Lemma append_empty_r s : s +:+ EmptyString = s.
Proof.
  induction s as [|c s IH]; [reflexivity|].
  change (String c (s +:+ EmptyString) = String c s). f_equal. exact IH.
Qed.

Lemma substring_all s : String.substring 0 (String.length s) s = s.
Proof. induction s as [|c s IH]; cbn; [reflexivity|]. rewrite IH. reflexivity. Qed.

Lemma substring_split s k :
  k <= String.length s ->
  s = String.substring 0 k s +:+ String.substring k (String.length s - k) s.
Proof.
  revert k. induction s as [|c s IH]; intros [|k] Hk; cbn in *; try lia.
  - reflexivity.
  - rewrite substring_all. reflexivity.
  - change (String c s = String c (String.substring 0 k s +:+
                  String.substring k (String.length s - k) s)).
    f_equal. apply IH. lia.
Qed.

Lemma HasSuffix_split s suf :
  HasSuffix s suf = true ->
  s = string_drop_end (String.length suf) s +:+ suf.
Proof.
  unfold HasSuffix, string_drop_end. intros H.
  destruct (Nat.leb_spec (String.length suf) (String.length s)) as [Hle|]; [|discriminate].
  apply String.eqb_eq in H.
  rewrite (substring_split s (String.length s - String.length suf)) at 1 by lia.
  replace (String.length s - (String.length s - String.length suf))
    with (String.length suf) by lia.
  rewrite H. reflexivity.
Qed.

Lemma string_in_cases s l : string_in s l = true -> s ∈ l.
Proof.
  unfold string_in. induction l as [|x l IH]; cbn; [discriminate|].
  intros H. apply orb_true_iff in H as [H|H].
  - apply String.eqb_eq in H as ->. left.
  - right. auto.
Qed.

(** What a successful run of [decodeIntType] has read. *)
Lemma decodeIntType_Ok_inv typ s size bigEndian s' :
  decodeIntType typ s = Ok (size, bigEndian, s') ->
  s' = s /\
  exists base, base ∈ primitiveKinds /\
    typ = base +:+ (if bigEndian then "be" else EmptyString) /\
    size = primitiveSize base.
Proof.
  unfold decodeIntType. intros H.
  destruct (HasSuffix typ "be") eqn:Hbe.
  - assert (Hsplit := HasSuffix_split _ _ Hbe). cbn [String.length] in Hsplit.
    remember (string_drop_end 2 typ) as base eqn:Hb. clear Hb.
    minv.
    match goal with Hin : negb _ = false |- _ =>
      apply negb_false_iff, string_in_cases in Hin; rename Hin into Hbase end.
    match goal with He : (_, _) = (_, _) |- _ => injection He as -> -> end.
    split; [reflexivity|]. exists base. split; [exact Hbase|].
    split; [first [exact Hsplit|reflexivity]|].
    unfold primitiveKinds in Hbase.
    repeat (apply elem_of_cons in Hbase as [->|Hbase]; [reflexivity|]).
    inversion Hbase.
  - minv.
    match goal with Hin : negb _ = false |- _ =>
      apply negb_false_iff, string_in_cases in Hin; rename Hin into Hbase end.
    match goal with He : (_, _) = (_, _) |- _ => injection He as -> -> end.
    split; [reflexivity|]. exists typ. split; [exact Hbase|].
    split; [|unfold primitiveKinds in Hbase;
             repeat (apply elem_of_cons in Hbase as [->|Hbase]; [reflexivity|]);
             inversion Hbase].
    symmetry. apply append_empty_r.
Qed.

(** X1: [decodeIntType] accepts the five primitive kinds, each with or
    without the suffix [be], and nothing else; the size is that of the kind,
    and the type is big-endian exactly when the suffix is there.  The state
    is not touched. *)
Theorem decodeIntType_accepts typ s size bigEndian s' :
  decodeIntType typ s = Ok (size, bigEndian, s') <->
  s' = s /\
  exists base, base ∈ primitiveKinds /\
    typ = base +:+ (if bigEndian then "be" else EmptyString) /\
    size = primitiveSize base.
Proof.
  split; [apply decodeIntType_Ok_inv|].
  intros (-> & base & Hb & -> & ->). unfold primitiveKinds in Hb.
  repeat (apply elem_of_cons in Hb as [->|Hb];
          [destruct bigEndian; reflexivity|]).
  inversion Hb.
Qed.

(** ** Numerals and identifiers *)

Lemma digit_not_first c d : digit_of c = Some d -> isIdentChar true c = false.
Proof.
  unfold digit_of, isIdentChar. intros H.
  destruct ((48 <=? N_of_ascii c)%N && (N_of_ascii c <=? 57)%N) eqn:E; [|discriminate].
  apply andb_true_iff in E as [E1 E2].
  apply N.leb_le in E1, E2.
  destruct (Ascii.eqb_spec c "_") as [->|_]; [cbn in E2; lia|].
  cbn [negb andb orb].
  destruct (N.leb_spec 97 (N_of_ascii c)); [lia|].
  destruct (N.leb_spec 65 (N_of_ascii c)); [|reflexivity].
  destruct (N.leb_spec (N_of_ascii c) 90); [lia|reflexivity].
Qed.

(** A token that [ParseUint] reads as a number is no identifier: it starts
    with a digit. *)
Lemma ParseUint_not_identifier s n : ParseUint s = Some n -> isIdentifier s = false.
Proof.
  unfold ParseUint, isIdentifier. destruct s as [|c s]; [discriminate|].
  cbn [parseDigits isIdentifier_from].
  destruct (digit_of c) as [d|] eqn:Hd; [|discriminate].
  intros _. rewrite (digit_not_first _ _ Hd). reflexivity.
Qed.

Lemma sign_not_first c :
  Ascii.eqb c "+" = true \/ Ascii.eqb c "-" = true -> isIdentChar true c = false.
Proof. intros [H|H]; apply Ascii.eqb_eq in H as ->; reflexivity. Qed.

(** X2: numerals are never taken for symbols: a token that [ParseUint] or
    [ParseInt] accepts fails [isIdentifier], so the loops that resolve symbols
    keep it as it is written. *)
Theorem numerals_are_not_identifiers s :
  (forall n, ParseUint s = Some n -> isIdentifier s = false) /\
  (forall bits z, ParseInt s bits = Some z -> isIdentifier s = false).
Proof.
  split; [exact (ParseUint_not_identifier s)|].
  intros bits z. unfold ParseInt. destruct s as [|c s]; [discriminate|].
  destruct (Ascii.eqb c "+") eqn:Ep.
  { intros _. unfold isIdentifier. cbn [isIdentifier_from].
    rewrite sign_not_first by auto. reflexivity. }
  destruct (Ascii.eqb c "-") eqn:Em.
  { intros _. unfold isIdentifier. cbn [isIdentifier_from].
    rewrite sign_not_first by auto. reflexivity. }
  destruct (ParseUint (String c s)) as [un|] eqn:E; [|discriminate].
  intros _. exact (ParseUint_not_identifier _ _ E).
Qed.

Lemma numerals_are_not_identifiers_witness :
  isIdentifier "42" = false /\ isIdentifier "-1" = false.
Proof.
  destruct (numerals_are_not_identifiers "42") as [H1 _].
  destruct (numerals_are_not_identifiers "-1") as [_ H2].
  split; [apply (H1 42%N); reflexivity|apply (H2 64%N (-1)%Z); reflexivity].
Defined.

(** ** [parseRange] *)

Lemma append_assoc_ (a b c : string) : (a +:+ b) +:+ c = a +:+ b +:+ c.
Proof.
  induction a as [|x a IH]; [reflexivity|].
  change (String x ((a +:+ b) +:+ c) = String x (a +:+ b +:+ c)). f_equal. exact IH.
Qed.

Lemma rev_app_append s acc : String.rev_app s acc = String.rev s +:+ acc.
Proof.
  unfold String.rev. revert acc.
  induction s as [|c s IH]; intros acc; cbn [String.rev_app]; [reflexivity|].
  rewrite (IH (String c acc)), (IH (String c EmptyString)), append_assoc_.
  reflexivity.
Qed.

Lemma rev_String c s : String.rev (String c s) = String.rev s +:+ String c EmptyString.
Proof. unfold String.rev at 1. cbn [String.rev_app]. apply rev_app_append. Qed.

Lemma split_colon_go_free cur s :
  colonFree s = true ->
  split_colon_go cur s = [String.rev cur +:+ s].
Proof.
  revert cur. induction s as [|c s IH]; intros cur H; cbn [split_colon_go colonFree] in *.
  - rewrite append_empty_r. reflexivity.
  - apply andb_true_iff in H as [Hc Hs]. apply negb_true_iff in Hc. rewrite Hc.
    rewrite (IH _ Hs), rev_String, append_assoc_. reflexivity.
Qed.

Lemma split_colon_go_first cur l r :
  colonFree l = true ->
  split_colon_go cur (l +:+ String ":" r) =
    (String.rev cur +:+ l) :: split_colon_go EmptyString r.
Proof.
  revert cur. induction l as [|c l IH]; intros cur H.
  - change (EmptyString +:+ String ":" r) with (String ":" r).
    cbn [split_colon_go]. change (Ascii.eqb ":" ":") with true. cbv iota.
    rewrite append_empty_r. reflexivity.
  - cbn [colonFree] in H. apply andb_true_iff in H as [Hc Hl]. apply negb_true_iff in Hc.
    change (String c l +:+ String ":" r) with (String c (l +:+ String ":" r)).
    cbn [split_colon_go]. rewrite Hc, (IH _ Hl), rev_String, append_assoc_.
    reflexivity.
Qed.

Lemma split_colon_go_length cur s : length (split_colon_go cur s) = S (colons s).
Proof.
  revert cur. induction s as [|c s IH]; intros cur; cbn [split_colon_go colons];
    [reflexivity|].
  destruct (Ascii.eqb c ":"); cbn [length]; rewrite IH; reflexivity.
Qed.

(** X3: [parseRange]: a token without a colon is looked up as a whole and
    gives both bounds; with one colon the two sides are looked up separately,
    whatever they are, the empty string included; with more colons the range
    is refused. No bound is checked to be a number, nor the first to be at
    most the second. *)
Theorem parseRange_cases consts s :
  (forall b, colonFree b = true ->
     parseRange b consts s = Ok (lookupConst consts b, lookupConst consts b, s)) /\
  (forall l r, colonFree l = true -> colonFree r = true ->
     parseRange (l +:+ String ":" r) consts s =
       Ok (lookupConst consts l, lookupConst consts r, s)) /\
  (forall b, 2 <= colons b -> parseRange b consts s = Fatal (BadRange b)).
Proof.
  split; [|split].
  - intros b Hb. unfold parseRange, split_colon.
    rewrite (split_colon_go_free _ _ Hb). reflexivity.
  - intros l r Hl Hr. unfold parseRange, split_colon.
    rewrite (split_colon_go_first _ _ _ Hl), (split_colon_go_free _ _ Hr).
    reflexivity.
  - intros b Hb. unfold parseRange, split_colon.
    assert (Hlen := split_colon_go_length EmptyString b).
    destruct (split_colon_go EmptyString b) as [|p0 [|p1 [|p2 ps]]];
      cbn [length] in Hlen; try lia.
    reflexivity.
Qed.

Lemma parseRange_cases_witness :
  parseRange "0:PAGE" (<["PAGE" := 4096%N]> ∅) (initState emptyDescription)
    = Ok ("0", "4096", initState emptyDescription) /\
  parseRange "1:2:3" (<["PAGE" := 4096%N]> ∅) (initState emptyDescription)
    = Fatal (BadRange "1:2:3").
Proof.
  destruct (parseRange_cases (<["PAGE" := 4096%N]> ∅) (initState emptyDescription))
    as (_ & H2 & H3).
  split; [apply (H2 "0" "PAGE"); reflexivity|apply (H3 "1:2:3"); cbn; lia].
Defined.

(** ** The numerals that are printed for constants *)

Lemma parseDigits_string_of_uint d acc :
  parseDigits (NilEmpty.string_of_uint d) acc = Some (uintValue d acc).
Proof.
  revert acc. induction d; intros acc; cbn [NilEmpty.string_of_uint uintValue];
    [reflexivity|..]; cbn [parseDigits]; apply IHd.
Qed.

Lemma uintValue_pos d acc :
  uintValue d (Npos acc) = Npos (Pos.of_uint_acc d acc).
Proof.
  revert acc. induction d; intros acc; cbn [uintValue Pos.of_uint_acc];
    [reflexivity|..];
    match goal with
    | |- uintValue _ ?x = Npos (Pos.of_uint_acc _ ?y) =>
        replace x with (Npos y) by lia
    end; apply IHd.
Qed.

Lemma uintValue_of_uint d : uintValue d 0 = N.of_uint d.
Proof.
  unfold N.of_uint.
  induction d; cbn [uintValue Pos.of_uint]; [reflexivity|exact IHd|..];
    apply (uintValue_pos d).
Qed.

Lemma Sprint_not_empty v : Sprint v <> EmptyString.
Proof.
  unfold Sprint, NilZero.string_of_uint.
  destruct (N.to_uint v); cbn; discriminate.
Qed.

Lemma ParseUint_Sprint v : (v < 2 ^ 64)%N -> ParseUint (Sprint v) = Some v.
Proof.
  intros Hv. unfold ParseUint.
  destruct (Sprint v) as [|c str] eqn:E; [exfalso; exact (Sprint_not_empty v E)|].
  rewrite <- E. clear E c str.
  assert (Hp : parseDigits (Sprint v) 0 = Some v).
  { unfold Sprint, NilZero.string_of_uint.
    destruct (N.to_uint v) eqn:E;
      [destruct v as [|p]; [discriminate E|];
       exfalso; exact (DecimalPos.Unsigned.to_uint_nonnil p E)|..];
      rewrite <- E, parseDigits_string_of_uint, uintValue_of_uint,
        DecimalN.Unsigned.of_to; reflexivity. }
  rewrite Hp. destruct (N.ltb_spec v (2 ^ 64)); [reflexivity|lia].
Qed.

(** X4: where a name has a constant, [parseRange] and the other places that
    resolve names print the decimal numeral of the value: text that reads back
    as the value and that is not taken for a name when it is resolved again. *)
Theorem resolved_constant_is_numeral consts nm v :
  consts !! nm = Some v ->
  (v < 2 ^ 64)%N ->
  ParseUint (lookupConst consts nm) = Some v /\
  isIdentifier (lookupConst consts nm) = false /\
  forall s, colonFree nm = true ->
    parseRange nm consts s = Ok (Sprint v, Sprint v, s).
Proof.
  intros Hc Hv. unfold lookupConst. rewrite Hc.
  split; [exact (ParseUint_Sprint v Hv)|].
  split; [exact (ParseUint_not_identifier _ _ (ParseUint_Sprint v Hv))|].
  intros s Hn. unfold parseRange, split_colon.
  rewrite (split_colon_go_free _ _ Hn). unfold lookupConst. rewrite Hc.
  reflexivity.
Qed.

Lemma resolved_constant_is_numeral_witness :
  ParseUint (lookupConst (<["PAGE" := 4096%N]> ∅) "PAGE") = Some 4096%N /\
  isIdentifier (lookupConst (<["PAGE" := 4096%N]> ∅) "PAGE") = false.
Proof.
  destruct (resolved_constant_is_numeral (<["PAGE" := 4096%N]> ∅) "PAGE" 4096%N)
    as (H1 & H2 & _).
  - reflexivity.
  - reflexivity.
  - split; [exact H1|exact H2].
Defined.

(** ** Where the description is left as it is *)

Lemma removeOpt_optLast a a' :
  optLast a -> removeOpt a = Some a' -> a = a' ++ ["opt"].
Proof.
  revert a'. induction a as [|v a IH]; intros a' Hl H; cbn [removeOpt] in H;
    [discriminate|].
  destruct (String.eqb_spec v "opt") as [->|Hne].
  - injection H as <-. specialize (Hl 0 eq_refl). cbn in Hl.
    destruct a; [reflexivity|discriminate].
  - destruct (removeOpt a) as [r|] eqn:E; [|discriminate]. injection H as <-.
    cbn. f_equal. apply IH; [|reflexivity].
    intros i Hi. specialize (Hl (S i) Hi). cbn in Hl. lia.
Qed.

(** With the marker last, the shift moves nothing. *)
Lemma scanOpt_optLast a : optLast a -> (scanOpt a).2 = a.
Proof.
  intros Hl. unfold scanOpt. destruct (removeOpt a) as [a'|] eqn:E; [|reflexivity].
  cbn [snd]. rewrite (removeOpt_optLast _ _ Hl E), drop_app_length.
  reflexivity.
Qed.

Lemma overwrite_from_drop k l : overwrite_from k (drop k l) l = l.
Proof. unfold overwrite_from. apply take_drop. Qed.

Lemma list_alter_same {A} (f : A -> A) (l : list A) i :
  (forall x, l !! i = Some x -> f x = x) -> alter f i l = l.
Proof.
  revert i. induction l as [|y l IH]; intros [|i] H; cbn; try reflexivity.
  - rewrite (H y eq_refl). reflexivity.
  - f_equal. apply IH. exact H.
Qed.

Lemma map_alter_same `{Countable K} {A} (f : A -> A) (m : gmap K A) i :
  (forall x, m !! i = Some x -> f x = x) -> alter f i m = m.
Proof.
  intros Hf. apply map_eq. intros j. rewrite lookup_alter.
  case_decide as Hij; [|reflexivity]. subst j.
  destruct (m !! i) as [x|] eqn:E; [|reflexivity]. cbn. rewrite (Hf x eq_refl).
  reflexivity.
Qed.

(** Writing back what the description already holds changes nothing. *)
Lemma store_same d sl a : slotHolds d sl a -> store sl a d = d.
Proof.
  intros [->|H]; [reflexivity|].
  destruct d as [calls strs ress flgs sflgs unn].
  destruct sl as [|i|i j|n j|u]; cbn [store slotTokens Syscalls Structs Unnamed
    Resources Flags StrFlags] in *; [discriminate| | | |]; f_equal.
  - apply list_alter_same. intros s Hs. rewrite Hs in H. cbn in H.
    injection H as <-. rewrite overwrite_from_drop. destruct s; reflexivity.
  - apply list_alter_same. intros s Hs. rewrite Hs in H. cbn in H.
    destruct s as [sn cn args rt]. cbn [Args] in *. f_equal.
    apply list_alter_same. intros x Hx. rewrite Hx in H. cbn in H.
    injection H as <-. apply overwrite_from_drop.
  - apply map_alter_same. intros s Hs. rewrite Hs in H. cbn in H.
    destruct s as [sn flds un pk vl al]. cbn [Flds] in *. f_equal.
    apply list_alter_same. intros x Hx. rewrite Hx in H. cbn in H.
    injection H as <-. apply overwrite_from_drop.
  - apply map_alter_same. intros x Hx. rewrite Hx in H. cbn in H.
    injection H as <-. apply overwrite_from_drop.
Qed.

Lemma optLast_nil : optLast [].
Proof. intros i H. rewrite lookup_nil in H. discriminate. Qed.

Lemma optLast_opt_only : optLast ["opt"].
Proof. intros [|i] H; [reflexivity|]. destruct i; discriminate H. Qed.

Lemma keeps_generateArg_description consts d fuel :
  unnamedOptLast d ->
  forall parent name typ dir a sl isArg isField,
    slotHolds d sl a -> optLast a ->
    keeps (fun st => description st = d)
      (generateArg consts fuel parent name typ dir a sl isArg isField).
Proof.
  intros Hun.
  induction fuel as [|fuel IH]; intros parent name typ dir a sl isArg isField
    Hsl Hl; [apply keeps_outOfFuel|].
  cbn [generateArg]. assert (Hback := scanOpt_optLast a Hl).
  destruct (scanOpt a) as [[opt a'] back]. cbn [snd] in Hback. subst back.
  apply keeps_bind.
  { destruct opt; [|apply keeps_ret].
    apply keeps_modify. intros s Hs. cbn [description]. rewrite Hs.
    apply store_same, Hsl. }
  intros _. apply keeps_bind.
  2:{ intros r. keeps_auto. }
  destruct (classify typ) eqn:Hc;
    try (keeps_auto;
         first [ apply IH; [left; reflexivity|apply optLast_nil]
               | apply keeps_sizeOf | apply keeps_decodeIntType
               | apply keeps_decodeByteSizeType | apply keeps_parseRange
               | apply keeps_stringValues | apply keeps_procValues
               | apply keeps_modify; intros s Hs;
                 destruct (negb _); [exact Hs|exact Hs] ]).
  intros s x s' Hs H.
  apply bind_Ok_inv in H as (d0 & s1 & Hd0 & H).
  apply gets_Ok_inv in Hd0 as [-> ->].
  destruct (HasPrefix typ "unnamed").
  - destruct (Unnamed (description s) !! typ) as [inner|] eqn:Hu; [|discriminate].
    apply bind_Ok_inv in H as (i0 & s1 & Hi0 & H).
    apply index_Ok_inv in Hi0 as [_ ->].
    apply bind_Ok_inv in H as (t & s2 & Ht & H).
    apply ret_Ok_inv in H as [_ ->].
    rewrite Hs in Hu.
    refine (IH _ _ _ _ _ _ _ _ _ _ s t s2 Hs Ht).
    + right. cbn [slotTokens]. rewrite Hu. reflexivity.
    + exact (Hun _ _ Hu).
  - destruct (decide (is_Some (Structs (description s) !! typ)));
      [|destruct (decide (is_Some (Resources (description s) !! typ)))];
      minv; first [assumption|reflexivity].
Qed.

(** X5: the scan for [opt] rewrites nothing when the marker is the last
    parameter: a call of [generateArg] on a slice of the description, with the
    marker last in it and in the parameters of the unnamed types, leaves the
    description as it is. *)
Theorem generateArg_leaves_description consts fuel parent name typ dir a sl isArg
    isField s t s' :
  unnamedOptLast (description s) ->
  slotHolds (description s) sl a ->
  optLast a ->
  generateArg consts fuel parent name typ dir a sl isArg isField s = Ok (t, s') ->
  description s' = description s.
Proof.
  intros Hun Hsl Hl H.
  exact (keeps_generateArg_description consts (description s) fuel Hun
           parent name typ dir a sl isArg isField Hsl Hl s t s' eq_refl H).
Qed.

Lemma generateArg_leaves_description_witness :
  exists t s',
    generateArg ∅ 1 "T" "x" "int32" "in" ["opt"] (FldSlot "T" 0) false true
      (initState optLastDescription) = Ok (t, s') /\
    description s' = optLastDescription.
Proof.
  eexists _, _. split; [reflexivity|].
  apply (generateArg_leaves_description ∅ 1 "T" "x" "int32" "in" ["opt"]
           (FldSlot "T" 0) false true (initState optLastDescription)
           (IntType (mkCommon "x" DirIn true) 4 false IntPlain)).
  - intros u inner H. cbn in H. rewrite lookup_empty in H. discriminate H.
  - right. reflexivity.
  - exact optLast_opt_only.
  - reflexivity.
Defined.

Lemma keeps_mapM_in {A B} (P : state -> Prop) (f : A -> M B) l :
  (forall x, x ∈ l -> keeps P (f x)) -> keeps P (mapM f l).
Proof.
  induction l as [|x l IH]; intros Hf; cbn [mapM]; [apply keeps_ret|].
  apply keeps_bind; [apply Hf; left|]. intros y.
  apply keeps_bind; [apply IH; intros; apply Hf; right; assumption|].
  intros ys. apply keeps_ret.
Qed.

Lemma imap_pair_elem {A} (l : list A) j a :
  (j, a) ∈ imap pair l -> l !! j = Some a.
Proof.
  intros H. apply elem_of_lookup_imap in H as (i & x & [= -> ->] & Hx). exact Hx.
Qed.

Lemma keeps_generateStructFields_description consts d fuel key id :
  descOptLast d ->
  keeps (fun st => description st = d) (generateStructFields consts fuel key id).
Proof.
  intros (_ & Hstr & Hun). unfold generateStructFields.
  intros s x s' Hs H.
  apply bind_Ok_inv in H as (d0 & s1 & Hd0 & H).
  apply gets_Ok_inv in Hd0 as [-> ->]. rewrite Hs in H.
  revert s x s' Hs H. apply keeps_bind; [|intros; apply keeps_ret].
  apply keeps_mapM_in. intros [j a] Hja. apply imap_pair_elem in Hja.
  unfold generateStructField, structOf in *. cbn [fst snd].
  destruct (Structs d !! id) as [str|] eqn:Hid;
    [|cbn in Hja; rewrite lookup_nil in Hja; discriminate].
  change (Flds str !! j = Some a) in Hja.
  keeps_auto. apply keeps_generateArg_description; [exact Hun| |].
  - right. cbn [slotTokens]. rewrite Hid. cbn. rewrite Hja. reflexivity.
  - apply (Hstr id str a Hid). apply list_elem_of_lookup. eauto.
Qed.

Lemma keeps_generateCall_description consts d fuel i s :
  descOptLast d ->
  Syscalls d !! i = Some s ->
  keeps (fun st => description st = d) (generateCall consts fuel (i, s)).
Proof.
  intros (Hcalls & _ & Hun) Hi.
  assert (Hs : s ∈ Syscalls d) by (apply list_elem_of_lookup; eauto).
  destruct (Hcalls s Hs) as [Hret Hargs].
  unfold generateCall, generateCallTypes. cbn [fst snd].
  keeps_auto.
  - apply keeps_modify. intros st Hst. exact Hst.
  - apply keeps_generateArg_description; [exact Hun| |exact Hret].
    right. cbn [slotTokens]. rewrite Hi. reflexivity.
  - apply keeps_mapM_in. intros [j toks] Hja. apply imap_pair_elem in Hja.
    unfold generateCallArg. cbn [fst snd]. keeps_auto.
    apply keeps_generateArg_description; [exact Hun| |].
    + right. cbn [slotTokens]. rewrite Hi. cbn. rewrite Hja. reflexivity.
    + apply Hargs. apply list_elem_of_lookup. eauto.
Qed.

Lemma keeps_generate_description consts d fuel sched :
  descOptLast d ->
  keeps (fun st => description st = d) (generate consts fuel sched).
Proof.
  intros Hd. assert (Hun : unnamedOptLast d) by apply Hd.
  unfold generate. apply keeps_bind.
  { apply keeps_mapM. intros res. unfold generateResource. keeps_auto.
    - apply keeps_resourceLoop.
    - apply keeps_generateArg_description;
        [exact Hun|left; reflexivity|apply optLast_nil]. }
  intros resources. apply keeps_bind.
  { unfold generateStructs. keeps_auto.
    - apply keeps_mapM. intros [key id]. unfold generateStructEntry. keeps_auto.
    - apply keeps_mapM. intros [key id].
      apply keeps_generateStructFields_description. exact Hd. }
  intros structs s x s' Hs H.
  apply bind_Ok_inv in H as (d0 & s1 & Hd0 & H).
  apply gets_Ok_inv in Hd0 as [-> ->]. rewrite Hs in H.
  revert s x s' Hs H. apply keeps_bind; [|intros; apply keeps_ret].
  apply keeps_mapM_in. intros [i c] Hic. apply imap_pair_elem in Hic.
  apply keeps_generateCall_description; assumption.
Qed.

(** X6: a description in which the marker [opt] is last wherever it occurs
    comes out of [generate] as it went in; the second compilation of a struct,
    in another direction or for another field, then reads what the first has
    read. *)
Theorem generate_leaves_description consts fuel sched s out s' :
  descOptLast (description s) ->
  generate consts fuel sched s = Ok (out, s') ->
  description s' = description s.
Proof.
  intros Hd H.
  exact (keeps_generate_description consts (description s) fuel sched Hd
           s out s' eq_refl H).
Qed.

Lemma optLastDescription_ok : descOptLast optLastDescription.
Proof.
  split; [|split].
  - intros s Hs. apply list_elem_of_singleton in Hs as ->. split.
    + apply optLast_nil.
    + intros a Ha. apply list_elem_of_singleton in Ha as ->.
      intros i H. change (["in"; "T"; "opt"] !! i = Some "opt") in H.
      destruct i as [|[|[|i]]]; try discriminate H; reflexivity.
  - intros n str a Hs Ha. cbn [Structs optLastDescription] in Hs.
    apply lookup_insert_Some in Hs as [[_ <-]|[_ Hs]];
      [|rewrite lookup_empty in Hs; discriminate Hs].
    apply list_elem_of_singleton in Ha as ->. exact optLast_opt_only.
  - intros u inner H. cbn in H. rewrite lookup_empty in H. discriminate H.
Qed.

Lemma generate_leaves_description_witness :
  exists out s',
    generate ∅ 3 optLastSchedule (initState optLastDescription) = Ok (out, s') /\
    description s' = optLastDescription.
Proof.
  assert (Hok : match generate ∅ 3 optLastSchedule (initState optLastDescription) with
                | Ok _ => true
                | _ => false
                end = true) by (vm_compute; reflexivity).
  destruct (generate ∅ 3 optLastSchedule (initState optLastDescription))
    as [[out s']| | |] eqn:E; try discriminate Hok.
  exists out, s'. split; [reflexivity|].
  exact (generate_leaves_description ∅ 3 optLastSchedule
           (initState optLastDescription) out s' optLastDescription_ok E).
Defined.

(** ** The flag sets of an architecture *)

Lemma resolveFlagVal_vals consts acc lg val :
  (resolveFlagVal consts (acc, lg) val).1 = acc ++ option_list (flagToken consts val).
Proof.
  unfold resolveFlagVal, flagToken. cbn [fst snd].
  destruct (isIdentifier val); [|reflexivity].
  destruct (consts !! val); cbn; [reflexivity|].
  rewrite app_nil_r. destruct (decide _); reflexivity.
Qed.

Lemma foldl_resolveFlagVal_vals consts vals acc lg :
  (foldl (resolveFlagVal consts) (acc, lg) vals).1 =
  acc ++ omap (flagToken consts) vals.
Proof.
  revert acc lg. induction vals as [|v vals IH]; intros acc lg; cbn [foldl omap list_omap].
  - rewrite app_nil_r. reflexivity.
  - destruct (resolveFlagVal consts (acc, lg) v) as [acc' lg'] eqn:E.
    rewrite IH. assert (Hv := resolveFlagVal_vals consts acc lg v).
    rewrite E in Hv. cbn [fst] in Hv. rewrite Hv, <- app_assoc. f_equal.
    destruct (flagToken consts v); reflexivity.
Qed.

(** The values of a flag set do not depend on what has been logged. *)
Lemma resolveFlagVals_vals consts lg vals :
  (resolveFlagVals consts lg vals).1 = omap (flagToken consts) vals.
Proof. unfold resolveFlagVals. apply foldl_resolveFlagVal_vals. Qed.

Lemma resolveFlags_lookup consts (order : list (string * list string)) acc :
  let step := fun (acc : gmap string (list string) * flagLog) (fv : string * list string) =>
                let r := resolveFlagVals consts acc.2 fv.2 in
                (<[fv.1 := r.1]> acc.1, r.2) in
  NoDup order.*1 ->
  forall f,
    (foldl step acc order).1 !! f =
    match list_to_map (M := gmap string (list string)) order !! f with
    | Some vals => Some (omap (flagToken consts) vals)
    | None => acc.1 !! f
    end.
Proof.
  intros step. revert acc.
  induction order as [|[f0 v0] order IH]; intros acc Hnd f; cbn [foldl].
  - cbn. rewrite lookup_empty. reflexivity.
  - cbn [fmap list_fmap fst] in Hnd. apply NoDup_cons in Hnd as [Hf0 Hnd].
    rewrite (IH _ Hnd). cbn [list_to_map foldr uncurry].
    destruct (decide (f = f0)) as [->|Hne].
    + rewrite lookup_insert_eq.
      rewrite (not_elem_of_list_to_map_1 (M := gmap string) order f0 Hf0).
      unfold step. cbn [fst snd]. rewrite lookup_insert_eq, resolveFlagVals_vals.
      reflexivity.
    + assert (Hne' : f0 <> f) by congruence.
      rewrite (lookup_insert_ne _ f0 f) by exact Hne'.
      destruct (list_to_map order !! f); [reflexivity|].
      unfold step. cbn [fst snd]. rewrite (lookup_insert_ne _ f0 f) by exact Hne'.
      reflexivity.
Qed.

(** The entry of one flag set in the table. *)
Lemma resolveFlags_entry consts (flags : gmap string (list string)) order f :
  order ≡ₚ map_to_list flags ->
  (resolveFlags consts order).1 !! f =
    (fun vals : list string => omap (flagToken consts) vals) <$> flags !! f.
Proof.
  intros Hperm. unfold resolveFlags.
  rewrite resolveFlags_lookup.
  2:{ rewrite Hperm. apply NoDup_fst_map_to_list. }
  assert (Hmap : list_to_map (M := gmap string (list string)) order = flags).
  { rewrite <- (list_to_map_to_list flags).
    apply list_to_map_proper; [|exact Hperm].
    rewrite Hperm. apply NoDup_fst_map_to_list. }
  rewrite Hmap. cbn [fst].
  destruct (flags !! f); [reflexivity|]. rewrite lookup_empty. reflexivity.
Qed.

(** X7: the flag table of an architecture.  Every flag set of the
    description is there, under its name, with each symbol replaced by the
    decimal value the constant table gives it or left out if it gives none,
    and every other token kept, in the order of the description.  The table
    does not depend on the order in which the map is visited. *)
Theorem resolveFlags_table consts (flags : gmap string (list string)) order :
  order ≡ₚ map_to_list flags ->
  (resolveFlags consts order).1 =
    (fun vals : list string => omap (flagToken consts) vals) <$> flags.
Proof.
  intros Hperm. apply map_eq. intros f.
  rewrite (resolveFlags_entry consts flags order f Hperm), lookup_fmap.
  reflexivity.
Qed.

Lemma resolveFlags_table_witness :
  (resolveFlags sockConsts (map_to_list familyFlags)).1 !! "family"
    = Some ["2"; "7"].
Proof.
  rewrite (resolveFlags_table sockConsts familyFlags (map_to_list familyFlags))
    by reflexivity.
  rewrite lookup_fmap. reflexivity.
Defined.

Lemma resolveFlagVal_log consts acc lg val :
  logInv lg ->
  let lg' := (resolveFlagVal consts (acc, lg) val).2 in
  logInv lg' /\
  forall v, v ∈ reported lg' <->
            v ∈ reported lg \/
            (v = val /\ isIdentifier v = true /\ consts !! v = None).
Proof.
  intros [Hnd Hset]. unfold resolveFlagVal. cbn [fst snd].
  destruct (isIdentifier val) eqn:Hid.
  2:{ split; [split; assumption|]. intros v. split; [auto|].
      intros [H|(-> & H & _)]; [exact H|congruence]. }
  destruct (consts !! val) eqn:Hc.
  { split; [split; assumption|]. intros v. split; [auto|].
    intros [H|(-> & _ & H)]; [exact H|congruence]. }
  destruct (decide (val ∈ unsupported lg)) as [Hin|Hnin]; cbn [snd].
  { split; [split; assumption|]. intros v. split; [auto|].
    intros [H|(-> & _ & _)]; [exact H|]. apply Hset, Hin. }
  cbn [reported unsupported]. split; [split|].
  - apply NoDup_app. split; [exact Hnd|]. split; [|apply NoDup_singleton].
    intros v Hv Hv'. apply list_elem_of_singleton in Hv' as ->.
    apply Hnin, Hset, Hv.
  - intros v. cbn [reported unsupported].
    rewrite elem_of_union, elem_of_singleton, elem_of_app,
      list_elem_of_singleton, Hset. tauto.
  - intros v. rewrite elem_of_app, list_elem_of_singleton. split.
    + intros [H | ->]; auto.
    + intros [H|(-> & _)]; auto.
Qed.

Lemma resolveFlagVals_log consts lg vals :
  logInv lg ->
  let lg' := (resolveFlagVals consts lg vals).2 in
  logInv lg' /\
  forall v, v ∈ reported lg' <->
            v ∈ reported lg \/
            (v ∈ vals /\ isIdentifier v = true /\ consts !! v = None).
Proof.
  unfold resolveFlagVals. generalize (@nil string) as acc.
  revert lg. induction vals as [|val vals IH]; intros lg acc Hinv; cbn [foldl snd].
  - split; [exact Hinv|]. intros v. split; [auto|].
    intros [H|(H & _)]; [exact H|inversion H].
  - destruct (resolveFlagVal_log consts acc lg val Hinv) as [Hinv' Hrep].
    destruct (resolveFlagVal consts (acc, lg) val) as [acc' lg'] eqn:E.
    cbn [snd] in Hinv', Hrep.
    destruct (IH lg' acc' Hinv') as [Hinv'' Hrep'].
    split; [exact Hinv''|]. intros v. rewrite Hrep', Hrep, elem_of_cons.
    split.
    + intros [[H|(-> & H)]|(H & H')]; auto.
    + intros [H|([->|H] & H')]; auto.
Qed.

Lemma resolveFlags_log consts order acc :
  let step := fun (acc : gmap string (list string) * flagLog) (fv : string * list string) =>
                let r := resolveFlagVals consts acc.2 fv.2 in
                (<[fv.1 := r.1]> acc.1, r.2) in
  logInv acc.2 ->
  let lg' := (foldl step acc order).2 in
  logInv lg' /\
  forall v, v ∈ reported lg' <->
            v ∈ reported acc.2 \/ unsupportedFlag consts order v.
Proof.
  intros step. revert acc.
  induction order as [|[f vals] order IH]; intros acc Hinv; cbn [foldl].
  - split; [exact Hinv|]. intros v. split; [auto|].
    intros [H|(f & vals & H & _)]; [exact H|inversion H].
  - destruct (resolveFlagVals_log consts acc.2 vals Hinv) as [Hinv' Hrep].
    destruct (IH (step acc (f, vals)) Hinv') as [Hinv'' Hrep'].
    split; [exact Hinv''|]. intros v. rewrite Hrep'.
    change (step acc (f, vals)).2 with (resolveFlagVals consts acc.2 vals).2.
    rewrite Hrep. unfold unsupportedFlag.
    split.
    + intros [[H|(H1 & H2 & H3)]|(f' & vals' & H1 & H2)]; [auto| |].
      * right. exists f, vals. split; [left|auto].
      * right. exists f', vals'. split; [right; exact H1|exact H2].
    + intros [H|(f' & vals' & H1 & H2 & H3)]; [auto|].
      apply elem_of_cons in H1 as [[= -> ->]|H1]; [auto|].
      right. exists f', vals'. auto.
Qed.

(** X8: the symbols reported as unsupported flags: those that some flag set
    uses and the constant table does not define, each of them once. *)
Theorem unsupported_flags_reported_once consts order :
  NoDup (reported (resolveFlags consts order).2) /\
  forall v, v ∈ reported (resolveFlags consts order).2 <->
            unsupportedFlag consts order v.
Proof.
  assert (Hinit : logInv (mkFlagLog ∅ [])).
  { split; [constructor|]. intros v. cbn. rewrite elem_of_empty, elem_of_nil.
    reflexivity. }
  destruct (resolveFlags_log consts order (∅, mkFlagLog ∅ []) Hinit) as [[Hnd _] Hrep].
  split; [exact Hnd|]. intros v. unfold resolveFlags. rewrite Hrep. cbn.
  rewrite elem_of_nil. tauto.
Qed.

(** X9: the loop over the values of a resource and the loop over the values of
    a flag set apply the same rule, as long as every name of the constant
    table is an identifier: the first looks the token up before it asks
    whether it is an identifier, the second after. *)
Theorem resolveValues_as_flags consts lg vals :
  (forall k, is_Some (consts !! k) -> isIdentifier k = true) ->
  resolveValues consts vals = (resolveFlagVals consts lg vals).1.
Proof.
  intros Hkeys. rewrite resolveFlagVals_vals.
  induction vals as [|v vals IH]; cbn [resolveValues omap list_omap]; [reflexivity|].
  unfold flagToken at 1. destruct (consts !! v) as [n|] eqn:Hv.
  - rewrite (Hkeys v) by eauto. cbn. f_equal. exact IH.
  - destruct (isIdentifier v); cbn; [exact IH|f_equal; exact IH].
Qed.

Lemma sockConsts_identifiers k :
  is_Some (sockConsts !! k) -> isIdentifier k = true.
Proof.
  intros [v H]. unfold sockConsts in H.
  apply lookup_insert_Some in H as [[<- _]|[_ H]]; [reflexivity|].
  rewrite lookup_empty in H. discriminate H.
Qed.

Lemma resolveValues_as_flags_witness :
  resolveValues sockConsts ["AF_INET"; "AF_NONE"; "7"] =
  (resolveFlagVals sockConsts (mkFlagLog ∅ []) ["AF_INET"; "AF_NONE"; "7"]).1.
Proof.
  exact (resolveValues_as_flags sockConsts (mkFlagLog ∅ [])
           ["AF_INET"; "AF_NONE"; "7"] sockConsts_identifiers).
Defined.

(** A table with a name that is no identifier tells the two loops apart. *)
Example resolveValues_not_as_flags :
  resolveValues (<["7" := 9%N]> ∅) ["7"] = ["9"] /\
  (resolveFlagVals (<["7" := 9%N]> ∅) (mkFlagLog ∅ []) ["7"]).1 = ["7"].
Proof. split; reflexivity. Qed.

(** X10: the flag table at work: a [flags] argument over a flag set of the
    description compiles, on an architecture, to a flags node with the values
    that the table of the architecture holds for the set, and to a plain
    integer when the table holds none. The set must not be called [opt], which
    the scan would take for the marker. *)
Theorem flags_compiled_from_table consts desc order fuel parent name f dir dr sl
    isArg sk vals :
  order ≡ₚ map_to_list (Flags desc) ->
  Flags desc !! f = Some vals ->
  f <> "opt" ->
  dirOf dir = Some dr ->
  generateArg consts (S fuel) parent name "flags" dir [f] sl isArg false
    (mkState sk (withFlags desc (resolveFlags consts order).1)) =
  Ok (match omap (flagToken consts) vals with
      | [] => IntType (mkCommon name dr false) 8 false IntPlain
      | v :: vs => FlagsType (mkCommon name dr false) 8 false (v :: vs)
      end,
      mkState sk (withFlags desc (resolveFlags consts order).1)).
Proof.
  intros Hperm Hf Hopt Hd.
  cbn [generateArg]. unfold scanOpt. cbn [removeOpt].
  destruct (String.eqb_spec f "opt") as [|_]; [contradiction|].
  change (classify "flags") with CFlags. cbv iota.
  unfold bind, sizeOf, wantArgs, index. cbn.
  rewrite (resolveFlags_entry consts (Flags desc) order f Hperm), Hf.
  cbn. rewrite (common_Some _ _ _ _ _ Hd).
  destruct (omap (flagToken consts) vals); cbn; rewrite andb_false_r; reflexivity.
Qed.

Lemma flags_compiled_from_table_witness :
  generateArg sockConsts 1 EmptyString "domain" "flags" "in" ["family"]
    (ArgSlot 0 0) true false
    (mkState EmptyString
       (withFlags familyDescription
          (resolveFlags sockConsts (map_to_list familyFlags)).1)) =
  Ok (FlagsType (mkCommon "domain" DirIn false) 8 false ["2"; "7"],
      mkState EmptyString
        (withFlags familyDescription
           (resolveFlags sockConsts (map_to_list familyFlags)).1)).
Proof.
  apply (flags_compiled_from_table sockConsts familyDescription
           (map_to_list familyFlags) 0 EmptyString "domain" "family" "in" DirIn
           (ArgSlot 0 0) true EmptyString ["AF_INET"; "AF_NONE"; "7"]).
  - reflexivity.
  - reflexivity.
  - discriminate.
  - reflexivity.
Defined.

(** ** The loop over the architectures *)

Lemma withFlags_descOptLast d fl : descOptLast d -> descOptLast (withFlags d fl).
Proof. intros H. exact H. Qed.

Lemma withFlags_back d fl : withFlags (withFlags d fl) (Flags d) = d.
Proof. destruct d. reflexivity. Qed.

Lemma keeps_generateCall_skipEmpty consts fuel ics :
  keeps skipEmpty (generateCall consts fuel ics).
Proof.
  unfold generateCall. apply keeps_bind.
  { apply keeps_modify. intros; reflexivity. }
  intros _. apply keeps_bind; [apply generateCallTypes_keeps_skipEmpty|].
  intros ra. keeps_auto.
Qed.

Lemma keeps_generate_skipEmpty consts fuel sched :
  keeps skipEmpty (generate consts fuel sched).
Proof.
  unfold generate, generateResources, generateStructs.
  keeps_auto.
  - apply keeps_mapM. intros res. unfold generateResource. keeps_auto.
    + apply keeps_resourceLoop.
    + apply generateArg_keeps_skipEmpty.
  - apply keeps_mapM. intros [key id]. unfold generateStructEntry. keeps_auto.
  - apply keeps_mapM. intros [key id]. unfold generateStructFields. keeps_auto.
    apply keeps_mapM. intros [j toks]. unfold generateStructField. keeps_auto.
    apply generateArg_keeps_skipEmpty.
  - apply keeps_mapM. intros ics. apply keeps_generateCall_skipEmpty.
Qed.

Lemma keeps_generateArch d fuel arch :
  descOptLast d ->
  keeps (fun st => st = initState d) (generateArch fuel arch).
Proof.
  intros Hd s x s' -> H. unfold generateArch in H.
  apply bind_Ok_inv in H as (desc & s1 & Hg & H).
  apply gets_Ok_inv in Hg as [-> ->].
  apply bind_Ok_inv in H as ([] & s1 & Hm & H).
  apply modify_Ok_inv in Hm as ->.
  apply bind_Ok_inv in H as (out & s2 & Hgen & H).
  apply bind_Ok_inv in H as ([] & s3 & Hm & H).
  apply modify_Ok_inv in Hm as ->.
  apply ret_Ok_inv in H as [_ ->].
  cbn [description initState skipCurrentSyscall] in *.
  set (fl := (resolveFlags (archConsts arch) (flagOrder arch)).1) in *.
  assert (Hdesc : description s2 = withFlags d fl).
  { apply (keeps_generate_description (archConsts arch) _ fuel (archSchedule arch)
             (withFlags_descOptLast d fl Hd) (mkState EmptyString (withFlags d fl))
             out s2); [reflexivity|exact Hgen]. }
  assert (Hskip : skipEmpty s2).
  { apply (keeps_generate_skipEmpty (archConsts arch) fuel (archSchedule arch)
             (mkState EmptyString (withFlags d fl)) out s2);
      [reflexivity|exact Hgen]. }
  unfold skipEmpty in Hskip. rewrite Hskip, Hdesc, withFlags_back. reflexivity.
Qed.

(** X11: the architectures do not disturb each other as long as the marker
    [opt] is the last parameter wherever it occurs: then the loop leaves the
    description as it was parsed, and the output for each architecture is the
    one that a run on this architecture alone gives. *)
Theorem architectures_are_independent d fuel archs outs s' :
  descOptLast d ->
  generateArchs fuel archs (initState d) = Ok (outs, s') ->
  s' = initState d /\
  Forall2 (fun arch out => generateArch fuel arch (initState d)
                             = Ok (out, initState d)) archs outs.
Proof.
  intros Hd H. unfold generateArchs in H. split.
  - exact (keeps_mapM _ _ archs (fun arch => keeps_generateArch d fuel arch Hd)
             _ _ _ eq_refl H).
  - apply (mapM_Ok_inv (fun st => st = initState d)) in H;
      [|intros arch; apply keeps_generateArch, Hd|reflexivity].
    eapply Forall2_impl; [exact H|].
    intros arch out (s1 & s2 & -> & Hrun). rewrite Hrun. f_equal. f_equal.
    exact (keeps_generateArch d fuel arch Hd _ _ _ eq_refl Hrun).
Qed.

Lemma architectures_are_independent_witness :
  exists outs,
    generateArchs 3 [mkArchInput ∅ [] optLastSchedule;
                     mkArchInput ioctlConsts [] optLastSchedule]
      (initState optLastDescription) = Ok (outs, initState optLastDescription) /\
    Forall2 (fun arch out =>
               generateArch 3 arch (initState optLastDescription)
                 = Ok (out, initState optLastDescription))
      [mkArchInput ∅ [] optLastSchedule;
       mkArchInput ioctlConsts [] optLastSchedule] outs.
Proof.
  set (archs := [mkArchInput ∅ [] optLastSchedule;
                 mkArchInput ioctlConsts [] optLastSchedule]).
  assert (Hok : match generateArchs 3 archs (initState optLastDescription) with
                | Ok _ => true
                | _ => false
                end = true) by (vm_compute; reflexivity).
  destruct (generateArchs 3 archs (initState optLastDescription))
    as [[outs s']| | |] eqn:E; try discriminate Hok.
  destruct (architectures_are_independent optLastDescription 3 archs outs s'
              optLastDescription_ok E) as [-> H].
  exists outs. split; [reflexivity|exact H].
Defined.

(** With the marker ahead of another parameter the first architecture
    leaves the description shifted, and the second, given the same tables,
    is refused. *)
Example architectures_interfere :
  (exists out,
     generateArch 1 (mkArchInput ∅ [] emptySchedule)
       (initState optFirstCallDescription) = Ok out) /\
  generateArchs 1 [mkArchInput ∅ [] emptySchedule; mkArchInput ∅ [] emptySchedule]
    (initState optFirstCallDescription)
  = Fatal (WrongNumberOfArguments "int32" "n" 2).
Proof.
  split; [eexists; vm_compute; reflexivity|vm_compute; reflexivity].
Qed.

(** ** [readConsts] *)

Section ReadConstsProperties.
Context {go : GoStrings}.

Lemma readConstLine_skipped arch fname consts line :
  skipped line = true -> readConstLine arch fname consts line = inr consts.
Proof.
  unfold skipped, readConstLine. destruct line as [|c line]; [reflexivity|].
  intros ->. reflexivity.
Qed.

Lemma defines_fun line n v n' v' :
  defines line n v -> defines line n' v' -> n = n' /\ v = v'.
Proof.
  intros (_ & l & r & Hc & Hn & Hv) (_ & l' & r' & Hc' & Hn' & Hv').
  rewrite Hc in Hc'. injection Hc' as <- <-. split; congruence.
Qed.

(** What a line that is read without an error has done to the table. *)
Lemma readConstLine_inr arch fname consts line consts' :
  readConstLine arch fname consts line = inr consts' ->
  (skipped line = true /\ consts' = consts) \/
  (exists n v, defines line n v /\ consts' = <[n := v]> consts /\
               (consts !! n = None \/ consts !! n = Some v)).
Proof.
  unfold readConstLine, defines, skipped.
  destruct line as [|c line]; [intros [= <-]; auto|].
  destruct (Ascii.eqb c "#"); [intros [= <-]; auto|].
  destruct (cutAtEquals (String c line)) as [[l r]|]; [|discriminate].
  destruct (ParseUint0 (TrimSpace r)) as [val|] eqn:Hv; [|discriminate].
  destruct (consts !! TrimSpace l) as [old|] eqn:Ho.
  - destruct (N.eqb_spec old val) as [->|]; [|discriminate].
    intros [= <-]. right. exists (TrimSpace l), val. eauto 10.
  - intros [= <-]. right. exists (TrimSpace l), val. eauto 10.
Qed.

Lemma readConstLine_defines arch fname consts line n v :
  defines line n v ->
  readConstLine arch fname consts line =
    match consts !! n with
    | Some old => if negb (old =? v)%N then inl (DifferentValues n arch old v)
                  else inr (<[n := v]> consts)
    | None => inr (<[n := v]> consts)
    end.
Proof.
  intros (Hs & l & r & Hc & <- & Hv). unfold readConstLine, skipped in *.
  destruct line as [|c line]; [discriminate|]. rewrite Hs, Hc, Hv. reflexivity.
Qed.

Lemma readConstLines_inr arch fname consts lines consts' P :
  tableOf P consts ->
  readConstLines arch fname consts lines = inr consts' ->
  tableOf (fun n v => P n v \/ exists line, line ∈ lines /\ defines line n v) consts' /\
  (forall line, line ∈ lines -> skipped line = true \/ exists n v, defines line n v).
Proof.
  revert consts P. induction lines as [|line lines IH]; intros consts P HP H;
    cbn [readConstLines] in H.
  - injection H as <-. split.
    + intros n v. rewrite (HP n v). split; [auto|].
      intros [Hp|(line & Hin & _)]; [exact Hp|inversion Hin].
    + intros line Hin. inversion Hin.
  - destruct (readConstLine arch fname consts line) as [e|c1] eqn:E; [discriminate|].
    apply readConstLine_inr in E.
    assert (HP1 : tableOf (fun n v => P n v \/ defines line n v) c1 /\
                  (skipped line = true \/ exists n v, defines line n v)).
    { destruct E as [[Hs ->]|(n & v & Hd & -> & Hold)].
      - split; [|auto]. intros n v. rewrite (HP n v). split; [auto|].
        intros [Hp|(Hs' & _)]; [exact Hp|congruence].
      - split; [|eauto]. intros n' v'. rewrite lookup_insert_Some, (HP n' v'). split.
        + intros [[<- <-]|[_ Hp]]; auto.
        + intros [Hp|Hd'].
          * destruct (decide (n = n')) as [<-|Hne]; [|auto].
            left. split; [reflexivity|].
            apply HP in Hp. destruct Hold as [Hold|Hold]; congruence.
          * destruct (defines_fun _ _ _ _ _ Hd Hd') as [<- <-]. auto. }
    destruct HP1 as [HP1 Hline].
    destruct (IH _ _ HP1 H) as [HP2 Hrest]. split.
    + intros n v. rewrite (HP2 n v). split.
      * intros [[Hp|Hd]|(l0 & Hin & Hd)]; [auto| |].
        -- right. exists line. split; [left|exact Hd].
        -- right. exists l0. split; [right; exact Hin|exact Hd].
      * intros [Hp|(l0 & Hin & Hd)]; [auto|].
        apply elem_of_cons in Hin as [->|Hin]; [auto|]. right. eauto.
    + intros l0 Hin. apply elem_of_cons in Hin as [->|Hin]; auto.
Qed.

Lemma readConstFiles_inr arch consts files consts' P :
  tableOf P consts ->
  readConstFiles arch consts files = inr consts' ->
  tableOf (fun n v => P n v \/ defined files n v) consts' /\ wellFormed files.
Proof.
  revert consts P. induction files as [|[fname lines] files IH]; intros consts P HP H;
    cbn [readConstFiles] in H.
  - injection H as <-. split.
    + intros n v. rewrite (HP n v). split; [auto|].
      intros [Hp|(f & ls & l & Hin & _)]; [exact Hp|inversion Hin].
    + intros f ls l Hin. inversion Hin.
  - destruct (readConstLines arch fname consts lines) as [e|c1] eqn:E; [discriminate|].
    destruct (readConstLines_inr _ _ _ _ _ _ HP E) as [HP1 Hwf1].
    destruct (IH _ _ HP1 H) as [HP2 Hwf2]. split.
    + intros n v. rewrite (HP2 n v). unfold defined. split.
      * intros [[Hp|(l & Hin & Hd)]|(f & ls & l & Hin & Hl & Hd)]; [auto| |].
        -- right. exists fname, lines, l. split; [left|auto].
        -- right. exists f, ls, l. split; [right; exact Hin|auto].
      * intros [Hp|(f & ls & l & Hin & Hl & Hd)]; [auto|].
        apply elem_of_cons in Hin as [[= -> ->]|Hin]; [eauto|].
        right. eauto 10.
    + intros f ls l Hin Hl. apply elem_of_cons in Hin as [[= -> ->]|Hin]; eauto.
Qed.

Lemma readConstLines_ok arch fname consts lines P :
  tableOf P consts ->
  (forall line, line ∈ lines -> skipped line = true \/ exists n v, defines line n v) ->
  (forall n v v', (P n v \/ exists line, line ∈ lines /\ defines line n v) ->
                  (P n v' \/ exists line, line ∈ lines /\ defines line n v') ->
                  v = v') ->
  exists consts', readConstLines arch fname consts lines = inr consts'.
Proof.
  revert consts P. induction lines as [|line lines IH]; intros consts P HP Hwf Hcons;
    cbn [readConstLines]; [eauto|].
  assert (Hstep : exists c1, readConstLine arch fname consts line = inr c1).
  { destruct (Hwf line) as [Hs|(n & v & Hd)]; [left| |].
    - rewrite readConstLine_skipped by exact Hs. eauto.
    - rewrite (readConstLine_defines _ _ _ _ _ _ Hd).
      destruct (consts !! n) as [old|] eqn:Ho; [|eauto].
      assert (old = v) as ->.
      { apply (Hcons n); [left; apply HP, Ho|].
        right. exists line. split; [left|exact Hd]. }
      rewrite N.eqb_refl. cbn. eauto. }
  destruct Hstep as [c1 E]. rewrite E.
  destruct (readConstLines_inr arch fname consts [line] c1 P HP) as [HP1 _].
  { cbn [readConstLines]. rewrite E. reflexivity. }
  apply (IH c1 _ HP1).
  - intros l Hl. apply Hwf. right. exact Hl.
  - intros n v v' H1 H2. apply (Hcons n).
    + destruct H1 as [[Hp|(l & Hin & Hd)]|(l & Hin & Hd)]; [auto| |].
      * apply list_elem_of_singleton in Hin as ->. right. exists line. split; [left|auto].
      * right. exists l. split; [right; exact Hin|auto].
    + destruct H2 as [[Hp|(l & Hin & Hd)]|(l & Hin & Hd)]; [auto| |].
      * apply list_elem_of_singleton in Hin as ->. right. exists line. split; [left|auto].
      * right. exists l. split; [right; exact Hin|auto].
Qed.

Lemma readConstFiles_ok arch consts files P :
  tableOf P consts ->
  wellFormed files ->
  (forall n v v', (P n v \/ defined files n v) -> (P n v' \/ defined files n v') ->
                  v = v') ->
  exists consts', readConstFiles arch consts files = inr consts'.
Proof.
  revert consts P. induction files as [|[fname lines] files IH];
    intros consts P HP Hwf Hcons; cbn [readConstFiles]; [eauto|].
  destruct (readConstLines_ok arch fname consts lines P HP) as [c1 E].
  { intros l Hl. apply (Hwf fname lines); [left|exact Hl]. }
  { intros n v v' H1 H2. apply (Hcons n).
    - destruct H1 as [Hp|(l & Hin & Hd)]; [auto|].
      right. exists fname, lines, l. split; [left|auto].
    - destruct H2 as [Hp|(l & Hin & Hd)]; [auto|].
      right. exists fname, lines, l. split; [left|auto]. }
  rewrite E.
  destruct (readConstLines_inr _ _ _ _ _ _ HP E) as [HP1 _].
  apply (IH c1 _ HP1).
  - intros f ls l Hin Hl. apply (Hwf f ls); [right; exact Hin|exact Hl].
  - intros n v v' H1 H2. apply (Hcons n).
    + destruct H1 as [[Hp|(l & Hin & Hd)]|(f & ls & l & Hin & Hl & Hd)]; [auto| |].
      * right. exists fname, lines, l. split; [left|auto].
      * right. exists f, ls, l. split; [right; exact Hin|auto].
    + destruct H2 as [[Hp|(l & Hin & Hd)]|(f & ls & l & Hin & Hl & Hd)]; [auto| |].
      * right. exists fname, lines, l. split; [left|auto].
      * right. exists f, ls, l. split; [right; exact Hin|auto].
Qed.

Lemma tableOf_empty : tableOf (fun _ _ => False) ∅.
Proof. intros n v. rewrite lookup_empty. split; [discriminate|contradiction]. Qed.

Lemma readConstFiles_table arch files consts :
  readConstFiles arch ∅ files = inr consts ->
  wellFormed files /\
  forall n v, consts !! n = Some v <-> defined files n v.
Proof.
  intros H.
  destruct (readConstFiles_inr _ _ _ _ _ tableOf_empty H) as [HP Hwf].
  split; [exact Hwf|]. intros n v. rewrite (HP n v). tauto.
Qed.

(** X12: the files are read without an error exactly when every line is empty,
    a comment or a definition, and no name is given two different values,
    within a file or across files; a value that is repeated is accepted. The
    table then holds the definitions of the files and nothing else. *)
Theorem readConstFiles_succeeds_iff arch files :
  (wellFormed files /\ consistent files <->
   exists consts, readConstFiles arch ∅ files = inr consts) /\
  (forall consts, readConstFiles arch ∅ files = inr consts ->
     forall n v, consts !! n = Some v <-> defined files n v).
Proof.
  split; [split|].
  - intros [Hwf Hcons].
    apply (readConstFiles_ok arch ∅ files _ tableOf_empty Hwf).
    intros n v v' [[]|H1] [[]|H2]. exact (Hcons n v v' H1 H2).
  - intros [consts H]. destruct (readConstFiles_table _ _ _ H) as [Hwf Htab].
    split; [exact Hwf|]. intros n v v' H1 H2.
    apply Htab in H1, H2. congruence.
  - intros consts H. exact (proj2 (readConstFiles_table _ _ _ H)).
Qed.

Lemma addSyzkalls_other order consts n :
  (forall k nr, (k, nr) ∈ order -> n <> "__NR_" +:+ k) ->
  addSyzkalls order consts !! n = consts !! n.
Proof.
  unfold addSyzkalls. revert consts.
  induction order as [|[k nr] order IH]; intros consts Hn; cbn [foldl]; [reflexivity|].
  rewrite IH by (intros k' nr' Hin; apply (Hn k' nr'); right; exact Hin).
  cbn [fst snd]. apply lookup_insert_ne. intros Heq. symmetry in Heq.
  exact (Hn k nr (list_elem_of_here _ _) Heq).
Qed.

Lemma addSyzkalls_entry order consts k nr :
  NoDup order.*1 -> (k, nr) ∈ order ->
  addSyzkalls order consts !! ("__NR_" +:+ k) = Some nr.
Proof.
  unfold addSyzkalls. revert consts.
  induction order as [|[k0 nr0] order IH]; intros consts Hnd Hin; [inversion Hin|].
  cbn [fmap list_fmap fst] in Hnd. apply NoDup_cons in Hnd as [Hk0 Hnd].
  cbn [foldl fst snd]. apply elem_of_cons in Hin as [[= -> ->]|Hin].
  - change (addSyzkalls order (<["__NR_" +:+ k0 := nr0]> consts)
              !! ("__NR_" +:+ k0) = Some nr0).
    rewrite addSyzkalls_other; [apply lookup_insert_eq|].
    intros k' nr' Hin' Heq. apply (inj (String.app "__NR_")) in Heq. subst k'.
    apply Hk0. apply list_elem_of_fmap. exists (k0, nr'). auto.
  - apply IH; assumption.
Qed.

(** X13: the numbers of [syzkalls] are entered last, under the name of the
    call with the prefix [__NR_], and without the check for a different value:
    an entry of the files under such a name is replaced. Every other name has
    the value that the files give it, and the numbers cannot make [readConsts]
    fail. *)
Theorem syzkalls_are_entered_last arch files order (syzkalls : gmap string N) :
  order ≡ₚ map_to_list syzkalls ->
  (forall e, readConsts arch files order = inl e <->
             readConstFiles arch ∅ files = inl e) /\
  (forall consts, readConsts arch files order = inr consts ->
     (forall k nr, syzkalls !! k = Some nr ->
                   consts !! ("__NR_" +:+ k) = Some nr) /\
     (forall n, (forall k, is_Some (syzkalls !! k) -> n <> "__NR_" +:+ k) ->
                forall v, consts !! n = Some v <-> defined files n v)).
Proof.
  intros Hperm. unfold readConsts.
  destruct (readConstFiles arch ∅ files) as [e0|c0] eqn:E.
  { split; [intros e; reflexivity|]. intros consts H. discriminate H. }
  split; [intros e; split; discriminate|].
  intros consts [= <-]. split.
  - intros k nr Hk. apply addSyzkalls_entry.
    + rewrite Hperm. apply NoDup_fst_map_to_list.
    + rewrite Hperm. apply elem_of_map_to_list. exact Hk.
  - intros n Hn v. rewrite addSyzkalls_other.
    + exact (proj2 (readConstFiles_table _ _ _ E) n v).
    + intros k nr Hin. apply Hn. rewrite Hperm in Hin.
      apply elem_of_map_to_list in Hin. eauto.
Qed.

End ReadConstsProperties.

Lemma readConstFiles_succeeds_iff_witness :
  wellFormed (go := decimalLines) constFiles /\
  consistent (go := decimalLines) constFiles.
Proof.
  apply (proj1 (readConstFiles_succeeds_iff (go := decimalLines) "amd64"
                  constFiles)).
  destruct (readConstFiles (go := decimalLines) "amd64" ∅ constFiles)
    as [e|consts] eqn:E; [|eexists; reflexivity].
  exfalso.
  assert (Hok : match readConstFiles (go := decimalLines) "amd64" ∅ constFiles with
                | inr _ => true
                | inl _ => false
                end = true) by (vm_compute; reflexivity).
  rewrite E in Hok. discriminate Hok.
Defined.

Lemma syzkalls_are_entered_last_witness :
  exists consts,
    readConsts (go := decimalLines) "amd64" constFiles (map_to_list testSyzkalls)
      = inr consts /\
    consts !! "__NR_syz_test" = Some 1000001%N.
Proof.
  assert (Hok : match readConsts (go := decimalLines) "amd64" constFiles
                        (map_to_list testSyzkalls) with
                | inr _ => true
                | inl _ => false
                end = true) by (vm_compute; reflexivity).
  destruct (readConsts (go := decimalLines) "amd64" constFiles
              (map_to_list testSyzkalls)) as [e|consts] eqn:E;
    [discriminate Hok|].
  exists consts. split; [reflexivity|].
  destruct (syzkalls_are_entered_last (go := decimalLines) "amd64" constFiles
              (map_to_list testSyzkalls) testSyzkalls) as [_ H]; [reflexivity|].
  destruct (H consts E) as [Hnr _].
  apply (Hnr "syz_test" 1000001%N). reflexivity.
Defined.

(** ** The constructs of [generateArg] *)

(** The first steps of the inversion of a successful call: the scan, then
    the [switch] with its result [r], then the final check. *)
Ltac generateArg_inv H a sl s r s1 HR :=
  cbn [generateArg] in H; rewrite (scanOpt_eta a) in H;
  rewrite (bind_Ok _ _ _ _ _ (scan_step sl a s)) in H;
  apply bind_Ok_inv in H as (r & s1 & HR & H).

(** X14: the constructs that may stand as an argument or a return value of a
    call. A run at top level that succeeds has compiled one of them, or a
    resource: [string], [salg_type], [salg_name] and [array] are refused, and
    so are struct and union references and unnamed types, which all reach the
    [default] case. *)
Theorem top_level_constructs consts fuel parent name typ dir a sl isField s t s' :
  generateArg consts fuel parent name typ dir a sl true isField s = Ok (t, s') ->
  (classify typ ∉ [CString; CSalgType; CSalgName; CArray]) /\
  (classify typ = CDefault ->
     HasPrefix typ "unnamed" = false /\
     Structs (description s) !! typ = None /\
     is_Some (Resources (description s) !! typ) /\
     exists c, t = ResourceType c typ).
Proof.
  destruct fuel as [|fuel]; [discriminate|]. intros H.
  generateArg_inv H a sl s r s1 HR.
  assert (Hex : r.2 = FallThrough true \/ r.2 = Return).
  { destruct r as [t0 [[|]|]]; cbn in H; [auto|discriminate|auto]. }
  split.
  { intros Hin.
    assert (Hf : r.2 = FallThrough false); [|rewrite Hf in Hex; destruct Hex; discriminate].
    clear H Hex.
    repeat (apply elem_of_cons in Hin as [Hin|Hin];
            [rewrite Hin in HR; mcases; reflexivity|]).
    inversion Hin. }
  intros Hc. rewrite Hc in HR.
  apply bind_Ok_inv in HR as (d0 & s2 & Hd0 & HR).
  apply gets_Ok_inv in Hd0 as [-> ->].
  destruct (HasPrefix typ "unnamed").
  { exfalso. clear H. mcases. cbn in Hex. destruct Hex; discriminate. }
  split; [reflexivity|].
  destruct (decide (is_Some (Structs (description (afterScan sl a s)) !! typ)))
    as [|Hns].
  { exfalso. clear H. mcases. cbn in Hex. destruct Hex; discriminate. }
  destruct (decide (is_Some (Resources (description (afterScan sl a s)) !! typ)))
    as [Hres|]; [|discriminate].
  split.
  { rewrite afterScan_Structs_is_Some in Hns.
    destruct (Structs (description s) !! typ); [exfalso; apply Hns; eauto|reflexivity]. }
  split; [rewrite afterScan_Resources in Hres; exact Hres|].
  minv. cbn in H. minv. eauto.
Qed.

Lemma top_level_constructs_witness :
  (classify "fd" ∉ [CString; CSalgType; CSalgName; CArray]) /\
  (classify "fd" = CDefault ->
     HasPrefix "fd" "unnamed" = false /\
     Structs (description (initState readDescription)) !! "fd" = None /\
     is_Some (Resources (description (initState readDescription)) !! "fd") /\
     exists c, ResourceType (mkCommon "fd" DirIn false) "fd" = ResourceType c "fd").
Proof.
  apply (top_level_constructs ∅ 1 EmptyString "fd" "fd" "in" [] (ArgSlot 0 0)
           false (initState readDescription)
           (ResourceType (mkCommon "fd" DirIn false) "fd")
           (initState readDescription)).
  reflexivity.
Defined.

Lemma classify_CInt typ :
  classify typ = CInt ->
  typ ∈ ["int8"; "int16"; "int32"; "int64"; "intptr";
         "int16be"; "int32be"; "int64be"; "intptrbe"].
Proof.
  unfold classify. intros H.
  repeat match type of H with
         | (if String.eqb ?x ?y then _ else _) = _ =>
             destruct (String.eqb x y); [discriminate H|]
         | (if string_in ?x ?l then _ else _) = _ =>
             destruct (string_in x l) eqn:?; [try discriminate H|]
         end.
  - apply string_in_cases. assumption.
  - discriminate H.
Qed.

Lemma decodeIntType_CInt typ s :
  classify typ = CInt -> exists sb, decodeIntType typ s = Ok (sb, s).
Proof.
  intros H. apply classify_CInt in H.
  repeat (apply elem_of_cons in H as [->|H]; [eexists; vm_compute; reflexivity|]).
  inversion H.
Qed.

(** X15: a construct with a number of parameters that its case does not take
    is refused with the error for the wrong number of arguments, whatever the
    parameters are; so a run that succeeds has a number from the table. *)
Theorem wrong_number_of_arguments consts fuel parent name typ dir a sl isArg isField s :
  classify typ <> CDefault ->
  (arityOk (classify typ) isField (length (paramsOf a)) = false ->
   generateArg consts (S fuel) parent name typ dir a sl isArg isField s =
     Fatal (WrongNumberOfArguments typ name (length (paramsOf a)))) /\
  (forall t s',
     generateArg consts fuel parent name typ dir a sl isArg isField s = Ok (t, s') ->
     arityOk (classify typ) isField (length (paramsOf a)) = true).
Proof.
  intros Hc.
  assert (Hbad : forall fuel',
    arityOk (classify typ) isField (length (paramsOf a)) = false ->
    generateArg consts (S fuel') parent name typ dir a sl isArg isField s =
      Fatal (WrongNumberOfArguments typ name (length (paramsOf a)))).
  { intros fuel' Har. cbn [generateArg]. rewrite (scanOpt_eta a).
    rewrite (bind_Ok _ _ _ _ _ (scan_step sl a s)).
    destruct (classify typ) eqn:Hcl; [..|congruence]; cbn [arityOk] in Har;
      unfold procValues, bind, sizeOf, wantArgs, failIf;
      try (rewrite Har; reflexivity);
      try (destruct isField; rewrite Har; reflexivity).
    - (* string *)
      apply Nat.leb_gt in Har.
      destruct (paramsOf a) as [|x0 [|x1 [|x2 l]]]; cbn in Har; try lia; reflexivity.
    - (* vma *)
      apply Nat.leb_gt in Har.
      destruct (paramsOf a) as [|x0 [|x1 l]]; cbn in Har; try lia; reflexivity.
    - (* int *)
      apply Nat.leb_gt in Har.
      destruct (decodeIntType_CInt typ (afterScan sl a s) Hcl) as [sb ->].
      destruct (paramsOf a) as [|x0 [|x1 l]]; cbn in Har; try lia; reflexivity.
    - (* array *)
      apply orb_false_iff in Har as [-> ->]. reflexivity. }
  split; [apply Hbad|].
  intros t s' H.
  destruct (arityOk (classify typ) isField (length (paramsOf a))) eqn:E;
    [reflexivity|].
  destruct fuel as [|fuel]; [discriminate|].
  rewrite (Hbad fuel eq_refl) in H. discriminate.
Qed.

Lemma wrong_number_of_arguments_witness :
  generateArg ∅ 1 EmptyString "x" "ptr" "in" ["in"] NoSlot false true
    (initState emptyDescription)
  = Fatal (WrongNumberOfArguments "ptr" "x" 1).
Proof.
  destruct (wrong_number_of_arguments ∅ 0 EmptyString "x" "ptr" "in" ["in"]
              NoSlot false true (initState emptyDescription)) as [H _].
  - discriminate.
  - apply H. reflexivity.
Defined.

(** X16: the header of a compiled node: it carries the name the node was
    compiled for and is optional exactly when the marker [opt] is among the
    parameters; its direction is the requested one, which must be one of the
    three, except for [ptr], which is always in. A struct or union reference
    has no header: it is the key made of the type, the name and the direction
    as it is written, which is not checked. (A type with the prefix [unnamed]
    stands for another type, compiled without a name.) *)
Theorem header_of_node consts fuel parent name typ dir a sl isArg isField s t s' :
  HasPrefix typ "unnamed" = false ->
  generateArg consts fuel parent name typ dir a sl isArg isField s = Ok (t, s') ->
  match headerOf t with
  | Some c =>
      TypeName c = name /\ IsOptional c = optOf a /\
      if String.eqb typ "ptr" then ArgDir c = DirIn
      else dirOf dir = Some (ArgDir c)
  | None =>
      t = StructRef (mkKey typ name dir) /\
      is_Some (Structs (description s) !! typ)
  end.
Proof.
  intros Hun H. destruct fuel as [|fuel]; [discriminate|].
  generateArg_inv H a sl s r s1 HR.
  assert (Ht : t = r.1).
  { destruct r as [t0 [cb|]]; cbn in H; minv; reflexivity. }
  clear H. subst t.
  destruct (classify typ) eqn:Hc.
  15:{ (* ptr *)
    assert (typ = "ptr") as ->.
    { revert Hc. unfold classify.
      repeat match goal with
             | |- (if String.eqb ?x ?y then _ else _) = _ -> _ =>
                 destruct (String.eqb_spec x y); [try discriminate|]
             | |- (if string_in ?x ?l then _ else _) = _ -> _ =>
                 destruct (string_in x l); [discriminate|]
             end; [intros _; assumption|discriminate]. }
    mcases. cbn.
    match goal with Hi : dirOf "in" = Some _ |- _ => injection Hi as <- end.
    auto. }
  15:{ (* default *)
    rewrite Hun in HR.
    apply bind_Ok_inv in HR as (d0 & s2 & Hd0 & HR).
    apply gets_Ok_inv in Hd0 as [-> ->].
    destruct (decide (is_Some (Structs (description (afterScan sl a s)) !! typ)))
      as [Hs|_].
    - minv. cbn. split; [reflexivity|].
      apply afterScan_Structs_is_Some in Hs. exact Hs.
    - destruct (decide (is_Some (Resources (description (afterScan sl a s)) !! typ)));
        [|discriminate].
      minv. cbn. assert (typ <> "ptr") by (intros ->; discriminate Hc).
      destruct (String.eqb_spec typ "ptr"); [contradiction|]. auto. }
  all: assert (Hne : String.eqb typ "ptr" = false)
         by (destruct (String.eqb_spec typ "ptr") as [->|]; [discriminate Hc|reflexivity]).
  all: rewrite Hne.
  all: mcases; cbn; auto.
  destruct (length _ =? 0)%nat; cbn; auto.
Qed.

Lemma header_of_node_witness :
  TypeName (mkCommon "buf" DirOut true) = "buf" /\
  IsOptional (mkCommon "buf" DirOut true) = optOf ["in"; "opt"] /\
  dirOf "out" = Some (ArgDir (mkCommon "buf" DirOut true)).
Proof.
  exact (header_of_node ∅ 1 "S" "buf" "buffer" "out" ["in"; "opt"] NoSlot false
           true (initState emptyDescription)
           (PtrType (mkCommon "buf" DirOut true)
              (BufferType (mkCommon "buf" DirIn false) BufferBlobRand))
           (initState emptyDescription) eq_refl eq_refl).
Defined.

(** Membership in a list that is written out. *)
Ltac in_list := repeat first [apply list_elem_of_here | apply list_elem_of_further].

(** No membership: the element differs from every one that is listed. *)
Ltac not_in_list H :=
  solve [repeat (apply elem_of_cons in H as [H|H]; [discriminate H|]); inversion H].

Lemma primitiveSize_cases base : primitiveSize base ∈ [1; 2; 4; 8]%N.
Proof.
  unfold primitiveSize.
  repeat (destruct (String.eqb _ _); [in_list|]). in_list.
Qed.

Lemma decodeIntType_size typ s sb s' :
  decodeIntType typ s = Ok (sb, s') -> sb.1 ∈ [1; 2; 4; 8]%N.
Proof.
  destruct sb as [size be]. intros H.
  apply decodeIntType_Ok_inv in H as (_ & base & _ & _ & ->).
  apply primitiveSize_cases.
Qed.

Lemma sizeOf_size typ name isField wf wa pos a s sb s' :
  sizeOf typ name isField wf wa pos a s = Ok (sb, s') ->
  sb.1 ∈ [1; 2; 4; 8]%N /\ (isField = false -> sb = (8%N, false)).
Proof.
  unfold sizeOf. destruct isField; intros H; minv.
  - split; [|discriminate]. eapply decodeIntType_size. eassumption.
  - split; [in_list|reflexivity].
Qed.

Lemma procValues_size typ name isField a s pv s' :
  procValues typ name isField a s = Ok (pv, s') ->
  pv.1.1.1 ∈ [1; 2; 4; 8]%N /\ (isField = false -> pv.1.1 = (8%N, false)).
Proof.
  unfold procValues. intros H.
  apply bind_Ok_inv in H as (p & s1 & Hp & H).
  assert (Hsz : p.1.1.1 ∈ [1; 2; 4; 8]%N /\ (isField = false -> p.1.1 = (8%N, false))).
  { clear H. destruct isField; minv; cbn [fst snd].
    - split; [|discriminate]. eapply decodeIntType_size. eassumption.
    - split; [in_list|reflexivity]. }
  clear Hp. mcases. cbn [fst snd]. destruct p as [[[sz be] st] pp].
  exact Hsz.
Qed.

(** X17: the size of an integer-like node, whichever construct it comes from
    and however deep the unnamed types that stand for it are nested, is 1, 2,
    4 or 8 bytes. At top level, where [isField] is false, every construct but
    the integer kinds themselves and [signalno] has the size of a pointer and
    the byte order of the machine, whatever its parameters say. *)
Theorem integer_layout consts fuel parent name typ dir a sl isArg isField s t s'
    sz be :
  generateArg consts fuel parent name typ dir a sl isArg isField s = Ok (t, s') ->
  layoutOf t = Some (sz, be) ->
  sz ∈ [1; 2; 4; 8]%N /\
  (isField = false ->
   classify typ ∈ [CFileoff; CLen; CFlags; CConst; CProc] ->
   sz = 8%N /\ be = false).
Proof.
  revert parent name typ dir a sl isArg isField s t s'.
  induction fuel as [|fuel IH]; intros parent name typ dir a sl isArg isField s t s'
    H Hl; [discriminate|].
  generateArg_inv H a sl s r s1 HR.
  assert (Ht : t = r.1).
  { destruct r as [t0 [cb|]]; cbn in H; minv; reflexivity. }
  clear H. subst t.
  destruct (classify typ) eqn:Hc.
  16:{ (* default *)
    split; [|intros _ Hin; not_in_list Hin].
    apply bind_Ok_inv in HR as (d0 & s2 & Hd0 & HR).
    apply gets_Ok_inv in Hd0 as [-> ->].
    destruct (HasPrefix typ "unnamed").
    - destruct (Unnamed _ !! typ) as [inner|]; [|discriminate].
      apply bind_Ok_inv in HR as (i0 & s2 & _ & HR).
      apply bind_Ok_inv in HR as (t & s3 & Ht & HR).
      apply ret_Ok_inv in HR as [-> _]. cbn [fst] in Hl.
      exact (proj1 (IH _ _ _ _ _ _ _ _ _ _ _ Ht Hl)).
    - mcases; cbn in Hl; discriminate. }
  all: mcases; cbn in Hl; try discriminate;
    try (destruct (length _ =? 0)%nat; cbn in Hl);
    injection Hl as <- <-.
  all: repeat match goal with
         | Hs : sizeOf _ _ _ _ _ _ _ _ = Ok _ |- _ => apply sizeOf_size in Hs as [? ?]
         | Hs : procValues _ _ _ _ _ = Ok _ |- _ => apply procValues_size in Hs as [? ?]
         | Hs : decodeIntType _ _ = Ok _ |- _ => apply decodeIntType_size in Hs
         end.
  all: split; [first [assumption|in_list]|].
  all: intros Hf Hin; try (exfalso; not_in_list Hin).
  all: match goal with Hs : _ = false -> _ = (_, _) |- _ => rewrite (Hs Hf) end.
  all: split; reflexivity.
Qed.

Lemma integer_layout_witness :
  8%N ∈ [1; 2; 4; 8]%N /\
  (false = false ->
   classify "const" ∈ [CFileoff; CLen; CFlags; CConst; CProc] ->
   8%N = 8%N /\ false = false).
Proof.
  apply (integer_layout ∅ 1 EmptyString "cmd" "const" "in" ["FOO"] (ArgSlot 0 0)
           true false (initState ioctlDescription)
           (ConstType (mkCommon "cmd" DirIn false) 8 false "0")
           (initState ioctlDescription) 8%N false).
  - reflexivity.
  - reflexivity.
Defined.

(** X18: what a [proc] that compiles has passed. Each process gets at least
    one value. With a size of 8 bytes the bound [1 << 64] is 0 in [int64], so
    the start is negative; this is the size of every [proc] that is an
    argument of a call. With a smaller size and a stride of at most 2^57 the
    checks are exact: the start and the last value of the last of the 32
    processes are below 2^(8*size). *)
Theorem proc_passed_checks consts fuel parent name dir a sl isArg isField s t s' :
  generateArg consts fuel parent name "proc" dir a sl isArg isField s = Ok (t, s') ->
  exists c size bigEndian start perProc,
    t = ProcType c size bigEndian start perProc /\
    (1 <= perProc)%Z /\
    (isField = false -> size = 8%N) /\
    (size = 8%N -> (start < 0)%Z) /\
    ((size < 8)%N -> (perProc <= 2 ^ 57)%Z ->
     (start < 2 ^ (8 * Z.of_N size))%Z /\
     (start + 32 * perProc < 2 ^ (8 * Z.of_N size))%Z).
Proof.
  intros H. destruct fuel as [|fuel]; [discriminate|].
  generateArg_inv H a sl s r s1 HR.
  change (classify "proc") with CProc in HR. cbv iota in HR.
  apply bind_Ok_inv in HR as (pv & s2 & Hpv & HR).
  apply bind_Ok_inv in HR as (c & s3 & _ & HR).
  apply ret_Ok_inv in HR as [-> ->]. cbn in H. minv.
  destruct pv as [[[size be] start] perProc]. cbn [fst snd].
  exists c, size, be, start, perProc. split; [reflexivity|].
  assert (Hchk := procValues_checks _ _ _ _ _ _ _ _ _ _ Hpv).
  destruct Hchk as (H1 & H2 & _).
  split; [exact H1|]. split; [|split].
  - intros Hf. apply procValues_size in Hpv as [_ Hsz].
    specialize (Hsz Hf). cbn in Hsz. congruence.
  - intros ->. exact H2.
  - intros Hlt Hp.
    destruct (proc_checks_exact_without_overflow _ _ _ _ _ _ _ _ _ _ Hpv Hlt Hp)
      as (_ & Hs & He).
    auto.
Qed.

Lemma proc_passed_checks_witness :
  exists c size bigEndian start perProc,
    ProcType (mkCommon "port" DirIn false) 2 false 100 4
      = ProcType c size bigEndian start perProc /\
    (1 <= perProc)%Z /\
    (true = false -> size = 8%N) /\
    (size = 8%N -> (start < 0)%Z) /\
    ((size < 8)%N -> (perProc <= 2 ^ 57)%Z ->
     (start < 2 ^ (8 * Z.of_N size))%Z /\
     (start + 32 * perProc < 2 ^ (8 * Z.of_N size))%Z).
Proof.
  apply (proc_passed_checks ∅ 1 "S" "port" "in" ["int16"; "100"; "4"] NoSlot
           false true (initState emptyDescription)
           (ProcType (mkCommon "port" DirIn false) 2 false 100 4)
           (initState emptyDescription)).
  reflexivity.
Defined.

Lemma classify_CLen typ :
  classify typ = CLen ->
  typ ∈ ["len"; "bytesize"; "bytesize2"; "bytesize4"; "bytesize8"].
Proof.
  unfold classify. intros H.
  repeat match type of H with
         | (if String.eqb ?x ?y then _ else _) = _ =>
             destruct (String.eqb x y); [discriminate H|]
         | (if string_in ?x ?l then _ else _) = _ =>
             destruct (string_in x l) eqn:?; [try discriminate H|]
         end.
  - apply string_in_cases. assumption.
  - discriminate H.
Qed.

(** X19: [len] and the [bytesize] constructs compile to a length node that
    names the first parameter as the buffer it measures. The unit is 0 for
    [len], which counts elements, 1 for [bytesize], and the number at the end
    of the construct's name for the others. *)
Theorem len_unit consts fuel parent name typ dir a sl isArg isField s t s' :
  classify typ = CLen ->
  generateArg consts fuel parent name typ dir a sl isArg isField s = Ok (t, s') ->
  exists c buf size bigEndian unit,
    t = LenType c buf size bigEndian unit /\
    paramsOf a !! 0 = Some buf /\
    (typ, unit) ∈ [("len", 0%N); ("bytesize", 1%N); ("bytesize2", 2%N);
                   ("bytesize4", 4%N); ("bytesize8", 8%N)].
Proof.
  intros Hc H. destruct fuel as [|fuel]; [discriminate|].
  generateArg_inv H a sl s r s1 HR. rewrite Hc in HR.
  apply bind_Ok_inv in HR as (sb & s2 & _ & HR).
  apply bind_Ok_inv in HR as (bs & s3 & Hbs & HR).
  apply bind_Ok_inv in HR as (c & s4 & _ & HR).
  apply bind_Ok_inv in HR as (a0 & s5 & Ha0 & HR).
  apply index_Ok_inv in Ha0 as [Ha0 ->].
  apply ret_Ok_inv in HR as [-> ->]. cbn in H. minv.
  exists c, a0, sb.1, sb.2, bs. split; [reflexivity|]. split; [exact Ha0|].
  apply classify_CLen in Hc.
  repeat (apply elem_of_cons in Hc as [->|Hc];
          [vm_compute in Hbs; injection Hbs as <- _; in_list|]).
  inversion Hc.
Qed.

Lemma len_unit_witness :
  exists c buf size bigEndian unit,
    LenType (mkCommon "count" DirIn false) "buf" 8 false 4
      = LenType c buf size bigEndian unit /\
    paramsOf ["buf"] !! 0 = Some buf /\
    ("bytesize4", unit) ∈ [("len", 0%N); ("bytesize", 1%N); ("bytesize2", 2%N);
                           ("bytesize4", 4%N); ("bytesize8", 8%N)].
Proof.
  apply (len_unit ∅ 1 EmptyString "count" "bytesize4" "in" ["buf"] NoSlot true
           false (initState emptyDescription)
           (LenType (mkCommon "count" DirIn false) "buf" 8 false 4)
           (initState emptyDescription)).
  - reflexivity.
  - reflexivity.
Defined.

(** ** The struct map *)

Lemma registerDirs_lookup_Some n f id m k v :
  registerDirs n f id m !! k = Some v ->
  (v = id /\ name k = n /\ field k = f /\ dir k ∈ directions) \/ m !! k = Some v.
Proof.
  unfold registerDirs, directions. cbn [foldl]. intros Hv.
  rewrite !lookup_insert in Hv.
  repeat case_decide; subst; cbn in *;
    first [right; exact Hv
          | left; injection Hv as <-; repeat split; in_list].
Qed.

Lemma registerFields_lookup d flds m m' k v :
  registerFields d flds m = Ok m' ->
  m' !! k = Some v ->
  m !! k = Some v \/
  (dir k ∈ directions /\ v = name k /\ is_Some (Structs d !! name k) /\
   exists a, a ∈ flds /\ a !! 0 = Some (field k) /\ a !! 1 = Some (name k)).
Proof.
  revert m. induction flds as [|a flds IH]; intros m H Hk; cbn [registerFields] in H.
  - injection H as <-. auto.
  - destruct (a !! 1) as [a1|] eqn:Ha1; [|discriminate].
    destruct (decide (is_Some (Structs d !! a1))) as [Hs|_].
    + destruct (a !! 0) as [a0|] eqn:Ha0; [|discriminate].
      destruct (IH _ H Hk) as [Hm|(Hd & Hv & Hs' & b & Hb & Hb0 & Hb1)].
      * apply registerDirs_lookup_Some in Hm as [(-> & <- & <- & Hd)|Hm]; [|auto].
        right. repeat split; try assumption; try reflexivity.
        exists a. split; [left|auto].
      * right. repeat split; try assumption.
        exists b. split; [right; exact Hb|auto].
    + destruct (IH _ H Hk) as [Hm|(Hd & Hv & Hs' & b & Hb & Hb0 & Hb1)]; [auto|].
      right. repeat split; try assumption.
      exists b. split; [right; exact Hb|auto].
Qed.

Lemma buildStructMap_lookup d order m m' k v :
  buildStructMap d order m = Ok m' ->
  m' !! k = Some v ->
  m !! k = Some v \/ registered d order k v.
Proof.
  revert m. induction order as [|[id str] order IH]; intros m H Hk;
    cbn [buildStructMap] in H.
  - injection H as <-. auto.
  - destruct (registerFields d (Flds str) _) as [m1| | |] eqn:E; try discriminate.
    assert (Hmono : forall k v, registered d order k v ->
                                registered d ((id, str) :: order) k v).
    { intros k0 v0 (Hd & [(str0 & Hin & Hr)|(id' & str0 & a & Hin & Hr)]).
      - split; [exact Hd|]. left. exists str0. split; [right; exact Hin|exact Hr].
      - split; [exact Hd|]. right. exists id', str0, a.
        split; [right; exact Hin|exact Hr]. }
    destruct (IH _ H Hk) as [Hm1|Hreg]; [|auto].
    destruct (registerFields_lookup _ _ _ _ _ _ E Hm1)
      as [Hm|(Hd & -> & Hs & a & Ha & Ha0 & Ha1)].
    + apply registerDirs_lookup_Some in Hm as [(-> & Hn & Hf & Hd)|Hm]; [|auto].
      right. split; [exact Hd|]. left. exists str. split; [left|auto].
    + right. split; [exact Hd|]. right. exists id, str, a.
      split; [left|]. auto 10.
Qed.

(** X20: the struct map holds what the first pass has registered and
    nothing else: every key comes from a definition, under the empty field
    name, or from a field whose type is a struct, and has one of the three
    directions. *)
Theorem struct_map_keys d sched m :
  structMap d sched = Ok m ->
  forall k id, m !! k = Some id -> registered d (structOrder sched) k id.
Proof.
  unfold structMap. intros H k id Hk.
  destruct (buildStructMap_lookup _ _ _ _ _ _ H Hk) as [He|Hr]; [|exact Hr].
  rewrite lookup_empty in He. discriminate.
Qed.

Lemma pairStructMap_built :
  structMap pairDescription pairSchedule = Ok pairStructMap.
Proof.
  unfold structMap, pairStructMap. cbn [structOrder pairSchedule].
  assert (Hok : match buildStructMap pairDescription
                        (map_to_list (Structs pairDescription)) ∅ with
                | Ok _ => true
                | _ => false
                end = true) by (vm_compute; reflexivity).
  destruct (buildStructMap pairDescription _ ∅); try discriminate Hok.
  reflexivity.
Qed.

Lemma struct_map_keys_witness :
  registered pairDescription (structOrder pairSchedule)
    (mkKey "point" "first" "in") "point".
Proof.
  apply (struct_map_keys pairDescription pairSchedule pairStructMap
           pairStructMap_built).
  vm_compute. reflexivity.
Defined.

Lemma registerFields_complete d flds m :
  (forall a, a ∈ flds -> 2 <= length a) ->
  exists m', registerFields d flds m = Ok m'.
Proof.
  revert m. induction flds as [|a flds IH]; intros m Hlen; cbn [registerFields];
    [eauto|].
  assert (Ha : 2 <= length a) by (apply Hlen; left).
  destruct a as [|a0 [|a1 a]]; cbn in Ha; try lia. cbn.
  destruct (decide (is_Some (Structs d !! a1)));
    apply IH; intros b Hb; apply Hlen; right; exact Hb.
Qed.

Lemma registerFields_Ok_complete d flds m m' :
  registerFields d flds m = Ok m' -> forall a, a ∈ flds -> 2 <= length a.
Proof.
  revert m. induction flds as [|a flds IH]; intros m H b Hb; [inversion Hb|].
  cbn [registerFields] in H.
  destruct (a !! 1) as [a1|] eqn:Ha1; [|discriminate].
  apply elem_of_cons in Hb as [->|Hb].
  - apply lookup_lt_Some in Ha1. lia.
  - destruct (decide (is_Some (Structs d !! a1))); [|eauto].
    destruct (a !! 0); [eauto|discriminate].
Qed.

Lemma registerFields_outcome d flds m :
  (exists m', registerFields d flds m = Ok m') \/ registerFields d flds m = Panic.
Proof.
  revert m. induction flds as [|a flds IH]; intros m; cbn [registerFields]; [eauto|].
  destruct (a !! 1); [|auto].
  destruct (decide _); [|apply IH]. destruct (a !! 0); [apply IH|auto].
Qed.

(** X21: the first pass of [generateStructs] fails in one way only: it panics
    on a field that has no type token. It succeeds exactly when every field of
    every struct has at least a name and a type. *)
Theorem struct_map_built_iff d order m :
  ((exists m', buildStructMap d order m = Ok m') <-> fieldsComplete order) /\
  (~ fieldsComplete order -> buildStructMap d order m = Panic).
Proof.
  assert (Hiff : forall m, (exists m', buildStructMap d order m = Ok m') <->
                           fieldsComplete order).
  { clear m. induction order as [|[id str] order IH]; intros m.
    - split; [|cbn; eauto]. intros _ id str a Hin. inversion Hin.
    - cbn [buildStructMap]. split.
      + intros [m' H].
        destruct (registerFields d (Flds str) _) as [m1| | |] eqn:E; try discriminate.
        intros id' str' a Hin Ha. apply elem_of_cons in Hin as [[= -> ->]|Hin].
        * exact (registerFields_Ok_complete _ _ _ _ E a Ha).
        * assert (Hc : fieldsComplete order) by (apply (IH m1); eauto).
          exact (Hc id' str' a Hin Ha).
      + intros Hc.
        destruct (registerFields_complete d (Flds str)
                    (registerDirs (Struct_Name str) EmptyString id m)) as [m1 ->].
        { intros a Ha. apply (Hc id str); [left|exact Ha]. }
        apply IH. intros id' str' a Hin Ha. apply (Hc id' str'); [right; exact Hin|exact Ha]. }
  split; [apply Hiff|].
  intros Hn.
  assert (Hout : forall m, (exists m', buildStructMap d order m = Ok m') \/
                           buildStructMap d order m = Panic).
  { clear. induction order as [|[id str] order IH]; intros m; cbn [buildStructMap];
      [eauto|].
    destruct (registerFields_outcome d (Flds str)
                (registerDirs (Struct_Name str) EmptyString id m)) as [[m1 ->]| ->];
      [apply IH|auto]. }
  destruct (Hout m) as [Hok|Hp]; [|exact Hp].
  exfalso. apply Hn, (Hiff m), Hok.
Qed.

Lemma directions_dirOf dr : dr ∈ directions <-> is_Some (dirOf dr).
Proof.
  unfold directions, dirOf. split.
  - intros H. repeat (apply elem_of_cons in H as [->|H]; [cbn; eauto|]). inversion H.
  - intros [x H].
    destruct (String.eqb_spec dr "in") as [->|_]; [in_list|].
    destruct (String.eqb_spec dr "out") as [->|_]; [in_list|].
    destruct (String.eqb_spec dr "inout") as [->|_]; [in_list|discriminate].
Qed.

Lemma generateStructEntry_state key id s ke s' :
  generateStructEntry key id s = Ok (ke, s') -> s' = s.
Proof. unfold generateStructEntry. intros H. minv. reflexivity. Qed.

Lemma valid_schedule_order d sched id str :
  valid_schedule d sched ->
  (id, str) ∈ structOrder sched <-> Structs d !! id = Some str.
Proof.
  intros (_ & _ & Hord & _). rewrite Hord. apply elem_of_map_to_list.
Qed.

(** What a key of the struct map stands for, when every definition sits
    under its own name: the definition of the struct that the key names. *)
Lemma struct_map_value d sched m k id :
  wellNamed d -> valid_schedule d sched -> structMap d sched = Ok m ->
  m !! k = Some id ->
  id = name k /\ dir k ∈ directions /\ is_Some (Structs d !! id).
Proof.
  intros Hwf Hvs Hm Hk.
  unfold structMap in Hm.
  destruct (buildStructMap_lookup _ _ _ _ _ _ Hm Hk) as [He|Hreg];
    [rewrite lookup_empty in He; discriminate He|].
  destruct Hreg
    as (Hd & [(str & Hin & Hn & _)|(id' & str & a & _ & _ & _ & _ & Hs & ->)]).
  - apply (valid_schedule_order _ _ _ _ Hvs) in Hin.
    split; [|split; [exact Hd|eauto]].
    rewrite Hn. symmetry. exact (Hwf _ _ Hin).
  - auto.
Qed.

(** X22: the table of struct entries: the second pass prints one entry for
    each key of the struct map and cannot fail. The entry of a key is named
    after the field, or after the struct where the field name is empty; it has
    the direction of the key, is never optional, and has the union, packed,
    align and varlen attributes of the definition. *)
Theorem struct_entries consts fuel sched s :
  wellNamed (description s) ->
  valid_schedule (description s) sched ->
  (exists entries,
     mapM (fun ks => generateStructEntry ks.1 ks.2) (entryOrder sched) s
       = Ok (entries, s)) /\
  (forall entries fields s',
     generateStructs consts fuel sched s = Ok (entries, fields, s') ->
     forall k e, (k, e) ∈ entries ->
       exists str dr,
         Structs (description s) !! name k = Some str /\
         dirOf (dir k) = Some dr /\
         e = mkStructEntry (IsUnion str)
               (mkCommon (if String.eqb (field k) EmptyString then name k
                          else field k) dr false)
               (Packed str) (Align str) (Varlen str)).
Proof.
  intros Hwf Hvs.
  assert (Hm := Hvs). destruct Hm as (_ & _ & _ & m & Hm & Hpe & _).
  assert (Hrun : forall k id, (k, id) ∈ entryOrder sched ->
            exists str dr,
              Structs (description s) !! name k = Some str /\
              dirOf (dir k) = Some dr /\
              generateStructEntry k id s =
                Ok (k, mkStructEntry (IsUnion str)
                         (mkCommon (if String.eqb (field k) EmptyString then name k
                                    else field k) dr false)
                         (Packed str) (Align str) (Varlen str), s)).
  { intros k id Hin. rewrite Hpe in Hin. apply elem_of_map_to_list in Hin.
    destruct (struct_map_value _ _ _ _ _ Hwf Hvs Hm Hin) as (-> & Hd & [str Hs]).
    apply directions_dirOf in Hd as [dr Hd].
    exists str, dr. split; [exact Hs|]. split; [exact Hd|].
    unfold generateStructEntry, bind, gets, fmtDir, structOf.
    rewrite Hd, Hs. reflexivity. }
  split.
  - clear -Hrun. induction (entryOrder sched) as [|[k id] l IH]; cbn [mapM].
    + eexists. reflexivity.
    + destruct (Hrun k id) as (str & dr & _ & _ & Hr); [left|].
      destruct IH as [es Hes]; [intros; apply Hrun; right; assumption|].
      unfold bind at 1. cbn [fst snd]. rewrite Hr.
      unfold bind at 1. rewrite Hes. eexists. reflexivity.
  - intros entries fields s' H k e Hin.
    unfold generateStructs in H.
    apply bind_Ok_inv in H as (d & s1 & Hd & H).
    apply gets_Ok_inv in Hd as [-> ->].
    apply bind_Ok_inv in H as (m' & s2 & Hl & H).
    assert (s2 = s) as ->.
    { unfold liftO in Hl. destruct (buildStructMap _ _ _); try discriminate.
      injection Hl as _ <-. reflexivity. }
    apply bind_Ok_inv in H as (es & s3 & He & H).
    apply bind_Ok_inv in H as (fs & s4 & _ & H).
    apply ret_Ok_inv in H as [[= -> ->] _].
    apply (mapM_Ok_inv (fun st => st = s)) in He; [| |reflexivity].
    2:{ intros [k0 id0] st r st' -> Hr.
        exact (generateStructEntry_state _ _ _ _ _ Hr). }
    apply list_elem_of_lookup in Hin as [i Hi].
    destruct (Forall2_lookup_r _ _ _ _ _ He Hi) as ([k0 id0] & Hk0 & s1 & s2 & -> & Hr).
    cbn [fst snd] in Hr.
    destruct (Hrun k0 id0) as (str & dr & Hs & Hd & Hr').
    { apply list_elem_of_lookup. eauto. }
    rewrite Hr' in Hr. injection Hr as <- <- _. eauto.
Qed.

Lemma struct_entries_witness :
  exists entries,
    mapM (fun ks => generateStructEntry ks.1 ks.2) (entryOrder pairSchedule)
      (initState pairDescription) = Ok (entries, initState pairDescription).
Proof.
  exact (proj1 (struct_entries ∅ 2 pairSchedule (initState pairDescription)
                  pairDescription_wellNamed pairSchedule_valid)).
Defined.

(** X23: the direction of the pointee of a [ptr] is checked only by the header
    of the pointee, and a struct reference has none: a pointer to a struct
    compiles with any token as direction. With a token that is no direction
    the reference has a key that no struct map holds. *)
Theorem unchecked_pointee_direction consts fuel parent name typ dir a sl isArg
    isField s pd :
  dirOf pd = None ->
  paramsOf a = [pd; typ] ->
  classify typ = CDefault ->
  HasPrefix typ "unnamed" = false ->
  is_Some (Structs (description s) !! typ) ->
  generateArg consts (S (S fuel)) parent name "ptr" dir a sl isArg isField s =
    Ok (PtrType (mkCommon name DirIn (optOf a))
          (StructRef (mkKey typ EmptyString pd)), afterScan sl a s) /\
  forall d sched m,
    structMap d sched = Ok m -> m !! mkKey typ EmptyString pd = None.
Proof.
  intros Hpd Ha Hc Hp Hs. split.
  - exact (ptr_to_struct consts fuel parent name typ dir a sl isArg isField s pd
             Ha Hc Hp Hs).
  - intros d sched m Hm.
    destruct (m !! mkKey typ EmptyString pd) as [id|] eqn:Hk; [|reflexivity].
    unfold structMap in Hm.
    destruct (buildStructMap_lookup _ _ _ _ _ _ Hm Hk) as [He|[Hd _]];
      [rewrite lookup_empty in He; discriminate He|].
    apply directions_dirOf in Hd as [x Hx]. cbn in Hx. congruence.
Qed.

Lemma unchecked_pointee_direction_witness :
  generateArg ∅ 2 EmptyString "p" "ptr" "in" ["sideways"; "point"] NoSlot false
    true (initState pairDescription)
  = Ok (PtrType (mkCommon "p" DirIn false)
          (StructRef (mkKey "point" EmptyString "sideways")),
        initState pairDescription) /\
  pairStructMap !! mkKey "point" EmptyString "sideways" = None.
Proof.
  destruct (unchecked_pointee_direction ∅ 0 EmptyString "p" "point" "in"
              ["sideways"; "point"] NoSlot false true (initState pairDescription)
              "sideways") as [H1 H2].
  - reflexivity.
  - reflexivity.
  - reflexivity.
  - reflexivity.
  - exists pointStruct. reflexivity.
  - split; [exact H1|].
    exact (H2 pairDescription pairSchedule pairStructMap pairStructMap_built).
Defined.

(** ** Struct references *)

Lemma sameHeads_refl d : sameHeads d d.
Proof.
  intros id. destruct (Structs d !! id) as [str|]; constructor.
  apply Forall2_same_length_lookup. split; [reflexivity|].
  intros i a a' H1 H2. rewrite H1 in H2. injection H2 as <-. auto.
Qed.

Lemma sameHeads_is_Some d d' id :
  sameHeads d d' -> is_Some (Structs d !! id) <-> is_Some (Structs d' !! id).
Proof.
  intros H. specialize (H id).
  destruct H; split; intros [? ?]; try discriminate; eauto.
Qed.

Lemma scanOpt_back_length a : length (scanOpt a).2 = length a.
Proof.
  unfold scanOpt. destruct (removeOpt a) as [a'|] eqn:E; [|reflexivity].
  cbn [snd]. rewrite length_app, length_drop.
  assert (Hlen : S (length a') = length a).
  { clear -E. revert a' E. induction a as [|v a IH]; intros a' E; cbn in E;
      [discriminate|].
    destruct (String.eqb v "opt"); [injection E as <-; reflexivity|].
    destruct (removeOpt a) as [r|]; [|discriminate]. injection E as <-.
    cbn. rewrite (IH r eq_refl). reflexivity. }
  lia.
Qed.

Lemma store_sameHeads d0 d sl a :
  sameHeads d0 d -> slotFits d sl a ->
  sameHeads d0 (store sl (scanOpt a).2 d).
Proof.
  intros Hsame Hfit. destruct sl as [|i|i j|n j|u]; try exact Hsame.
  intros id. specialize (Hsame id). cbn [store Structs].
  rewrite lookup_alter. case_decide as Hid; [subst id|exact Hsame].
  destruct (Structs d !! n) as [str|] eqn:Hstr;
    destruct (Structs d0 !! n) as [str0|] eqn:Hstr0;
    inversion Hsame as [? ? Hf|]; subst; cbn; constructor.
  cbn [Flds].
  apply Forall2_same_length_lookup. apply Forall2_same_length_lookup in Hf as [Hlen Hf].
  split; [rewrite length_alter; exact Hlen|].
  intros i a0 a' H1 H2. rewrite list_lookup_alter in H2.
  case_decide as Hij.
  - subst i. destruct (Flds str !! j) as [fld|] eqn:Hfld; [|discriminate].
    injection H2 as <-. destruct (Hf j a0 fld H1 Hfld) as [Ht Hl].
    assert (Hfl := Hfit str fld Hstr Hfld).
    unfold overwrite_from. split.
    + rewrite take_app_le by (rewrite length_take; lia).
      rewrite take_take. replace (2 `min` 2) with 2 by lia. exact Ht.
    + rewrite length_app, length_take, scanOpt_back_length. lia.
  - exact (Hf i a0 a' H1 H2).
Qed.

Lemma slotFits_sameHeads d0 d sl a :
  sameHeads d0 d -> slotFits d0 sl a -> slotFits d sl a.
Proof.
  intros Hsame Hfit. destruct sl as [|i|i j|n j|u]; try exact I.
  intros str fld Hstr Hfld. specialize (Hsame n). rewrite Hstr in Hsame.
  inversion Hsame as [str0 ? Hf Hstr0|]; subst. symmetry in Hstr0.
  destruct (Forall2_lookup_r _ _ _ _ _ Hf Hfld) as (fld0 & Hfld0 & _ & Hlen).
  rewrite <- Hlen. exact (Hfit str0 fld0 Hstr0 Hfld0).
Qed.

Lemma keeps_generateArg_sameHeads consts d0 fuel :
  forall parent name typ dir a sl isArg isField,
    slotFits d0 sl a ->
    keeps (fun st => sameHeads d0 (description st))
      (generateArg consts fuel parent name typ dir a sl isArg isField).
Proof.
  induction fuel as [|fuel IH]; intros parent name typ dir a sl isArg isField Hfit;
    [apply keeps_outOfFuel|].
  cbn [generateArg]. rewrite (scanOpt_eta a).
  apply keeps_bind.
  { destruct (optOf a); [|apply keeps_ret].
    apply keeps_modify. intros s Hs. cbn [description].
    apply store_sameHeads; [exact Hs|].
    exact (slotFits_sameHeads _ _ _ _ Hs Hfit). }
  intros _. apply keeps_bind.
  2:{ intros r. keeps_auto. }
  destruct (classify typ);
    keeps_auto;
    first [ apply IH; exact I | apply keeps_sizeOf | apply keeps_decodeIntType
          | apply keeps_decodeByteSizeType | apply keeps_parseRange
          | apply keeps_stringValues | apply keeps_procValues
          | apply keeps_modify; intros s Hs;
            destruct (negb _); [exact Hs|exact Hs] ].
Qed.

Lemma parseRange_state b consts s r s' :
  parseRange b consts s = Ok (r, s') -> s' = s.
Proof.
  unfold parseRange. destruct (split_colon b) as [|p0 [|p1 [|p2 ps]]]; intros H; minv;
    reflexivity.
Qed.

(** The struct references in a compiled node: each names a declared struct,
    and its field name is empty unless the node itself is the reference,
    compiled for a name as a nested type. *)
Lemma generateArg_refs consts fuel :
  forall parent nm typ dir a sl isArg isField s t s',
    generateArg consts fuel parent nm typ dir a sl isArg isField s = Ok (t, s') ->
    forall k, k ∈ structRefs t ->
      is_Some (Structs (description s) !! name k) /\
      (field k = EmptyString \/
       (t = StructRef k /\ k = mkKey typ nm dir /\ isArg = false)).
Proof.
  induction fuel as [|fuel IH];
    intros parent nm typ dir a sl isArg isField s t s' H k Hk; [discriminate|].
  generateArg_inv H a sl s r s1 HR.
  assert (Ht : t = r.1 /\ (r.2 = FallThrough false -> isArg = false)).
  { destruct r as [t0 [cb|]]; cbn in H; minv; (split; [reflexivity|]);
      [|discriminate].
    intros [= ->]. destruct isArg; [discriminate|reflexivity]. }
  clear H. destruct Ht as [-> Harg].
  destruct (classify typ) eqn:Hc.
  16:{ (* default *)
    apply bind_Ok_inv in HR as (d0 & s2 & Hd0 & HR).
    apply gets_Ok_inv in Hd0 as [-> ->].
    destruct (HasPrefix typ "unnamed").
    - destruct (Unnamed _ !! typ) as [inner|]; [|discriminate].
      apply bind_Ok_inv in HR as (i0 & s2 & Hi0 & HR).
      apply index_Ok_inv in Hi0 as [_ ->].
      apply bind_Ok_inv in HR as (t & s3 & Ht & HR).
      apply ret_Ok_inv in HR as [-> _]. cbn [fst] in Hk.
      destruct (IH _ _ _ _ _ _ _ _ _ _ _ Ht k Hk) as [Hs Hf].
      split; [apply afterScan_Structs_is_Some in Hs; exact Hs|].
      left. destruct Hf as [Hf|(_ & -> & _)]; [exact Hf|reflexivity].
    - destruct (decide (is_Some (Structs (description (afterScan sl a s)) !! typ)))
        as [Hs|_].
      + minv. cbn [fst snd structRefs] in *.
        apply list_elem_of_singleton in Hk as ->. cbn [name].
        split; [apply afterScan_Structs_is_Some in Hs; exact Hs|].
        right. auto.
      + destruct (decide _); [|discriminate]. minv. cbn in Hk. inversion Hk. }
  14:{ (* array *)
    mcases; cbn [fst structRefs] in Hk; try (inversion Hk; fail).
    all: repeat match goal with
           | Hp : parseRange _ _ _ = Ok (_, _) |- _ =>
               apply parseRange_state in Hp; subst
           end.
    all: match goal with
         | Hg : generateArg _ _ _ _ _ _ _ _ _ _ _ = Ok (_, _) |- _ =>
             destruct (IH _ _ _ _ _ _ _ _ _ _ _ Hg k Hk) as [Hs Hf]
         end.
    all: split; [apply afterScan_Structs_is_Some in Hs; exact Hs|].
    all: left; destruct Hf as [Hf|(_ & -> & _)]; [exact Hf|reflexivity]. }
  14:{ (* ptr *)
    mcases; cbn [fst structRefs] in Hk.
    match goal with
    | Hg : generateArg _ _ _ _ _ _ _ _ _ _ _ = Ok (_, _) |- _ =>
        destruct (IH _ _ _ _ _ _ _ _ _ _ _ Hg k Hk) as [Hs Hf]
    end.
    split; [apply afterScan_Structs_is_Some in Hs; exact Hs|].
    left; destruct Hf as [Hf|(_ & -> & _)]; [exact Hf|reflexivity]. }
  all: exfalso; mcases; cbn in Hk;
    try (destruct (length _ =? 0)%nat; cbn in Hk);
    repeat (apply elem_of_cons in Hk as [Hk|Hk]; [discriminate Hk|]);
    inversion Hk.
Qed.

Lemma mapM_Ok_inv_in {A B} (P : state -> Prop) (f : A -> M B) l s ys s' :
  (forall x, x ∈ l -> keeps P (f x)) ->
  P s ->
  mapM f l s = Ok (ys, s') ->
  Forall2 (fun x y => exists s1 s2, P s1 /\ f x s1 = Ok (y, s2)) l ys.
Proof.
  revert s ys.
  induction l as [|x l IH]; intros s ys Hf HP H; cbn [mapM] in H.
  - apply ret_Ok_inv in H as [-> _]. constructor.
  - apply bind_Ok_inv in H as (y & s1 & Hy & H).
    apply bind_Ok_inv in H as (ys' & s2 & Hys & H).
    apply ret_Ok_inv in H as [-> ->].
    constructor; [eauto|].
    apply (IH s1); [intros; apply Hf; right; assumption| |exact Hys].
    exact (Hf x (list_elem_of_here _ _) s y s1 HP Hy).
Qed.

Lemma keeps_generateStructField_sameHeads consts d0 d' fuel key id parent j a :
  sameHeads d0 d' ->
  Flds (structOf d' id) !! j = Some a ->
  keeps (fun st => sameHeads d0 (description st))
    (generateStructField consts fuel key id parent (j, a)).
Proof.
  intros Hsame Hja. unfold generateStructField. cbn [fst snd].
  destruct a as [|a0 [|a1 rest]]; [keeps_auto..|].
  keeps_auto. apply keeps_generateArg_sameHeads.
  intros str fld Hstr Hfld. specialize (Hsame id). rewrite Hstr in Hsame.
  unfold structOf in Hja.
  inversion Hsame as [? str' Hf Hs0 Hs'|]; subst. rewrite <- Hs' in Hja. cbn in Hja.
  destruct (Forall2_lookup_l _ _ _ _ _ Hf Hfld) as (fld' & Hfld' & _ & Hlen).
  rewrite Hja in Hfld'. injection Hfld' as <-. rewrite Hlen. reflexivity.
Qed.

Lemma keeps_generateStructFields_sameHeads consts d0 fuel key id :
  keeps (fun st => sameHeads d0 (description st))
    (generateStructFields consts fuel key id).
Proof.
  unfold generateStructFields. intros s x s' Hs H.
  apply bind_Ok_inv in H as (d' & s1 & Hd & H).
  apply gets_Ok_inv in Hd as [-> ->].
  revert s' H. revert x.
  assert (Hk : keeps (fun st => sameHeads d0 (description st))
            (fields <- mapM (generateStructField consts fuel key id
                               (Struct_Name (structOf (description s) id)))
                         (imap pair (Flds (structOf (description s) id))) ;;
             ret (key, fields))).
  { apply keeps_bind; [|intros; apply keeps_ret].
    apply keeps_mapM_in. intros [j a] Hja. apply imap_pair_elem in Hja.
    exact (keeps_generateStructField_sameHeads _ _ _ _ _ _ _ _ _ Hs Hja). }
  intros x s' H. exact (Hk s x s' Hs H).
Qed.

Lemma keeps_generateResource_sameHeads consts d0 fuel res :
  keeps (fun st => sameHeads d0 (description st)) (generateResource consts fuel res).
Proof.
  unfold generateResource. keeps_auto.
  - apply keeps_resourceLoop.
  - apply keeps_generateArg_sameHeads. exact I.
Qed.

Lemma keeps_generateStructs_sameHeads consts d0 fuel sched :
  keeps (fun st => sameHeads d0 (description st)) (generateStructs consts fuel sched).
Proof.
  unfold generateStructs. keeps_auto.
  - apply keeps_mapM. intros [key id]. unfold generateStructEntry. keeps_auto.
  - apply keeps_mapM. intros [key id]. apply keeps_generateStructFields_sameHeads.
Qed.

Lemma generateCallArg_Ok_inv consts fuel i j a s t s' :
  generateCallArg consts fuel i (j, a) s = Ok (t, s') ->
  exists a0 a1,
    generateArg consts fuel EmptyString a0 a1 "in" (drop 2 a) (ArgSlot i j)
      true false s = Ok (t, s').
Proof. unfold generateCallArg. cbn [fst snd]. intros H. minv. eauto. Qed.

(** The run of [generateArg] behind each type of a compiled call. *)
Lemma generateCall_types consts (P : state -> Prop) fuel ics s cd s' t :
  (forall parent name typ dir a sl isArg isField,
     syscallSlot sl = true ->
     keeps P (generateArg consts fuel parent name typ dir a sl isArg isField)) ->
  (forall st, P st -> P (mkState EmptyString (description st))) ->
  P s ->
  generateCall consts fuel ics s = Ok (cd, s') ->
  Call_Ret cd = Some t \/ t ∈ Call_Args cd ->
  exists parent name typ dir a sl isField s1 s2,
    P s1 /\
    generateArg consts fuel parent name typ dir a sl true isField s1 = Ok (t, s2).
Proof.
  intros Hkeep Hreset HP H Ht. destruct ics as [i c].
  unfold generateCall in H. cbn [fst snd] in H.
  apply bind_Ok_inv in H as ([] & s1 & Hm & H).
  apply modify_Ok_inv in Hm as ->.
  apply bind_Ok_inv in H as (ra & s2 & Hra & H).
  apply bind_Ok_inv in H as (skip & s3 & _ & H).
  apply ret_Ok_inv in H as [-> _]. cbn [Call_Ret Call_Args] in Ht.
  unfold generateCallTypes in Hra.
  apply bind_Ok_inv in Hra as (r & s4 & Hr & Hra).
  apply bind_Ok_inv in Hra as (args & s5 & Hargs & Hra).
  apply ret_Ok_inv in Hra as [-> _]. cbn [fst snd] in Ht.
  assert (HP0 := Hreset s HP).
  assert (HP4 : P s4 /\
                (r = Some t ->
                 exists parent name typ dir a sl isField s1 s2,
                   P s1 /\
                   generateArg consts fuel parent name typ dir a sl true isField s1
                     = Ok (t, s2))).
  { destruct (negb (length (Ret c) =? 0)%nat).
    - apply bind_Ok_inv in Hr as (r0 & s6 & Hr0 & Hr).
      apply index_Ok_inv in Hr0 as [_ ->].
      apply bind_Ok_inv in Hr as (t0 & s7 & Ht0 & Hr).
      apply ret_Ok_inv in Hr as [-> ->]. split.
      + exact (Hkeep _ _ _ _ _ (RetSlot i) _ _ eq_refl _ _ _ HP0 Ht0).
      + intros [= ->]. eauto 12.
    - apply ret_Ok_inv in Hr as [-> ->]. split; [exact HP0|discriminate]. }
  destruct HP4 as [HP4 Hret].
  destruct Ht as [Ht|Ht]; [exact (Hret Ht)|].
  apply (mapM_Ok_inv P) in Hargs; [| |exact HP4].
  2:{ intros [j a]. unfold generateCallArg. cbn [fst snd].
      apply keeps_bind; [apply keeps_index|]. intros a0.
      apply keeps_bind; [apply keeps_index|]. intros a1.
      apply Hkeep. reflexivity. }
  apply list_elem_of_lookup in Ht as [n Hn].
  destruct (Forall2_lookup_r _ _ _ _ _ Hargs Hn) as ([j a] & _ & sa & sb & HPa & Hrun).
  apply generateCallArg_Ok_inv in Hrun as (a0 & a1 & Hrun). eauto 12.
Qed.

Lemma key_eta k : k = mkKey (name k) (field k) (dir k).
Proof. destruct k. reflexivity. Qed.

Lemma take2_lookup (a a' : list string) i :
  i < 2 -> take 2 a = take 2 a' -> a !! i = a' !! i.
Proof.
  intros Hi Ht. rewrite <- (lookup_take_lt a 2 i Hi), <- (lookup_take_lt a' 2 i Hi), Ht.
  reflexivity.
Qed.

Lemma references_registered consts fuel sched s out s' m :
  wellNamed (description s) ->
  valid_schedule (description s) sched ->
  structMap (description s) sched = Ok m ->
  generate consts fuel sched s = Ok (out, s') ->
  forall k, refIn k out -> dir k ∈ directions -> is_Some (m !! k).
Proof.
  intros Hwf Hvs Hm H k Hin Hdir.
  set (d := description s) in *.
  set (P := fun st : state => sameHeads d (description st)).
  unfold structMap in Hm.
  (* the two ways in which a key is registered *)
  assert (HA : is_Some (Structs d !! name k) -> field k = EmptyString ->
               is_Some (m !! k)).
  { intros [str Hs] Hf.
    assert (Ho : (name k, str) ∈ structOrder sched)
      by (apply (valid_schedule_order _ _ _ _ Hvs); exact Hs).
    destruct (buildStructMap_adds _ _ _ _ _ _ Hm Ho (dir k) Hdir) as [Hk _].
    rewrite (Hwf _ _ Hs), <- Hf, <- key_eta in Hk. exact Hk. }
  assert (HB : forall id str a,
            Structs d !! id = Some str -> a ∈ Flds str ->
            a !! 0 = Some (field k) -> a !! 1 = Some (name k) ->
            is_Some (Structs d !! name k) -> is_Some (m !! k)).
  { intros id str a Hs Ha H0 H1 Hn.
    assert (Ho : (id, str) ∈ structOrder sched)
      by (apply (valid_schedule_order _ _ _ _ Hvs); exact Hs).
    destruct (buildStructMap_adds _ _ _ _ _ _ Hm Ho (dir k) Hdir) as [_ Hk].
    specialize (Hk a _ _ Ha H0 H1 Hn). rewrite <- key_eta in Hk. exact Hk. }
  (* the reference sits in a type compiled at top level *)
  assert (Htop : forall parent nm typ dr a sl isField s1 s2 t,
            P s1 ->
            generateArg consts fuel parent nm typ dr a sl true isField s1 = Ok (t, s2) ->
            k ∈ structRefs t -> is_Some (m !! k)).
  { intros parent nm typ dr a sl isField s1 s2 t HP1 Hrun Hk.
    destruct (generateArg_refs _ _ _ _ _ _ _ _ _ _ _ _ _ Hrun k Hk) as [Hs Hf].
    apply (sameHeads_is_Some _ _ _ HP1) in Hs.
    destruct Hf as [Hf|(_ & _ & Hn)]; [auto|discriminate]. }
  unfold generate in H.
  apply bind_Ok_inv in H as (resources & s1 & Hres & H).
  apply bind_Ok_inv in H as (structs & s2 & Hstr & H).
  apply bind_Ok_inv in H as (d2 & s3 & Hd2 & H).
  apply gets_Ok_inv in Hd2 as [-> ->].
  apply bind_Ok_inv in H as (calls & s4 & Hcalls & H).
  apply ret_Ok_inv in H as [-> _].
  assert (HP0 : P s) by apply sameHeads_refl.
  assert (HP1 : P s1).
  { exact (keeps_mapM P _ _ (keeps_generateResource_sameHeads consts d fuel)
             _ _ _ HP0 Hres). }
  assert (HP2 : P s2).
  { exact (keeps_generateStructs_sameHeads consts d fuel sched _ _ _ HP1 Hstr). }
  destruct Hin as [(rd & Hrd & Hk)|[(kf & t & Hkf & Ht & Hk)|(c & t & Hc & Ht & Hk)]];
    cbn [Out_Resources Out_StructFields Out_Calls] in *.
  - (* resources *)
    unfold generateResources in Hres.
    apply (mapM_Ok_inv P) in Hres;
      [|apply keeps_generateResource_sameHeads|exact HP0].
    apply list_elem_of_lookup in Hrd as [i Hi].
    destruct (Forall2_lookup_r _ _ _ _ _ Hres Hi) as (res & _ & sa & sb & HPa & Hrun).
    unfold generateResource in Hrun.
    apply bind_Ok_inv in Hrun as (r & sc & Hloop & Hrun).
    apply bind_Ok_inv in Hrun as (t & sd & Hgen & Hrun).
    apply ret_Ok_inv in Hrun as [-> _]. cbn [Desc_Type] in Hk.
    refine (Htop _ _ _ _ _ _ _ sc sd t _ Hgen Hk).
    exact (keeps_resourceLoop P _ _ _ _ _ _ _ _ _ HPa Hloop).
  - (* struct fields *)
    unfold generateStructs in Hstr.
    apply bind_Ok_inv in Hstr as (d1 & sa & Hd1 & Hstr).
    apply gets_Ok_inv in Hd1 as [-> ->].
    apply bind_Ok_inv in Hstr as (m1 & sa & Hl & Hstr).
    assert (sa = s1) as ->.
    { unfold liftO in Hl.
      destruct (buildStructMap (description s1) _ _); try discriminate.
      injection Hl as _ <-. reflexivity. }
    apply bind_Ok_inv in Hstr as (es & sb & He & Hstr).
    apply bind_Ok_inv in Hstr as (fs & sc & Hf & Hstr).
    apply ret_Ok_inv in Hstr as [-> _]. cbn [snd] in Hkf.
    assert (HPb : P sb).
    { refine (keeps_mapM P _ _ _ _ _ _ HP1 He).
      intros [key id]. unfold generateStructEntry. keeps_auto. }
    apply (mapM_Ok_inv P) in Hf;
      [|intros [key id]; apply keeps_generateStructFields_sameHeads|exact HPb].
    apply list_elem_of_lookup in Hkf as [i Hi].
    destruct (Forall2_lookup_r _ _ _ _ _ Hf Hi) as ([key id] & _ & sd & se & HPd & Hrun).
    cbn [fst snd] in Hrun. unfold generateStructFields in Hrun.
    apply bind_Ok_inv in Hrun as (d' & sf & Hd' & Hrun).
    apply gets_Ok_inv in Hd' as [-> ->].
    apply bind_Ok_inv in Hrun as (ts & sg & Hts & Hrun).
    apply ret_Ok_inv in Hrun as [-> _]. cbn [snd] in Ht.
    apply (mapM_Ok_inv_in P) in Hts; [| |exact HPd].
    2:{ intros [j a] Hja. apply imap_pair_elem in Hja.
        exact (keeps_generateStructField_sameHeads _ _ _ _ _ _ _ _ _ HPd Hja). }
    apply list_elem_of_lookup in Ht as [n Hn].
    destruct (Forall2_lookup_r _ _ _ _ _ Hts Hn) as ([j a] & Hja & sh & si & HPh & Hrun).
    apply list_lookup_imap_Some in Hja as (a' & Hja & [= -> ->]).
    unfold generateStructField in Hrun. cbn [fst snd] in Hrun.
    apply bind_Ok_inv in Hrun as (a0 & sj & Ha0 & Hrun).
    apply index_Ok_inv in Ha0 as [Ha0 ->].
    apply bind_Ok_inv in Hrun as (a1 & sj & Ha1 & Hrun).
    apply index_Ok_inv in Ha1 as [Ha1 ->].
    destruct (generateArg_refs _ _ _ _ _ _ _ _ _ _ _ _ _ Hrun k Hk) as [Hs Hfk].
    apply (sameHeads_is_Some _ _ _ HPh) in Hs.
    destruct Hfk as [Hfk|(_ & Hkey & _)]; [auto|].
    (* the field itself is the reference: find it in the parsed description *)
    assert (Hsame := HPd id). unfold structOf in Hja.
    destruct (Structs (description sd) !! id) as [str'|] eqn:Hid';
      [|cbn in Hja; rewrite lookup_nil in Hja; discriminate].
    inversion Hsame as [str ? HF Hid|]; subst. symmetry in Hid.
    change (Flds str' !! n = Some a') in Hja.
    destruct (Forall2_lookup_r _ _ _ _ _ HF Hja) as (a & Ha & Htake & _).
    apply (HB id str a Hid).
    + apply list_elem_of_lookup. eauto.
    + rewrite (take2_lookup a a' 0) by (lia || exact Htake). exact Ha0.
    + rewrite (take2_lookup a a' 1) by (lia || exact Htake). exact Ha1.
    + exact Hs.
  - (* calls *)
    apply (mapM_Ok_inv P) in Hcalls; [| |exact HP2].
    2:{ intros [i c0]. unfold generateCall, generateCallTypes, generateCallArg.
        cbn [fst snd]. keeps_auto.
        - apply keeps_modify. intros st Hst. exact Hst.
        - apply keeps_generateArg_sameHeads. exact I.
        - apply keeps_mapM. intros [j toks]. cbn [fst snd]. keeps_auto.
          apply keeps_generateArg_sameHeads. exact I. }
    apply list_elem_of_lookup in Hc as [i Hi].
    destruct (Forall2_lookup_r _ _ _ _ _ Hcalls Hi) as (ics & _ & sa & sb & HPa & Hrun).
    destruct (generateCall_types consts P fuel ics sa c sb t)
      as (parent & nm & typ & dr & a & sl & isField & sc & sd & HPc & Hgen);
      [| |exact HPa|exact Hrun|exact Ht|].
    + intros parent nm typ dr toks sl isArg isField Hsl.
      apply keeps_generateArg_sameHeads. destruct sl; try discriminate; exact I.
    + intros st Hst. exact Hst.
    + exact (Htop _ _ _ _ _ _ _ sc sd t HPc Hgen Hk).
Qed.

Lemma generate_struct_tables consts fuel sched s out s' :
  generate consts fuel sched s = Ok (out, s') ->
  (Out_StructEntries out).*1 = (entryOrder sched).*1 /\
  (Out_StructFields out).*1 = (fieldOrder sched).*1.
Proof.
  unfold generate. intros H.
  apply bind_Ok_inv in H as (resources & s1 & _ & H).
  apply bind_Ok_inv in H as ([entries fields] & s2 & Hstr & H).
  apply bind_Ok_inv in H as (d & s3 & _ & H).
  apply bind_Ok_inv in H as (calls & s4 & _ & H).
  apply ret_Ok_inv in H as [-> _]. cbn [Out_StructEntries Out_StructFields fst snd].
  destruct (generateStructs_Ok_inv _ _ _ _ _ _ _ Hstr) as (He & Hf & _). auto.
Qed.

(** X24: no reference dangles: every struct reference in the output of
    [generate] whose direction is one of the three has its key in the struct
    map, and so a line in each of the two printed tables. This holds also
    where earlier compilations have shifted parameters in the description. *)
Theorem struct_references_resolve consts fuel sched s out s' m :
  wellNamed (description s) ->
  valid_schedule (description s) sched ->
  structMap (description s) sched = Ok m ->
  generate consts fuel sched s = Ok (out, s') ->
  forall k, refIn k out -> dir k ∈ directions ->
    is_Some (m !! k) /\
    k ∈ (Out_StructEntries out).*1 /\
    k ∈ (Out_StructFields out).*1.
Proof.
  intros Hwf Hvs Hm H k Hin Hdir.
  assert (Hk := references_registered consts fuel sched s out s' m Hwf Hvs Hm H
                  k Hin Hdir).
  split; [exact Hk|].
  destruct (generate_struct_tables _ _ _ _ _ _ H) as [He Hf].
  destruct Hvs as (_ & _ & _ & m0 & Hm0 & Hpe & Hpf).
  rewrite Hm in Hm0. injection Hm0 as <-.
  assert (Hkm : k ∈ (map_to_list m).*1).
  { destruct Hk as [id Hid]. apply list_elem_of_fmap. exists (k, id).
    split; [reflexivity|]. apply elem_of_map_to_list. exact Hid. }
  rewrite He, Hf, Hpe, Hpf. auto.
Qed.

Lemma pairOutput_generated :
  exists s', generate ∅ 2 pairSchedule (initState pairDescription)
               = Ok (pairOutput, s').
Proof.
  unfold pairOutput.
  assert (Hok : match generate ∅ 2 pairSchedule (initState pairDescription) with
                | Ok _ => true
                | _ => false
                end = true) by (vm_compute; reflexivity).
  destruct (generate ∅ 2 pairSchedule (initState pairDescription))
    as [[out s']| | |]; try discriminate Hok.
  exists s'. reflexivity.
Qed.

Lemma pairOutput_refers :
  refIn (mkKey "point" "first" "in") pairOutput.
Proof.
  right. left.
  assert (Hex : existsb
            (fun kf : structKey * list Typ =>
               existsb (fun t => match t with
                                 | StructRef k =>
                                     bool_decide (k = mkKey "point" "first" "in")
                                 | _ => false
                                 end) kf.2)
            (Out_StructFields pairOutput) = true) by (vm_compute; reflexivity).
  apply existsb_exists in Hex as (kf & Hkf & Hex).
  apply existsb_exists in Hex as (t & Ht & Hk).
  exists kf, t. split; [apply list_elem_of_In; exact Hkf|].
  split; [apply list_elem_of_In; exact Ht|].
  destruct t; try discriminate Hk. apply bool_decide_eq_true in Hk as ->.
  cbn. apply list_elem_of_here.
Qed.

Lemma struct_references_resolve_witness :
  is_Some (pairStructMap !! mkKey "point" "first" "in") /\
  mkKey "point" "first" "in" ∈ (Out_StructEntries pairOutput).*1 /\
  mkKey "point" "first" "in" ∈ (Out_StructFields pairOutput).*1.
Proof.
  destruct pairOutput_generated as [s' H].
  apply (struct_references_resolve ∅ 2 pairSchedule (initState pairDescription)
           pairOutput s' pairStructMap pairDescription_wellNamed
           pairSchedule_valid pairStructMap_built H).
  - exact pairOutput_refers.
  - cbn. apply list_elem_of_here.
Defined.

(** ** The constants at the end of the output *)

Lemma generate_Out_Consts consts fuel sched s out s' :
  generate consts fuel sched s = Ok (out, s') ->
  Out_Consts out =
    merge_sort (fun x y => String.le x.1 y.1) (map_to_list consts).
Proof.
  unfold generate. intros H.
  apply bind_Ok_inv in H as (resources & s1 & _ & H).
  apply bind_Ok_inv in H as (structs & s2 & _ & H).
  apply bind_Ok_inv in H as (d & s3 & _ & H).
  apply bind_Ok_inv in H as (calls & s4 & _ & H).
  apply ret_Ok_inv in H as [-> _]. reflexivity.
Qed.

(** X25: the constants at the end of the output: one line for each entry of
    the table and no other, in strictly ascending order of the names. *)
Theorem constants_emitted_in_order consts fuel sched s out s' :
  generate consts fuel sched s = Ok (out, s') ->
  StronglySorted nameBefore (Out_Consts out) /\
  forall n v, (n, v) ∈ Out_Consts out <-> consts !! n = Some v.
Proof.
  intros H. apply generate_Out_Consts in H.
  set (R := fun x y : string * N => String.le x.1 y.1) in *.
  assert (Htot : Total R) by (intros x y; apply (total String.le)).
  assert (Htrans : Transitive R)
    by (intros x y z; unfold R; apply (transitivity (R := String.le))).
  assert (Hperm : Out_Consts out ≡ₚ map_to_list consts)
    by (rewrite H; apply merge_sort_Permutation).
  assert (Hsorted : StronglySorted R (Out_Consts out))
    by (rewrite H; apply (StronglySorted_merge_sort R)).
  assert (Hnd : NoDup (Out_Consts out).*1)
    by (rewrite Hperm; apply NoDup_fst_map_to_list).
  split.
  - clear H Hperm. induction Hsorted as [|x l Hs IH Hall]; [constructor|].
    cbn [fmap list_fmap] in Hnd. apply NoDup_cons in Hnd as [Hx Hnd].
    constructor; [exact (IH Hnd)|].
    apply Forall_forall. intros y Hy. split.
    + exact (proj1 (Forall_forall _ _) Hall y Hy).
    + intros Heq. apply Hx. rewrite Heq. apply list_elem_of_fmap. eauto.
  - intros n v. rewrite Hperm. apply elem_of_map_to_list.
Qed.

Lemma constants_emitted_in_order_witness :
  exists out s',
    generate (<["__NR_ioctl" := 16%N]> (<["FOO" := 1%N]> ∅)) 1 emptySchedule
      (initState ioctlDescription) = Ok (out, s') /\
    StronglySorted nameBefore (Out_Consts out) /\
    (("FOO", 1%N) ∈ Out_Consts out).
Proof.
  set (consts := <["__NR_ioctl" := 16%N]> (<["FOO" := 1%N]> ∅) : gmap string N).
  assert (Hok : match generate consts 1 emptySchedule (initState ioctlDescription) with
                | Ok _ => true
                | _ => false
                end = true) by (vm_compute; reflexivity).
  destruct (generate consts 1 emptySchedule (initState ioctlDescription))
    as [[out s']| | |] eqn:E; try discriminate Hok.
  exists out, s'. split; [reflexivity|].
  destruct (constants_emitted_in_order consts 1 emptySchedule
              (initState ioctlDescription) out s' E) as [Hs Hin].
  split; [exact Hs|]. apply Hin. reflexivity.
Defined.
